(** * plateify: layout annealing, cost model and grid routing

    A shallow embedding of the TypeScript sources

    - [src/layout/anneal/engine.ts]      (module [Engine])
    - [src/layout/cost/cost.ts]          (module [Cost])
    - [src/layout/routing/draftRouter.ts] (module [Router])
    - [src/layout/routing/elkRouter.ts]  (module [ElkRouter])
    - [src/layout/routing/routerFacade.ts] (module [Facade])
    - [src/layout/debug/history.ts]      (module [History], in part)
    - [src/layout/ir.ts]                 (module [IR])

    in four parts: the program (Part I), the predicates and sample inputs
    the statements use (Part II), the properties and their proofs
    (Part III), further properties of the code (Part IV).

    Conventions of the embedding.

    - 32-bit integers of the RNG are [Z] with the wrap-around of [| 0] and
      [>>> 0] written out.
    - In the annealing engine a JavaScript [number] that carries a real
      quantity (temperature, cost, the uniform draw) is a rational [Q] with
      exact arithmetic; [Math.exp] is a parameter.  Integer quantities
      (layout entries, indices, iteration counters, capacities) are [Z].
    - In the cost model a [number] is an IEEE-754 binary64 [float], the
      representation JavaScript uses, so NaN and the infinities are values.
    - In the routers coordinates are integers ([Z]) and a cell key
      ["x,y"] is the pair of its two integers; [Map] and [Set] keyed by
      cell keys are [gmap] and [gset].
    - [String.prototype.localeCompare] is a parameter of the routers and of
      [ir.ts].
    - In [history.ts] the iteration number and the window size are
      integers and the acceptance ratio is a rational.
    - A loop that the source does not bound ([while] in [proposeMove], the
      A* search of [findPath]) takes a fuel argument and returns [None]
      when the fuel runs out.
    - A function that updates the session in place returns the updated
      session. *)

From Stdlib Require Import ZArith QArith Qround Qminmax Lqa Floats Lia Bool.
From Stdlib Require Import String OrderedTypeEx.
From stdpp Require Import base option list sorting gmap sets strings.

Local Open Scope Z_scope.

(** ** Part I: the program *)

(** *** engine.ts *)

Module Engine.

Record CostBreakdown := mkCost {
  total : Q;
  components : gmap string Q
}.

Record AnnealRngState := mkRng { seed : Z }.

(** [transitionBufferSize] is the length of an array, an integer; seeds
    and layout entries are integers as well. *)
Record AnnealProblem := mkProblem {
  initialLayout : list Z;
  evaluateCost : list Z -> CostBreakdown;
  maxNudgeStep : option Q;
  initialTemperature : option Q;
  coolingRate : option Q;
  minTemperature : option Q;
  transitionBufferSize : option Z;
  captureFullTrace : option bool;
  enableBlockShift : option bool
}.

Record AnnealStateSnapshot := mkSnapshot {
  iteration : Z;
  temperature : Q;
  layout : list Z;
  costBreakdown : CostBreakdown;
  rngState : AnnealRngState
}.

Inductive AnnealMove :=
| nudge (index delta : Z) (rngStateAfterProposal : AnnealRngState)
| swap (a b : Z) (rngStateAfterProposal : AnnealRngState)
| reinsert (from to : Z) (rngStateAfterProposal : AnnealRngState)
| blockShift (start end_ shift : Z) (rngStateAfterProposal : AnnealRngState).

Definition rngStateAfterProposal (m : AnnealMove) : AnnealRngState :=
  match m with
  | nudge _ _ r | swap _ _ r | reinsert _ _ r | blockShift _ _ _ r => r
  end.

Inductive Reason := improved | equal | metropolis | rejected.

Record AnnealTransition := mkTransition {
  proposal : AnnealMove;
  deltaCost : Q;
  accepted : bool;
  reason : Reason;
  before : AnnealStateSnapshot;
  after : AnnealStateSnapshot
}.

Record TransitionRingBuffer := mkRing {
  capacity : Z;
  head : Z;
  size : Z;
  entries : list (option AnnealTransition)
}.

(** [AnnealState extends AnnealStateSnapshot]: the inherited fields are the
    [snap] component. *)
Record AnnealState := mkState {
  snap : AnnealStateSnapshot;
  problem : AnnealProblem;
  transitionBuffer : TransitionRingBuffer;
  fullTraceEnabled : bool;
  fullTrace : list AnnealTransition
}.

Definition DEFAULT_INITIAL_TEMPERATURE : Q := 10 # 1.
Definition DEFAULT_COOLING_RATE : Q := 995 # 1000.
Definition DEFAULT_MIN_TEMPERATURE : Q := 1 # 10000.
Definition DEFAULT_TRANSITION_BUFFER_SIZE : Z := 256.

(** [x | 0]: the signed 32-bit reading of an integer. *)
Definition toInt32 (z : Z) : Z := (z + 2 ^ 31) mod 2 ^ 32 - 2 ^ 31.

(** [x >>> 0]: the unsigned 32-bit reading of an integer. *)
Definition toUint32 (z : Z) : Z := z mod 2 ^ 32.

(** [a << n], [a >>> n] and [a ^ b] on 32-bit operands. *)
Definition shl32 (a n : Z) : Z := toInt32 (Z.shiftl (toInt32 a) n).
Definition shru32 (a n : Z) : Z := Z.shiftr (toUint32 a) n.
Definition xor32 (a b : Z) : Z := toInt32 (Z.lxor (toInt32 a) (toInt32 b)).

Definition sanitizeSeed (seed : Z) : Z :=
  let n := toInt32 seed in
  if n =? 0 then 0x6d2b79f5 else n.

Definition nextRng (state : AnnealRngState) : Q * AnnealRngState :=
  let x := toInt32 (seed state) in
  let x := xor32 x (shl32 x 13) in
  let x := xor32 x (shru32 x 17) in
  let x := xor32 x (shl32 x 5) in
  let nextState := mkRng (sanitizeSeed x) in
  let value := Qmake (toUint32 (seed nextState)) 4294967296 in
  (value, nextState).

Definition Qltb (x y : Q) : bool :=
  match Qcompare x y with Lt => true | _ => false end.

Definition randInt (maxExclusive : Q) (rngState : AnnealRngState)
  : Z * AnnealRngState :=
  if Qle_bool maxExclusive 0 then (0, rngState)
  else
    let '(u, nextState) := nextRng rngState in
    (Qfloor (u * maxExclusive), nextState).

Definition cloneSnapshot (s : AnnealStateSnapshot) : AnnealStateSnapshot :=
  mkSnapshot (iteration s) (temperature s) (layout s)
    (mkCost (total (costBreakdown s)) (components (costBreakdown s)))
    (mkRng (seed (rngState s))).

Definition cool (problem : AnnealProblem) (temperature : Q) : Q :=
  let coolingRate := default DEFAULT_COOLING_RATE (coolingRate problem) in
  let minTemperature := default DEFAULT_MIN_TEMPERATURE (minTemperature problem) in
  Qmax minTemperature (temperature * coolingRate).

(** [entries: new Array(capacity)]: [capacity] holes. *)
Definition makeRingBuffer (capacity : Z) : TransitionRingBuffer :=
  mkRing capacity 0 0 (replicate (Z.to_nat capacity) None).

(** [nextEntries[ring.head] = transition].  [head] is always below the
    length of [entries] (lemma [ring_inv_append]), so the write never
    extends the array. *)
Definition appendTransition (state : AnnealState) (transition : AnnealTransition)
  : AnnealState :=
  let ring := transitionBuffer state in
  let nextEntries := <[ Z.to_nat (head ring) := Some transition ]> (entries ring) in
  let nextRing :=
    mkRing (capacity ring)
           (Z.rem (head ring + 1) (capacity ring))
           (Z.min (size ring + 1) (capacity ring))
           nextEntries in
  let nextTrace :=
    if fullTraceEnabled state then fullTrace state ++ [transition]
    else fullTrace state in
  mkState (snap state) (problem state) nextRing (fullTraceEnabled state) nextTrace.

Definition initializeAnneal (problem : AnnealProblem) (seed : Z) : AnnealState :=
  let layout := initialLayout problem in
  let costBreakdown := evaluateCost problem layout in
  let bufferSize :=
    Z.max 1 (default DEFAULT_TRANSITION_BUFFER_SIZE (transitionBufferSize problem)) in
  mkState
    (mkSnapshot 0
       (Qmax (default DEFAULT_INITIAL_TEMPERATURE (initialTemperature problem)) 0)
       layout costBreakdown (mkRng (sanitizeSeed seed)))
    problem
    (makeRingBuffer bufferSize)
    (default false (captureFullTrace problem))
    [].

Inductive MoveType := TNudge | TSwap | TReinsert | TBlockShift.

(** [while (b === a) { [b, rng] = randInt(layout.length, rng); }] *)
Fixpoint resample (fuel : nat) (len : Q) (a b : Z) (rng : AnnealRngState)
  : option (Z * AnnealRngState) :=
  if b =? a then
    match fuel with
    | O => None
    | S fuel' =>
        let '(b', rng') := randInt len rng in
        resample fuel' len a b' rng'
    end
  else Some (b, rng).

Definition proposeMove (fuel : nat) (state : AnnealState) : option AnnealMove :=
  let layout := layout (snap state) in
  let problem := problem state in
  let rng := mkRng (seed (rngState (snap state))) in
  let len := inject_Z (Z.of_nat (length layout)) in
  let options :=
    [TNudge; TSwap; TReinsert] ++
    (if default false (enableBlockShift problem) then [TBlockShift] else []) in
  let '(moveIndex, rng) := randInt (inject_Z (Z.of_nat (length options))) rng in
  let moveType :=
    if moveIndex <? 0 then None else options !! Z.to_nat moveIndex in
  match moveType with
  | Some TSwap =>
      let '(a, rng) := randInt len rng in
      let '(b, rng) := randInt len rng in
      if (1 <? Z.of_nat (length layout)) then
        '(b, rng) ← resample fuel len a b rng;
        Some (swap a b rng)
      else Some (swap a b rng)
  | Some TReinsert =>
      let '(from, rng) := randInt len rng in
      let '(to, rng) := randInt len rng in
      Some (reinsert from to rng)
  | Some TBlockShift =>
      let '(start, rng) := randInt len rng in
      let '(end_, rng) := randInt len rng in
      let '(start, end_) := if end_ <? start then (end_, start) else (start, end_) in
      let '(shift, rng) := randInt (3 # 1) rng in
      Some (blockShift start end_ (shift - 1) rng)
  | _ =>
      let '(index, rng) := randInt len rng in
      let stepMax := Qmax (1 # 1) (default (1 # 1) (maxNudgeStep problem)) in
      let '(deltaMagnitude, rng) := randInt stepMax rng in
      let '(signRoll, rng) := randInt (2 # 1) rng in
      let delta := (deltaMagnitude + 1) * (if signRoll =? 0 then -1 else 1) in
      Some (nudge index delta rng)
  end.

(** [arr.splice(start, deleteCount, ...items)] for integer arguments:
    the removed elements and the array after the call. *)
Definition splice (arr : list Z) (start deleteCount : Z) (items : list Z)
  : list Z * list Z :=
  let len := Z.of_nat (length arr) in
  let s := if start <? 0 then Z.max (len + start) 0 else Z.min start len in
  let d := Z.min (Z.max deleteCount 0) (len - s) in
  (take (Z.to_nat d) (drop (Z.to_nat s) arr),
   take (Z.to_nat s) arr ++ items ++ drop (Z.to_nat (s + d)) arr).

(** [arr[i]] for an index inside the array; [None] stands for
    [undefined]. *)
Definition at_index (arr : list Z) (i : Z) : option Z :=
  if i <? 0 then None else arr !! Z.to_nat i.

(** The layout transformation of [applyMove].  [None] marks the moves
    after which the JavaScript array would hold [undefined] or [NaN] (an
    element read or written outside the array): such arrays are not layouts
    of integers.  The moves of [proposeMove] never get there (lemma
    [applyMove_proposeMove]). *)
Definition applyLayout (layout : list Z) (move : AnnealMove) : option (list Z) :=
  let len := Z.of_nat (length layout) in
  match move with
  | nudge index delta _ =>
      if 0 <? len then
        v ← at_index layout index;
        Some (<[ Z.to_nat index := v + delta ]> layout)
      else Some layout
  | swap a b _ =>
      if 1 <? len then
        va ← at_index layout a;
        vb ← at_index layout b;
        Some (<[ Z.to_nat b := va ]> (<[ Z.to_nat a := vb ]> layout))
      else Some layout
  | reinsert from to _ =>
      if 1 <? len then
        let '(removed, rest) := splice layout from 1 [] in
        item ← removed !! 0%nat;
        Some (snd (splice rest (Z.min to (Z.of_nat (length rest))) 0 [item]))
      else Some layout
  | blockShift start end_ shift _ =>
      if (0 <? len) && negb (shift =? 0) then
        let start := Z.max 0 (Z.min start (len - 1)) in
        let end_ := Z.max start (Z.min end_ (len - 1)) in
        let '(block, rest) := splice layout start (end_ - start + 1) [] in
        let insertion := Z.max 0 (Z.min (start + shift) (Z.of_nat (length rest))) in
        Some (snd (splice rest insertion 0 block))
      else Some layout
  end.

Definition withSnapshot (state : AnnealState) (s : AnnealStateSnapshot) : AnnealState :=
  mkState s (problem state) (transitionBuffer state) (fullTraceEnabled state)
    (fullTrace state).

Definition applyMove (state : AnnealState) (move : AnnealMove) : option AnnealState :=
  nextLayout ← applyLayout (layout (snap state)) move;
  Some (withSnapshot state
    (mkSnapshot (iteration (snap state)) (temperature (snap state))
       nextLayout
       (evaluateCost (problem state) nextLayout)
       (mkRng (seed (rngStateAfterProposal move))))).

Section WithExp.

(** [Math.exp], left abstract. *)
Variable exp : Q -> Q.

Definition acceptMove (state candidate : AnnealState) : AnnealTransition :=
  let deltaCost :=
    (total (costBreakdown (snap candidate)) - total (costBreakdown (snap state)))%Q in
  let before := cloneSnapshot (snap state) in
  let '(accepted, reason, rngAfterAccept) :=
    if Qltb deltaCost 0 then (true, improved, mkRng (seed (rngState (snap candidate))))
    else if Qeq_bool deltaCost 0 then
      (true, equal, mkRng (seed (rngState (snap candidate))))
    else
      let '(u, nextRngState) := nextRng (rngState (snap candidate)) in
      let metropolisCutoff :=
        exp (- deltaCost / Qmax (temperature (snap state)) (1 # 1000000000000))%Q in
      if Qltb u metropolisCutoff then (true, metropolis, nextRngState)
      else (false, rejected, nextRngState) in
  let chosen := if accepted : bool then snap candidate else snap state in
  let baseNext :=
    mkSnapshot (iteration (snap state) + 1)
      (cool (problem state) (temperature (snap state)))
      (layout chosen)
      (mkCost (total (costBreakdown chosen)) (components (costBreakdown chosen)))
      rngAfterAccept in
  mkTransition
    (nudge 0 0 (mkRng (seed (rngState (snap candidate)))))
    deltaCost accepted reason before baseNext.

Definition buildNextStateFromTransition (state : AnnealState)
  (transition : AnnealTransition) : AnnealState :=
  withSnapshot state (cloneSnapshot (after transition)).

(** [stepAnneal] returns the transition and updates the session in place;
    here the updated session is the second component. *)
Definition stepAnneal (fuel : nat) (state : AnnealState)
  : option (AnnealTransition * AnnealState) :=
  proposal ← proposeMove fuel state;
  candidate ← applyMove state proposal;
  let acceptedTransition := acceptMove state candidate in
  let transition :=
    mkTransition proposal (deltaCost acceptedTransition)
      (accepted acceptedTransition) (reason acceptedTransition)
      (before acceptedTransition) (after acceptedTransition) in
  let postStep := buildNextStateFromTransition state transition in
  let persisted := appendTransition postStep transition in
  Some (transition, persisted).

(** The [for] loop of [runAnneal]; the transitions are listed in the order
    in which [onStep] sees them. *)
Fixpoint runLoop (fuel : nat) (steps : nat) (state : AnnealState)
  : option (list AnnealTransition * AnnealState) :=
  match steps with
  | O => Some ([], state)
  | S steps' =>
      '(transition, state') ← stepAnneal fuel state;
      '(rest, final) ← runLoop fuel steps' state';
      Some (transition :: rest, final)
  end.

Definition runAnneal (fuel : nat) (state : AnnealState) (budget : Q)
  : option (list AnnealTransition * AnnealState) :=
  let steps := Z.max 0 (Qfloor budget) in
  runLoop fuel (Z.to_nat steps) state.

End WithExp.

(** [transitionBuffer.entries[index]]; [None] stands for [undefined] (a
    hole of the array or an index outside it). *)
Definition entryAt (ring : TransitionRingBuffer) (index : Z)
  : option AnnealTransition :=
  if index <? 0 then None else mjoin (entries ring !! Z.to_nat index).

(** The loop of [exportTransitionRing], from counter [i], [count] rounds. *)
Fixpoint exportLoop (ring : TransitionRingBuffer) (count : nat) (i : Z)
  : list AnnealTransition :=
  match count with
  | O => []
  | S count' =>
      let index := Z.rem (head ring - size ring + i + capacity ring) (capacity ring) in
      match entryAt ring index with
      | Some t => t :: exportLoop ring count' (i + 1)
      | None => exportLoop ring count' (i + 1)
      end
  end.

Definition exportTransitionRing (state : AnnealState) : list AnnealTransition :=
  let ring := transitionBuffer state in
  exportLoop ring (Z.to_nat (size ring)) 0.

Definition exportFullTrace (state : AnnealState) : list AnnealTransition :=
  fullTrace state.

End Engine.


(** *** cost.ts *)

Module Cost.

Local Open Scope float_scope.

Record CostBreakdown := mkCostBreakdown {
  total : float;
  L : float;
  X : float;
  B : float;
  F_out : float;
  F_down : float;
  F : float;
  S_span : float;
  S_waste : float;
  S : float
}.

Record LayoutCostInput := mkLayoutCostInput {
  positions : option (list float);
  layoutSpans : option (list float);
  waste : option float
}.

Record RoutingCostInput := mkRoutingCostInput {
  crossings : option float;
  bends : option float;
  flowOutViolations : option float;
  flowDownViolations : option float;
  routingSpans : option (list float)
}.

(** [Partial<Record<..., number>>]: one optional weight per term. *)
Record Weights := mkWeights {
  wL : option float;
  wX : option float;
  wB : option float;
  wF_out : option float;
  wF_down : option float;
  wF : option float;
  wS_span : option float;
  wS_waste : option float;
  wS : option float
}.

Record CostConfig := mkCostConfig { weights : option Weights }.

Definition noWeights : Weights :=
  mkWeights None None None None None None None None None.

Definition ZERO_COST : CostBreakdown := mkCostBreakdown 0 0 0 0 0 0 0 0 0 0.

(** [let total = 0; for (const value of values) total += value]. *)
Definition sum (values : list float) : float :=
  fold_left (fun total value => total + value) values 0.

Definition weighted (value : float) (weight : option float) : float :=
  value * default 1 weight.

(** [Number.isFinite]. *)
Definition isFinite (value : float) : bool :=
  negb (is_nan value) && negb (is_infinity value).

Definition finiteOrZero (value : option float) : float :=
  match value with
  | Some v => if isFinite v then v else 0
  | None => 0
  end.

Definition computeCost (layout : LayoutCostInput) (routing : RoutingCostInput)
  (config : CostConfig) : CostBreakdown :=
  let weights := default noWeights (weights config) in
  let positions := default [] (positions layout) in
  let spans :=
    match layoutSpans layout with
    | Some s => s
    | None => default [] (routingSpans routing)
    end in
  let baseL := sum (map abs positions) in
  let baseX := finiteOrZero (crossings routing) in
  let baseB := finiteOrZero (bends routing) in
  let baseFOut := finiteOrZero (flowOutViolations routing) in
  let baseFDown := finiteOrZero (flowDownViolations routing) in
  let baseSSpan := sum (map abs spans) in
  let baseSWaste := finiteOrZero (waste layout) in
  let L := weighted baseL (wL weights) in
  let X := weighted baseX (wX weights) in
  let B := weighted baseB (wB weights) in
  let F_out := weighted baseFOut (wF_out weights) in
  let F_down := weighted baseFDown (wF_down weights) in
  let F := weighted (baseFOut + baseFDown) (wF weights) in
  let S_span := weighted baseSSpan (wS_span weights) in
  let S_waste := weighted baseSWaste (wS_waste weights) in
  let S := weighted (baseSSpan + baseSWaste) (wS weights) in
  let total := L + X + B + F_out + F_down + F + S_span + S_waste + S in
  mkCostBreakdown total L X B F_out F_down F S_span S_waste S.

Definition computeDeltaCost (prev next : CostBreakdown) : CostBreakdown :=
  mkCostBreakdown
    (total next - total prev)
    (L next - L prev)
    (X next - X prev)
    (B next - B prev)
    (F_out next - F_out prev)
    (F_down next - F_down prev)
    (F next - F prev)
    (S_span next - S_span prev)
    (S_waste next - S_waste prev)
    (S next - S prev).

Definition zeroCostBreakdown : CostBreakdown := ZERO_COST.

End Cost.

(** *** draftRouter.ts *)

(** [Array.prototype.sort] with a comparator.  The sort is stable, so for a
    consistent comparator its result is the one of any stable sort; it is
    modelled by insertion from the right, which keeps equal elements in
    their input order. *)
Fixpoint jsSortInsert {A : Type} (cmp : A -> A -> Z) (x : A) (l : list A) : list A :=
  match l with
  | [] => [x]
  | y :: l' => if 0 <? cmp x y then y :: jsSortInsert cmp x l' else x :: y :: l'
  end.

Definition jsSort {A : Type} (cmp : A -> A -> Z) (l : list A) : list A :=
  foldr (jsSortInsert cmp) [] l.

Module Router.

Record GridPoint := mkPoint { x : Z; y : Z }.

Record GridRect := mkRect {
  rect_x : Z;
  rect_y : Z;
  width : Z;
  height : Z
}.

Record DraftRouterEdge := mkEdge {
  id : string;
  source : GridPoint;
  target : GridPoint
}.

Record DraftRouterInput := mkDraftInput {
  edges : list DraftRouterEdge;
  obstacles : option (list GridRect);
  blockedCells : option (list GridPoint);
  gridStep : option Q;
  obstaclePadding : option Q
}.

Record RoutedEdge := mkRouted {
  routeId : string;
  points : list GridPoint
}.

Record RouteCost := mkRouteCost {
  length_ : Z;
  bends : Z;
  crossings : Z;
  total : Z
}.

(** The constant tag [mode: "draft"] is the type itself. *)
Record DraftRouterResult := mkDraftResult {
  routes : list RoutedEdge;
  cost : RouteCost
}.

Record Cell := mkCell { cell_x : Z; cell_y : Z }.

Definition NEIGHBOR_DIRS : list Cell :=
  [mkCell 1 0; mkCell 0 1; mkCell 0 (-1); mkCell (-1) 0].

(** The string [`${cell.x},${cell.y}`] identifies the pair of integers;
    the pair itself is the key. *)
Definition Key : Type := Z * Z.

Definition cellKey (cell : Cell) : Key := (cell_x cell, cell_y cell).

(** [Math.round]: to the nearest integer, halves upwards. *)
Definition jsRound (q : Q) : Z := Qfloor (q + (1 # 2)).

Definition normalizeToCell (point : GridPoint) (step : Z) : Cell :=
  mkCell (jsRound (inject_Z (x point) / inject_Z step))
         (jsRound (inject_Z (y point) / inject_Z step)).

Definition denormalizeFromCell (cell : Cell) (step : Z) : GridPoint :=
  mkPoint (cell_x cell * step) (cell_y cell * step).

Definition buildBlockedSet (obstacles : list GridRect) (blockedCells : list GridPoint)
  (step : Z) (obstaclePadding : Z) : gset Key :=
  let blocked :=
    foldl (fun blocked point => blocked ∪ {[ cellKey (normalizeToCell point step) ]})
      ∅ blockedCells in
  foldl (fun blocked obstacle =>
    let minX := Qfloor (inject_Z (rect_x obstacle) / inject_Z step) - obstaclePadding in
    let maxX :=
      Qceiling (inject_Z (rect_x obstacle + width obstacle) / inject_Z step)
      + obstaclePadding in
    let minY := Qfloor (inject_Z (rect_y obstacle) / inject_Z step) - obstaclePadding in
    let maxY :=
      Qceiling (inject_Z (rect_y obstacle + height obstacle) / inject_Z step)
      + obstaclePadding in
    foldl (fun blocked x =>
      foldl (fun blocked y => blocked ∪ {[ cellKey (mkCell x y) ]})
        blocked (seqZ minY (maxY - minY + 1)))
      blocked (seqZ minX (maxX - minX + 1)))
    blocked obstacles.

Definition manhattan (a b : Cell) : Z :=
  Z.abs (cell_x a - cell_x b) + Z.abs (cell_y a - cell_y b).

(** The [while (cameFrom.has(cursor))] loop of [reconstructPath]; [path]
    is the array being pushed to. *)
Fixpoint walkBack (fuel : nat) (cameFrom : gmap Key Key) (cursor : Key)
  (path : list Cell) : option (list Cell) :=
  match cameFrom !! cursor with
  | None => Some path
  | Some prev =>
      match fuel with
      | O => None
      | S fuel' => walkBack fuel' cameFrom prev (path ++ [mkCell (fst prev) (snd prev)])
      end
  end.

Definition reconstructPath (fuel : nat) (cameFrom : gmap Key Key) (end_ : Cell)
  : option (list Cell) :=
  path ← walkBack fuel cameFrom (cellKey end_) [end_];
  Some (reverse path).

(** The working state of the search in [findPath]. *)
Record SearchState := mkSearch {
  open : list Cell;
  cameFrom : gmap Key Key;
  g : gmap Key Z;
  f : gmap Key Z;
  openSet : gset Key
}.

(** The comparator of [open.sort]: estimated total cost, then x, then y.
    A missing [f] entry reads as [+Infinity]. *)
Definition compareOpen (f : gmap Key Z) (a b : Cell) : Z :=
  let tie :=
    if negb (cell_x a =? cell_x b) then cell_x a - cell_x b
    else cell_y a - cell_y b in
  match f !! cellKey a, f !! cellKey b with
  | Some fa, Some fb => if negb (fa =? fb) then fa - fb else tie
  | Some _, None => -1
  | None, Some _ => 1
  | None, None => tie
  end.

(** The body of [for (const dir of NEIGHBOR_DIRS)]. *)
Definition relax (goal : Cell) (blocked : gset Key) (current : Cell)
  (st : SearchState) (dir : Cell) : SearchState :=
  let currentKey := cellKey current in
  let neighbor := mkCell (cell_x current + cell_x dir) (cell_y current + cell_y dir) in
  let neighborKey := cellKey neighbor in
  if negb (bool_decide (neighborKey = cellKey goal))
     && bool_decide (neighborKey ∈ blocked)
  then st
  else
    match g st !! currentKey with
    | None => st
    | Some gCurrent =>
        let tentativeG := gCurrent + 1 in
        let worse :=
          match g st !! neighborKey with
          | Some gNeighbor => gNeighbor <=? tentativeG
          | None => false
          end in
        if worse then st
        else
          let inOpen := bool_decide (neighborKey ∈ openSet st) in
          mkSearch
            (if inOpen then open st else open st ++ [neighbor])
            (<[ neighborKey := currentKey ]> (cameFrom st))
            (<[ neighborKey := tentativeG ]> (g st))
            (<[ neighborKey := tentativeG + manhattan neighbor goal ]> (f st))
            (if inOpen then openSet st else openSet st ∪ {[ neighborKey ]})
    end.

(** The [while (open.length > 0)] loop of [findPath]. *)
Fixpoint search (fuel : nat) (start goal : Cell) (blocked : gset Key)
  (st : SearchState) : option (list Cell) :=
  match fuel with
  | O => None
  | S fuel' =>
      match jsSort (compareOpen (f st)) (open st) with
      | [] => Some [start; goal]
      | current :: rest =>
          let currentKey := cellKey current in
          let st :=
            mkSearch rest (cameFrom st) (g st) (f st) (openSet st ∖ {[ currentKey ]}) in
          if bool_decide (currentKey = cellKey goal)
          then reconstructPath fuel' (cameFrom st) current
          else search fuel' start goal blocked
                 (foldl (relax goal blocked current) st NEIGHBOR_DIRS)
      end
  end.

Definition findPath (fuel : nat) (start goal : Cell) (blocked : gset Key)
  : option (list Cell) :=
  if bool_decide (cellKey start = cellKey goal) then Some [start]
  else
    search fuel start goal blocked
      (mkSearch [start] ∅
         {[ cellKey start := 0 ]}
         {[ cellKey start := manhattan start goal ]}
         {[ cellKey start ]}).

(** The first loop of [simplifyPath]: [prev] is [path[i - 1]], [rest]
    starts at [path[i]]. *)
Fixpoint simplifyLoop (prevDir : option Cell) (prev : Cell) (rest : list Cell)
  (out : list Cell) : list Cell :=
  match rest with
  | [] => out
  | curr :: rest' =>
      let dir := mkCell (cell_x curr - cell_x prev) (cell_y curr - cell_y prev) in
      let turn :=
        match prevDir with
        | None => true
        | Some d =>
            negb (cell_x d =? cell_x dir) || negb (cell_y d =? cell_y dir)
        end in
      if turn then simplifyLoop (Some dir) curr rest' (out ++ [prev])
      else simplifyLoop prevDir curr rest' out
  end.

Definition dedupe (out : list Cell) : list Cell :=
  foldl (fun deduped point =>
    match last deduped with
    | None => deduped ++ [point]
    | Some l =>
        if bool_decide (cellKey l = cellKey point) then deduped
        else deduped ++ [point]
    end) [] out.

Definition simplifyPath (path : list Cell) : list Cell :=
  match path with
  | first :: _ :: _ :: _ =>
      let out := simplifyLoop None first (tail path) [first] in
      let out :=
        match last path with
        | Some l => out ++ [l]
        | None => out
        end in
      dedupe out
  | _ => path
  end.

Record Segment := mkSegment {
  seg_a : GridPoint;
  seg_b : GridPoint;
  edgeId : string
}.

(** [for (let i = 1; i < points.length; i += 1)] over consecutive points. *)
Fixpoint segmentsOf (edgeId : string) (points : list GridPoint) : list Segment :=
  match points with
  | a :: ((b :: _) as rest) => mkSegment a b edgeId :: segmentsOf edgeId rest
  | _ => []
  end.

(** The body of the double loop of [segmentCrossings]: 1 when the pair
    is counted. *)
Definition crossing (s1 s2 : Segment) : Z :=
  if String.eqb (edgeId s1) (edgeId s2) then 0
  else
    let s1Vertical := x (seg_a s1) =? x (seg_b s1) in
    let s2Vertical := x (seg_a s2) =? x (seg_b s2) in
    if Bool.eqb s1Vertical s2Vertical then 0
    else
      let vertical := if s1Vertical then s1 else s2 in
      let horizontal := if s1Vertical then s2 else s1 in
      let vx := x (seg_a vertical) in
      let hy := y (seg_a horizontal) in
      let vMinY := Z.min (y (seg_a vertical)) (y (seg_b vertical)) in
      let vMaxY := Z.max (y (seg_a vertical)) (y (seg_b vertical)) in
      let hMinX := Z.min (x (seg_a horizontal)) (x (seg_b horizontal)) in
      let hMaxX := Z.max (x (seg_a horizontal)) (x (seg_b horizontal)) in
      if (hMinX <=? vx) && (vx <=? hMaxX) && (vMinY <=? hy) && (hy <=? vMaxY)
      then 1 else 0.

(** [for i] and, inside, [for j = i + 1]. *)
Fixpoint countCrossings (segments : list Segment) : Z :=
  match segments with
  | [] => 0
  | s1 :: rest =>
      foldl (fun count s2 => count + crossing s1 s2) 0 rest + countCrossings rest
  end.

Definition segmentCrossings (routes : list RoutedEdge) : Z :=
  countCrossings
    (concat (map (fun route => segmentsOf (routeId route) (points route)) routes)).

Fixpoint routeLength (points : list GridPoint) : Z :=
  match points with
  | a :: ((b :: _) as rest) =>
      Z.abs (x b - x a) + Z.abs (y b - y a) + routeLength rest
  | _ => 0
  end.

Fixpoint routeBends (points : list GridPoint) : Z :=
  match points with
  | p0 :: ((p1 :: p2 :: _) as rest) =>
      let d1x := x p1 - x p0 in
      let d1y := y p1 - y p0 in
      let d2x := x p2 - x p1 in
      let d2y := y p2 - y p1 in
      (if negb (d1x =? d2x) || negb (d1y =? d2y) then 1 else 0) + routeBends rest
  | _ => 0
  end.

Definition evaluateRouteCost (routes : list RoutedEdge) : RouteCost :=
  let length := foldl (fun acc route => acc + routeLength (points route)) 0 routes in
  let bends := foldl (fun acc route => acc + routeBends (points route)) 0 routes in
  let crossings := segmentCrossings routes in
  mkRouteCost length bends crossings (length + bends * 5 + crossings * 20).

Section WithLocale.

(** [String.prototype.localeCompare], a built-in whose collation the
    sources do not fix. *)
Variable localeCompare : string -> string -> Z.

(** The body of the loop over the sorted edges: the blocked set and the
    routes after one more edge. *)
Definition routeEdge (fuel : nat) (gridStep : Z)
  (acc : gset Key * list RoutedEdge) (edge : DraftRouterEdge)
  : option (gset Key * list RoutedEdge) :=
  let '(blocked, routes) := acc in
  let start := normalizeToCell (source edge) gridStep in
  let goal := normalizeToCell (target edge) gridStep in
  let blocked := blocked ∖ {[ cellKey start ]} in
  let blocked := blocked ∖ {[ cellKey goal ]} in
  rawPath ← findPath fuel start goal blocked;
  let simplified :=
    map (fun cell => denormalizeFromCell cell gridStep) (simplifyPath rawPath) in
  let routes := routes ++ [mkRouted (id edge) simplified] in
  let blocked :=
    foldl (fun blocked point =>
      if negb (bool_decide (cellKey point = cellKey start))
         && negb (bool_decide (cellKey point = cellKey goal))
      then blocked ∪ {[ cellKey point ]}
      else blocked) blocked rawPath in
  Some (blocked, routes).

Fixpoint routeEdges (fuel : nat) (gridStep : Z)
  (acc : gset Key * list RoutedEdge) (sorted : list DraftRouterEdge)
  : option (gset Key * list RoutedEdge) :=
  match sorted with
  | [] => Some acc
  | edge :: rest =>
      acc' ← routeEdge fuel gridStep acc edge;
      routeEdges fuel gridStep acc' rest
  end.

Definition routeDraft (fuel : nat) (input : DraftRouterInput)
  : option DraftRouterResult :=
  let gridStep := Z.max 1 (Qfloor (default (1 # 1) (gridStep input))) in
  let obstaclePadding := Z.max 0 (Qfloor (default (1 # 1) (obstaclePadding input))) in
  let blocked :=
    buildBlockedSet (default [] (obstacles input)) (default [] (blockedCells input))
      gridStep obstaclePadding in
  let sorted := jsSort (fun a b => localeCompare (id a) (id b)) (edges input) in
  '(_, routes) ← routeEdges fuel gridStep (blocked, []) sorted;
  Some (mkDraftResult routes (evaluateRouteCost routes)).

End WithLocale.

End Router.

(** *** elkRouter.ts *)

Module ElkRouter.

Import Router.

Record ElkNode := mkElkNode {
  node_id : string;
  node_x : Z;
  node_y : Z;
  node_width : Z;
  node_height : Z
}.

Record ElkEdge := mkElkEdge {
  edge_id : string;
  edge_source : string;
  edge_target : string
}.

Record ElkSection := mkElkSection {
  startPoint : option GridPoint;
  endPoint : option GridPoint;
  bendPoints : option (list GridPoint)
}.

Record ElkLayoutEdge := mkElkLayoutEdge {
  layout_edge_id : string;
  sections : option (list ElkSection)
}.

Record ElkGraph := mkElkGraph {
  graph_id : string;
  layoutOptions : option (list (string * string));
  children : list ElkNode;
  graph_edges : list ElkEdge
}.

Record ElkLayoutGraph := mkElkLayoutGraph {
  layout_id : string;
  layout_children : list ElkNode;
  layout_edges : list ElkLayoutEdge
}.

(** The external layout engine: an asynchronous callback in the source,
    awaited at once, here the function from the graph to its answer. *)
Record ElkRouterInput := mkElkInput {
  nodes : list ElkNode;
  edges : list ElkEdge;
  draftInput : option DraftRouterInput;
  elkLayout : option (ElkGraph -> ElkLayoutGraph)
}.

(** The constant tag [mode: "elk"] is the type itself. *)
Record ElkRouterResult := mkElkResult {
  routes : list RoutedEdge;
  cost : RouteCost;
  fallbackUsed : bool
}.

Definition toElkGraph (input : ElkRouterInput) : ElkGraph :=
  mkElkGraph "root"
    (Some [("org.eclipse.elk.algorithm", "layered");
           ("org.eclipse.elk.edgeRouting", "ORTHOGONAL");
           ("org.eclipse.elk.interactive", "true");
           ("org.eclipse.elk.interactiveLayout", "true");
           ("org.eclipse.elk.layered.considerModelOrder", "NODES_AND_EDGES")])
    (nodes input) (edges input).

Definition pointsFromSection (section : ElkSection) : list GridPoint :=
  let out := match startPoint section with Some p => [p] | None => [] end in
  let out := out ++ default [] (bendPoints section) in
  match endPoint section with Some p => out ++ [p] | None => out end.

Definition uniqueConsecutive (points : list GridPoint) : list GridPoint :=
  foldl (fun out point =>
    match last out with
    | None => out ++ [point]
    | Some l =>
        if negb (x l =? x point) || negb (y l =? y point) then out ++ [point]
        else out
    end) [] points.

Section WithLocale.

Variable localeCompare : string -> string -> Z.

Definition routeElk (fuel : nat) (input : ElkRouterInput) : option ElkRouterResult :=
  let fallbackInput :=
    match draftInput input with
    | Some d => d
    | None =>
        mkDraftInput
          (map (fun edge =>
             let sourceNode :=
               List.find (fun node => String.eqb (node_id node) (edge_source edge))
                 (nodes input) in
             let targetNode :=
               List.find (fun node => String.eqb (node_id node) (edge_target edge))
                 (nodes input) in
             mkEdge (edge_id edge)
               (match sourceNode with
                | Some n => mkPoint (node_x n) (node_y n)
                | None => mkPoint 0 0
                end)
               (match targetNode with
                | Some n => mkPoint (node_x n) (node_y n)
                | None => mkPoint 0 0
                end))
             (edges input))
          None None None None
    end in
  draftFallback ← routeDraft localeCompare fuel fallbackInput;
  match elkLayout input with
  | None =>
      Some (mkElkResult (Router.routes draftFallback) (Router.cost draftFallback) true)
  | Some layoutFn =>
      let layout := layoutFn (toElkGraph input) in
      let routes :=
        map (fun edge =>
          let allPoints :=
            concat (map pointsFromSection (default [] (sections edge))) in
          mkRouted (layout_edge_id edge) (uniqueConsecutive allPoints))
          (layout_edges layout) in
      let normalized :=
        map (fun route =>
          if 2 <=? Z.of_nat (length (points route)) then route
          else
            default route
              (List.find (fun fallback => String.eqb (routeId fallback) (routeId route))
                 (Router.routes draftFallback)))
          routes in
      Some (mkElkResult normalized (evaluateRouteCost normalized) false)
  end.

End WithLocale.

End ElkRouter.

(** *** routerFacade.ts *)

Module Facade.

Import Router.

Inductive RouterMode := Draft | Elk | Hybrid.

(** [Omit<ElkRouterInput, "draftInput">]. *)
Record ElkStepInput := mkElkStep {
  step_nodes : list ElkRouter.ElkNode;
  step_edges : list ElkRouter.ElkEdge;
  step_elkLayout : option (ElkRouter.ElkGraph -> ElkRouter.ElkLayoutGraph)
}.

Record RouterStep := mkStep {
  step_draft : DraftRouterInput;
  step_elk : option ElkStepInput;
  step_accepted : option bool;
  step_label : option string
}.

Record RouterFacadeInput := mkFacadeInput {
  mode : RouterMode;
  step : RouterStep;
  stepsForHybrid : option (list RouterStep);
  hybridRescoreEveryAccepted : option Q;
  score : option (RouteCost -> Q)
}.

Record RouteDebugTrace := mkTrace {
  stepIndex : Z;
  label : option string;
  trace_mode : RouterMode;
  accepted : bool;
  draftCost : RouteCost;
  elkCost : option RouteCost;
  selectedCost : RouteCost;
  selectedScore : Q
}.

(** [DraftRouterResult | ElkRouterResult]. *)
Inductive Selected :=
| SelectedDraft (result : DraftRouterResult)
| SelectedElk (result : ElkRouter.ElkRouterResult).

Record RouterFacadeResult := mkFacadeResult {
  selected : Selected;
  trace : list RouteDebugTrace
}.

Definition toSelectedCost (cost : RouteCost) : RouteCost :=
  mkRouteCost (length_ cost) (bends cost) (crossings cost) (total cost).

Definition scoreCost (cost : RouteCost) (score : option (RouteCost -> Q)) : Q :=
  match score with
  | Some fn => fn cost
  | None => inject_Z (total cost)
  end.

Definition withDraftInput (e : ElkStepInput) (d : DraftRouterInput)
  : ElkRouter.ElkRouterInput :=
  ElkRouter.mkElkInput (step_nodes e) (step_edges e) (Some d) (step_elkLayout e).

Section WithLocale.

Variable localeCompare : string -> string -> Z.

(** The loop variables of [runHybrid] that outlive an iteration. *)
Record HybridState := mkHybrid {
  acceptedSinceElk : Z;
  hybridSelected : Selected;
  hybridTrace : list RouteDebugTrace
}.

(** One iteration of the [for] loop of [runHybrid], [count] being
    [steps.length]. *)
Definition hybridStep (fuel : nat) (input : RouterFacadeInput) (every : Z)
  (count : Z) (st : HybridState) (i : Z) (step : RouterStep)
  : option HybridState :=
  let accepted := default false (step_accepted step) in
  draft ← routeDraft localeCompare fuel (step_draft step);
  let acceptedSinceElk :=
    if accepted then acceptedSinceElk st + 1 else acceptedSinceElk st in
  let shouldRescoreWithElk :=
    bool_decide (is_Some (step_elk step))
    && ((every <=? acceptedSinceElk) || (i =? count - 1)) in
  '(elk, acceptedSinceElk) ←
    match shouldRescoreWithElk, step_elk step with
    | true, Some e =>
        r ← ElkRouter.routeElk localeCompare fuel (withDraftInput e (step_draft step));
        Some (Some r, 0)
    | _, _ => Some (None, acceptedSinceElk)
    end;
  let selectedCost :=
    match elk with
    | Some r => ElkRouter.cost r
    | None => cost draft
    end in
  let selectedScore := scoreCost selectedCost (score input) in
  let entry :=
    mkTrace i (step_label step) Hybrid accepted
      (toSelectedCost (cost draft))
      (option_map (fun r => toSelectedCost (ElkRouter.cost r)) elk)
      (toSelectedCost selectedCost)
      selectedScore in
  Some (mkHybrid acceptedSinceElk
          (match elk with
           | Some r => SelectedElk r
           | None => SelectedDraft draft
           end)
          (hybridTrace st ++ [entry])).

Fixpoint hybridLoop (fuel : nat) (input : RouterFacadeInput) (every : Z)
  (count : Z) (st : HybridState) (i : Z) (steps : list RouterStep)
  : option HybridState :=
  match steps with
  | [] => Some st
  | step :: rest =>
      st' ← hybridStep fuel input every count st i step;
      hybridLoop fuel input every count st' (i + 1) rest
  end.

(** [None] also stands for the [TypeError] of [steps[0].draft] on an empty
    [stepsForHybrid]. *)
Definition runHybrid (fuel : nat) (input : RouterFacadeInput)
  : option RouterFacadeResult :=
  let steps := default [step input] (stepsForHybrid input) in
  let every :=
    Z.max 1 (Qfloor (default (10 # 1) (hybridRescoreEveryAccepted input))) in
  first ← head steps;
  selected ← routeDraft localeCompare fuel (step_draft first);
  final ← hybridLoop fuel input every (Z.of_nat (length steps))
             (mkHybrid 0 (SelectedDraft selected) []) 0 steps;
  Some (mkFacadeResult (hybridSelected final) (hybridTrace final)).

Definition routeWithFacade (fuel : nat) (input : RouterFacadeInput)
  : option RouterFacadeResult :=
  match mode input with
  | Draft =>
      draftResult ← routeDraft localeCompare fuel (step_draft (step input));
      Some (mkFacadeResult (SelectedDraft draftResult)
              [mkTrace 0 (step_label (step input)) Draft
                 (default false (step_accepted (step input)))
                 (toSelectedCost (cost draftResult))
                 None
                 (toSelectedCost (cost draftResult))
                 (scoreCost (cost draftResult) (score input))])
  | Elk =>
      let e := default (mkElkStep [] [] None) (step_elk (step input)) in
      elkResult ←
        ElkRouter.routeElk localeCompare fuel (withDraftInput e (step_draft (step input)));
      draftResult ← routeDraft localeCompare fuel (step_draft (step input));
      Some (mkFacadeResult (SelectedElk elkResult)
              [mkTrace 0 (step_label (step input)) Elk
                 (default false (step_accepted (step input)))
                 (toSelectedCost (cost draftResult))
                 (Some (toSelectedCost (ElkRouter.cost elkResult)))
                 (toSelectedCost (ElkRouter.cost elkResult))
                 (scoreCost (ElkRouter.cost elkResult) (score input))])
  | Hybrid => runHybrid fuel input
  end.

End WithLocale.

End Facade.

(** *** history.ts *)

Module History.

(** [HistoryPoint extends CostBreakdown]: the ten cost fields are kept
    together in [cost]. *)
Record HistoryPoint := mkHistoryPoint {
  iter : Z;
  temp : Q;
  accepted : bool;
  moveType : string;
  cost : Cost.CostBreakdown
}.

Record AcceptancePoint := mkAcceptancePoint {
  ap_iter : Z;
  acceptanceRatio : Q;
  windowSize : Z
}.

Record HistoryAppendInput := mkHistoryAppendInput {
  in_iter : Z;
  in_temp : Q;
  in_accepted : bool;
  in_moveType : string;
  in_cost : Cost.CostBreakdown
}.

Definition appendHistoryPoint (history : list HistoryPoint) (input : HistoryAppendInput)
  : list HistoryPoint :=
  history ++
  [mkHistoryPoint (in_iter input) (in_temp input) (in_accepted input)
     (in_moveType input) (in_cost input)].

(** [Array.prototype.slice(start, end)] for indices that are not
    negative. *)
Definition slice {A : Type} (l : list A) (start end_ : Z) : list A :=
  take (Z.to_nat (end_ - start)) (drop (Z.to_nat start) l).

Definition rollingAcceptanceRatio (history : list HistoryPoint) (windowSize : option Q)
  : list AcceptancePoint :=
  let safeWindow := Z.max 1 (Qfloor (default (50 # 1) windowSize)) in
  imap (fun (i : nat) (point : HistoryPoint) =>
    let start := Z.max 0 (Z.of_nat i - safeWindow + 1) in
    let window := slice history start (Z.of_nat i + 1) in
    let accepted :=
      foldl (fun acc p => acc + (if accepted p then 1 else 0)) 0 window in
    mkAcceptancePoint (iter point)
      (if Z.of_nat (length window) =? 0 then 0%Q
       else (inject_Z accepted / inject_Z (Z.of_nat (length window)))%Q)
      (Z.of_nat (length window))) history.

End History.

(** *** ir.ts *)

Module IR.

Inductive ParameterValue :=
| ParamString (s : string)
| ParamNumber (n : Q)
| ParamBoolean (b : bool)
| ParamNull.

Record DistributionMetadata := mkDistribution {
  family : option string;
  parameters : option (list (string * ParameterValue));
  notes : option string
}.

Record NodeTemplate := mkNodeTemplate {
  template_id : string;
  template_type : string;
  dims : list string;
  symbol : option string;
  distribution : option DistributionMetadata
}.

Record PlateHierarchy := mkPlateHierarchy {
  key : string;
  plate_dims : list string;
  path : list string
}.

(** [[...new Set(values)]]: the distinct values in the order of their
    first occurrence. *)
Definition newSet (values : list string) : list string :=
  foldl (fun out v => if bool_decide (v ∈ out) then out else out ++ [v]) [] values.

(** [Array.prototype.join]. *)
Definition join (sep : string) (parts : list string) : string :=
  String.concat sep parts.

Section WithLocale.

Variable localeCompare : string -> string -> Z.

Definition normalizeDims (dims : list string) : list string :=
  jsSort localeCompare (newSet dims).

Definition plateKeyForDims (dims : list string) : string :=
  join "|" (normalizeDims dims).

(** [byKey] is the [Map] in insertion order. *)
Definition inferPlateHierarchies (templates : list NodeTemplate)
  : list PlateHierarchy :=
  let byKey :=
    foldl (fun (byKey : list (string * list string)) template =>
      let dims := normalizeDims (dims template) in
      let key := join "|" dims in
      if bool_decide (key ∈ map fst byKey) then byKey
      else byKey ++ [(key, dims)]) [] templates in
  map (fun entry => mkPlateHierarchy (fst entry) (snd entry) (snd entry))
    (jsSort (fun a b => localeCompare (fst a) (fst b)) byKey).

End WithLocale.

End IR.

(** ** Part II: vocabulary of the properties and sample inputs *)

(** *** Annealing engine *)

Section EngineVocabulary.

Import Engine.

Variable exp : Q -> Q.

(** The sessions a caller can reach: the one [initializeAnneal] builds and
    those that [stepAnneal] leaves behind. *)
Inductive reachable (problem : AnnealProblem) (seed0 : Z) : AnnealState -> Prop :=
| reach_init : reachable problem seed0 (initializeAnneal problem seed0)
| reach_step (fuel : nat) (st : AnnealState) (t : AnnealTransition)
    (st' : AnnealState) :
    reachable problem seed0 st ->
    stepAnneal exp fuel st = Some (t, st') ->
    reachable problem seed0 st'.

End EngineVocabulary.

Section EngineSamples.

Import Engine.

(** [chain R x l]: [R] relates [x] to the head of [l] and every element
    of [l] to the next one. *)
Fixpoint chain (R : Q -> Q -> Prop) (x : Q) (l : list Q) : Prop :=
  match l with
  | [] => True
  | y :: l' => R x y /\ chain R y l'
  end.

Definition coolingRateOf (p : AnnealProblem) : Q :=
  default DEFAULT_COOLING_RATE (coolingRate p).

Definition minTemperatureOf (p : AnnealProblem) : Q :=
  default DEFAULT_MIN_TEMPERATURE (minTemperature p).

Definition temperaturesAfter (ts : list AnnealTransition) : list Q :=
  map (fun t => temperature (after t)) ts.

(** The ring holds the last [size] transitions of the history [hist], the
    transition number [k] in slot [k mod capacity]. *)
Definition ring_inv (ring : TransitionRingBuffer) (hist : list AnnealTransition)
  : Prop :=
  let n := Z.of_nat (length hist) in
  1 <= capacity ring /\
  Z.of_nat (length (entries ring)) = capacity ring /\
  head ring = n mod capacity ring /\
  size ring = Z.min n (capacity ring) /\
  forall (k : nat) (t : AnnealTransition),
    n - size ring <= Z.of_nat k -> hist !! k = Some t ->
    entries ring !! Z.to_nat (Z.of_nat k mod capacity ring) = Some (Some t).

(** [i] is an index of [l], or [l] is empty and [i] is 0. *)
Definition inRange (l : list Z) (i : Z) : Prop :=
  0 <= i /\ (i < Z.of_nat (length l) \/ (length l = 0%nat /\ i = 0)).

(** The indices of a move lie in the layout it was proposed for. *)
Definition moveInRange (l : list Z) (m : AnnealMove) : Prop :=
  match m with
  | nudge index _ _ => inRange l index
  | swap a b _ => inRange l a /\ inRange l b
  | reinsert from _ _ => inRange l from
  | blockShift _ _ _ _ => True
  end.

(** A stand-in for [Math.exp] on the non-positive arguments the engine
    passes: equal to 1 at 0 and decreasing towards 0. *)
Definition sampleExp (x : Q) : Q := (1 / (1 - x))%Q.

Definition sampleCost (l : list Z) : CostBreakdown :=
  mkCost (inject_Z (foldr Z.add 0 (map Z.abs l))) ∅.

(** Layout [4, 2, 7, 1], a ring of three transitions, every move kind. *)
Definition sampleProblem : AnnealProblem :=
  mkProblem [4; 2; 7; 1] sampleCost None None None None (Some 3) (Some true)
    (Some true).

(** The same problem started at temperature 0. *)
Definition coldProblem : AnnealProblem :=
  mkProblem [4; 2; 7; 1] sampleCost None (Some (0 # 1)) None None None None None.

(** The same problem with [coolingRate = 2]. *)
Definition heatingProblem : AnnealProblem :=
  mkProblem [4; 2; 7; 1] sampleCost None None (Some (2 # 1)) None None None None.

(** The same problem with [coolingRate = -1] and [minTemperature = -100]. *)
Definition alternatingProblem : AnnealProblem :=
  mkProblem [4; 2; 7; 1] sampleCost None None (Some (-1 # 1)) (Some (-100 # 1))
    None None None.

End EngineSamples.

(** *** Cost model *)

Section CostSamples.

Import Cost.

Local Open Scope float_scope.

(** Measurements with a NaN among the positions and with an infinite
    span. *)
Definition nanPositions : LayoutCostInput :=
  mkLayoutCostInput (Some [nan]) None None.

Definition infiniteSpan : LayoutCostInput :=
  mkLayoutCostInput None (Some [1; infinity]) None.

Definition noRouting : RoutingCostInput :=
  mkRoutingCostInput None None None None None.

End CostSamples.

(** *** Grid router and facade *)

(** "[a] does not sort after [b]". *)
Definition notAfter {A : Type} (cmp : A -> A -> Z) (a b : A) : Prop := cmp a b <= 0.

Section RouterSamples.

Import Router Facade.

Definition withEdges (input : DraftRouterInput) (es : list DraftRouterEdge)
  : DraftRouterInput :=
  mkDraftInput es (obstacles input) (blockedCells input) (gridStep input)
    (obstaclePadding input).

(** Identifiers compared byte by byte: one total order that
    [localeCompare] can stand for. *)
Definition codeUnitCompare (a b : string) : Z :=
  match String.compare a b with
  | Lt => -1
  | Eq => 0
  | Gt => 1
  end.

(** Edge "b" from (0,0) to (4,0) listed before edge "a" from (2,-2) to
    (2,2). *)
Definition crossingEdges : DraftRouterInput :=
  mkDraftInput
    [mkEdge "b" (mkPoint 0 0) (mkPoint 4 0); mkEdge "a" (mkPoint 2 (-2)) (mkPoint 2 2)]
    None None None None.

(** Whether each step of a hybrid run calls the precise router, from the
    acceptance flags alone, when every step carries a precise router:
    [c] is the counter before the step, [i] its index. *)
Fixpoint schedule (every count c i : Z) (flags : list bool) : list bool :=
  match flags with
  | [] => []
  | a :: rest =>
      let c1 := if a then c + 1 else c in
      let fire := (every <=? c1) || (i =? count - 1) in
      fire :: schedule every count (if fire then 0 else c1) (i + 1) rest
  end.

(** The position of the [n]-th accepted step ([n] counted from 1), from
    position [i] on. *)
Fixpoint nthAccepted (n : nat) (i : nat) (flags : list bool) : nat :=
  match flags with
  | [] => i
  | a :: rest =>
      if a then
        match n with
        | 1%nat => i
        | _ => nthAccepted (pred n) (S i) rest
        end
      else nthAccepted n (S i) rest
  end.

Definition acceptedFlags (steps : list RouterStep) : list bool :=
  map (fun s => default false (step_accepted s)) steps.

Definition elkInvoked (e : RouteDebugTrace) : bool :=
  bool_decide (is_Some (elkCost e)).

Fixpoint allFlags (n : nat) : list (list bool) :=
  match n with
  | O => [[]]
  | S n' => map (cons true) (allFlags n') ++ map (cons false) (allFlags n')
  end.

Definition countTrue (flags : list bool) : nat := length (filter (fun b => b = true) flags).

(** With cadence 10, 12 steps and 10 acceptances the precise router runs
    at the 10th acceptance and at the last step, nowhere else: twice when
    the 10th acceptance comes before the last step, once when it is the
    last step. *)
Definition scenarioHolds (flags : list bool) : bool :=
  if bool_decide (countTrue flags = 10%nat) then
    bool_decide (schedule 10 12 0 0 flags
                 = map (fun i => bool_decide (i = nthAccepted 10 0 flags \/ i = 11%nat))
                     (seq 0 12))
    && bool_decide (countTrue (schedule 10 12 0 0 flags)
                    = if bool_decide (nthAccepted 10 0 flags = 11%nat)
                      then 1%nat else 2%nat)
  else true.

(** A precise router that returns no geometry. *)
Definition emptyLayout (g : ElkRouter.ElkGraph) : ElkRouter.ElkLayoutGraph :=
  ElkRouter.mkElkLayoutGraph "root" [] [].

Definition hybridStepOf (a : bool) : RouterStep :=
  mkStep
    (mkDraftInput [mkEdge "e" (mkPoint 0 0) (mkPoint 2 1)] None None None None)
    (Some (mkElkStep [] [] (Some emptyLayout)))
    (Some a) None.

(** Twelve steps on one edge, each with a precise router, cadence 10;
    steps 3 and 11 (counted from 0) are not accepted, the 10th acceptance
    is step 10. *)
Definition twelveSteps : RouterFacadeInput :=
  mkFacadeInput Hybrid (hybridStepOf true)
    (Some (map hybridStepOf
       [true; true; true; false; true; true; true; true; true; true; true; false]))
    (Some (10 # 1)) None.

(** The same with steps 3 and 7 not accepted: the 10th acceptance is the
    last step. *)
Definition twelveStepsLastAccepted : RouterFacadeInput :=
  mkFacadeInput Hybrid (hybridStepOf true)
    (Some (map hybridStepOf
       [true; true; true; false; true; true; true; false; true; true; true; true]))
    (Some (10 # 1)) None.

End RouterSamples.

Section CollationAndCrossings.

Import Router.

(** The control character U+0001, which the default collation of
    [localeCompare] ignores. *)
Definition U0001 : Ascii.ascii := Ascii.ascii_of_nat 1.

Fixpoint dropIgnorable (s : string) : string :=
  match s with
  | EmptyString => EmptyString
  | String c rest =>
      if Ascii.eqb c U0001 then dropIgnorable rest else String c (dropIgnorable rest)
  end.

(** A collation with ignorable characters: identifiers are compared byte
    by byte once U+0001 is dropped, so "a" and "a" followed by U+0001
    compare as equal. *)
Definition ignorableCompare (a b : string) : Z :=
  codeUnitCompare (dropIgnorable a) (dropIgnorable b).

(** The two edges of [crossingEdges] under identifiers that differ and
    compare as equal. *)
Definition tiedEdges : DraftRouterInput :=
  mkDraftInput
    [mkEdge "a" (mkPoint 0 0) (mkPoint 4 0);
     mkEdge (String.append "a" (String U0001 EmptyString)) (mkPoint 2 (-2)) (mkPoint 2 2)]
    None None None None.










End CollationAndCrossings.

(** *** Further vocabulary: annealing engine *)

Section EngineVocabularyExtra.

Import Engine.

(** The snapshots of consecutive transitions fit together: each [before]
    is the snapshot [s] the step started from, which is the [after] of the
    transition that precedes it. *)
Fixpoint chained (s : AnnealStateSnapshot) (ts : list AnnealTransition) : Prop :=
  match ts with
  | [] => True
  | t :: rest => before t = s /\ chained (after t) rest
  end.

(** The snapshot after the last of [ts], [s] when there is none. *)
Definition lastSnapshot (s : AnnealStateSnapshot) (ts : list AnnealTransition)
  : AnnealStateSnapshot :=
  foldl (fun _ t => after t) s ts.

(** The shape of the moves [proposeMove] builds for the layout [l] and the
    problem [p]. *)
Definition wellFormedProposal (p : AnnealProblem) (l : list Z) (m : AnnealMove)
  : Prop :=
  match m with
  | nudge index delta _ =>
      inRange l index /\ 1 <= Z.abs delta /\
      (inject_Z (Z.abs delta - 1) < Qmax (1 # 1) (default (1 # 1) (maxNudgeStep p)))%Q
  | swap a b _ =>
      inRange l a /\ inRange l b /\ ((1 < length l)%nat -> a <> b)
  | reinsert from to _ => inRange l from /\ inRange l to
  | blockShift start end_ shift _ =>
      inRange l start /\ inRange l end_ /\ start <= end_ /\ -1 <= shift <= 1 /\
      enableBlockShift p = Some true
  end.

End EngineVocabularyExtra.

(** *** Further vocabulary: grid router *)

Section RouterVocabularyExtra.

Import Router.

(** A point moved onto the grid, as [routeDraft] does with the two ends of
    an edge. *)
Definition snap (point : GridPoint) (step : Z) : GridPoint :=
  denormalizeFromCell (normalizeToCell point step) step.

(** The cell range the loop of [buildBlockedSet] covers for one obstacle. *)
Definition inPaddedBox (obstacle : GridRect) (step pad : Z) (k : Key) : Prop :=
  Qfloor (inject_Z (rect_x obstacle) / inject_Z step) - pad <= fst k
  <= Qceiling (inject_Z (rect_x obstacle + width obstacle) / inject_Z step) + pad /\
  Qfloor (inject_Z (rect_y obstacle) / inject_Z step) - pad <= snd k
  <= Qceiling (inject_Z (rect_y obstacle + height obstacle) / inject_Z step) + pad.

(** Every cell of the path is a 4-neighbour of the one before. *)
Fixpoint stepwise (path : list Cell) : Prop :=
  match path with
  | a :: ((b :: _) as rest) => manhattan a b = 1 /\ stepwise rest
  | _ => True
  end.

(** No two neighbouring entries of the path are the same. *)
Fixpoint noRepeat {A : Type} (path : list A) : Prop :=
  match path with
  | a :: ((b :: _) as rest) => a <> b /\ noRepeat rest
  | _ => True
  end.

(** What the second loop of [simplifyPath] keeps of [rest] once [a] is the
    last point pushed. *)
Fixpoint dedupeFrom (a : Cell) (rest : list Cell) : list Cell :=
  match rest with
  | [] => []
  | p :: rest' =>
      if bool_decide (cellKey a = cellKey p) then dedupeFrom a rest'
      else p :: dedupeFrom p rest'
  end.

(** The length of the route through the grid points of the cells, and the
    part of it between two cells. *)
Definition pathLength (step : Z) (cells : list Cell) : Z :=
  routeLength (map (fun cell => denormalizeFromCell cell step) cells).

Definition cellDistance (step : Z) (a b : Cell) : Z :=
  Z.abs (cell_x b * step - cell_x a * step) + Z.abs (cell_y b * step - cell_y a * step).

(** The cells [reconstructPath] collects from [cursor] on: each is the
    [cameFrom] entry of the one before, and the last has none. *)
Fixpoint linked (cameFrom : gmap Key Key) (cursor : Key) (chain : list Cell) : Prop :=
  match chain with
  | [] => cameFrom !! cursor = None
  | c :: rest => cameFrom !! cursor = Some (cellKey c) /\ linked cameFrom (cellKey c) rest
  end.

Definition adjacentKeys (k k' : Key) : Prop :=
  Z.abs (fst k - fst k') + Z.abs (snd k - snd k') = 1.

(** What the maps of [findPath] keep between iterations of its loop. *)
Definition searchInv (start goal : Cell) (blocked : gset Key) (st : SearchState) : Prop :=
  g st !! cellKey start = Some 0 /\
  cameFrom st !! cellKey start = None /\
  (forall k k', cameFrom st !! k = Some k' ->
     is_Some (g st !! k') /\ adjacentKeys k k' /\ (k ∈ blocked -> k = cellKey goal)) /\
  (forall k n, g st !! k = Some n ->
     0 <= n /\ (k = cellKey start \/ is_Some (cameFrom st !! k))) /\
  (forall c, c ∈ open st -> is_Some (g st !! cellKey c)).

(** A path as [findPath] promises it: from [start] to [goal], over cells
    that are not blocked, the two ends apart. *)
Definition validPath (start goal : Cell) (blocked : gset Key) (path : list Cell) : Prop :=
  head path = Some start /\
  last path = Some goal /\
  (forall c, c ∈ path -> cellKey c ∈ blocked -> c = start \/ c = goal).

(** The cells of the two ends of the edges, which [routeDraft] unblocks. *)
Definition endKeys (step : Z) (edges : list DraftRouterEdge) : list Key :=
  flat_map (fun edge =>
    [cellKey (normalizeToCell (source edge) step);
     cellKey (normalizeToCell (target edge) step)]) edges.

(** The grid step and the padding [routeDraft] works with, and the blocked
    set it starts from. *)
Definition stepOf (input : DraftRouterInput) : Z :=
  Z.max 1 (Qfloor (default (1 # 1) (gridStep input))).

Definition paddingOf (input : DraftRouterInput) : Z :=
  Z.max 0 (Qfloor (default (1 # 1) (obstaclePadding input))).

Definition blockedAtStart (input : DraftRouterInput) : gset Key :=
  buildBlockedSet (default [] (obstacles input)) (default [] (blockedCells input))
    (stepOf input) (paddingOf input).

End RouterVocabularyExtra.

(** *** Samples for the grid router *)

Section RouterSamplesExtra.

Import Router.

(** One edge along the x axis; a one-cell obstacle on its source and one
    in its way, no padding. *)
Definition obstacleInput : DraftRouterInput :=
  mkDraftInput [mkEdge "e" (mkPoint 0 0) (mkPoint 4 0)]
    (Some [mkRect 0 0 0 0; mkRect 2 0 0 0]) None None (Some (0 # 1)).

(** The four neighbours of (0,0) and of (5,5). *)
Definition twoWalls : gset Key :=
  {[ (1, 0); (0, 1); (0, -1); (-1, 0); (6, 5); (5, 6); (5, 4); (4, 5) ]}.

End RouterSamplesExtra.

(** *** Further vocabulary: precise router and facade *)

Section FacadeVocabularyExtra.

Import Router ElkRouter Facade.

(** What the loop of [uniqueConsecutive] keeps of [rest] once [a] is the
    last point pushed. *)
Fixpoint uniqueFrom (a : GridPoint) (rest : list GridPoint) : list GridPoint :=
  match rest with
  | [] => []
  | p :: rest' =>
      if negb (x a =? x p) || negb (y a =? y p) then p :: uniqueFrom p rest'
      else uniqueFrom a rest'
  end.

(** The points the precise router's answer holds for one edge. *)
Definition elkPoints (edge : ElkLayoutEdge) : list GridPoint :=
  uniqueConsecutive (concat (map pointsFromSection (default [] (sections edge)))).

(** The input [routeElk] gives the draft router: the one it was handed or,
    without one, an edge per graph edge between the positions of its two
    nodes, a missing node standing at the origin. *)
Definition draftInputOf (input : ElkRouterInput) : DraftRouterInput :=
  match draftInput input with
  | Some d => d
  | None =>
      mkDraftInput
        (map (fun edge =>
           let sourceNode :=
             List.find (fun node => String.eqb (node_id node) (edge_source edge))
               (nodes input) in
           let targetNode :=
             List.find (fun node => String.eqb (node_id node) (edge_target edge))
               (nodes input) in
           mkEdge (edge_id edge)
             (match sourceNode with
              | Some n => mkPoint (node_x n) (node_y n)
              | None => mkPoint 0 0
              end)
             (match targetNode with
              | Some n => mkPoint (node_x n) (node_y n)
              | None => mkPoint 0 0
              end))
           (ElkRouter.edges input))
        None None None None
  end.

(** A layout answer with three edges: "e" with one point given twice, "x"
    without sections, "f" with a repeated start point and a bend. *)
Definition sampleLayout (g : ElkGraph) : ElkLayoutGraph :=
  mkElkLayoutGraph "root" []
    [mkElkLayoutEdge "e"
       (Some [mkElkSection (Some (mkPoint 0 0)) (Some (mkPoint 0 0)) None]);
     mkElkLayoutEdge "x" None;
     mkElkLayoutEdge "f"
       (Some [mkElkSection (Some (mkPoint 0 0)) (Some (mkPoint 3 4))
                (Some [mkPoint 0 0; mkPoint 3 0])])].

Definition sampleElkInput : ElkRouterInput :=
  mkElkInput [] []
    (Some (mkDraftInput [mkEdge "e" (mkPoint 0 0) (mkPoint 2 1)] None None None None))
    (Some sampleLayout).

Definition withMode (m : RouterMode) (input : RouterFacadeInput) : RouterFacadeInput :=
  mkFacadeInput m (step input) (stepsForHybrid input)
    (hybridRescoreEveryAccepted input) (score input).

(** A trace entry and a result with the mode tag replaced. *)
Definition retag (m : RouterMode) (e : RouteDebugTrace) : RouteDebugTrace :=
  mkTrace (stepIndex e) (label e) m (accepted e) (draftCost e) (elkCost e)
    (selectedCost e) (selectedScore e).

Definition retagResult (m : RouterMode) (res : RouterFacadeResult)
  : RouterFacadeResult :=
  mkFacadeResult (selected res) (map (retag m) (trace res)).

(** One accepted step with a precise router and no list of steps. *)
Definition singleStep : RouterFacadeInput :=
  mkFacadeInput Draft (hybridStepOf true) None None None.

End FacadeVocabularyExtra.

(** *** Further vocabulary: cost model *)

Section CostVocabularyExtra.

Import Cost.

Local Open Scope float_scope.

(** The inputs with every scalar measurement written out as the number
    [computeCost] reads it as. *)
Definition sanitizedLayout (layout : LayoutCostInput) : LayoutCostInput :=
  mkLayoutCostInput (positions layout) (layoutSpans layout)
    (Some (finiteOrZero (waste layout))).

Definition sanitizedRouting (routing : RoutingCostInput) : RoutingCostInput :=
  mkRoutingCostInput
    (Some (finiteOrZero (crossings routing)))
    (Some (finiteOrZero (bends routing)))
    (Some (finiteOrZero (flowOutViolations routing)))
    (Some (finiteOrZero (flowDownViolations routing)))
    (routingSpans routing).

Definition withRoutingSpans (routing : RoutingCostInput) (spans : option (list float))
  : RoutingCostInput :=
  mkRoutingCostInput (crossings routing) (bends routing) (flowOutViolations routing)
    (flowDownViolations routing) spans.

Definition unitWeights : Weights :=
  mkWeights (Some 1) (Some 1) (Some 1) (Some 1) (Some 1) (Some 1) (Some 1) (Some 1)
    (Some 1).

End CostVocabularyExtra.

(** *** Further vocabulary: history and plates *)

Section HistoryVocabularyExtra.

Import History IR.

(** The [n] points of the history that end with the point at index [i]. *)
Definition windowAt (history : list HistoryPoint) (i n : nat) : list HistoryPoint :=
  take n (drop (i + 1 - n) history).

(** How many points of the window were accepted. *)
Definition acceptedIn (window : list HistoryPoint) : Z :=
  Z.of_nat (length (filter (fun p => accepted p = true) window)).

(** Three templates; the first two have the same dimensions, listed
    differently. *)
Definition sampleTemplates : list NodeTemplate :=
  [mkNodeTemplate "y" "observed" ["n"; "k"] None None;
   mkNodeTemplate "mu" "latent" ["k"; "n"; "k"] None None;
   mkNodeTemplate "tau" "latent" [] None None].

End HistoryVocabularyExtra.
(** ** Part III: properties *)

(** *** The random number generator *)

Section RngFacts.

Import Engine.

Lemma toInt32_range (z : Z) : - 2 ^ 31 <= toInt32 z < 2 ^ 31.
Proof.
  unfold toInt32.
  pose proof (Z.mod_pos_bound (z + 2 ^ 31) (2 ^ 32) eq_refl). lia.
Qed.

Lemma toInt32_small (z : Z) : - 2 ^ 31 <= z < 2 ^ 31 -> toInt32 z = z.
Proof.
  intros Hz. unfold toInt32.
  rewrite Z.mod_small by lia. lia.
Qed.

Lemma sanitizeSeed_nonzero (z : Z) : sanitizeSeed z <> 0.
Proof.
  unfold sanitizeSeed.
  destruct (Z.eqb_spec (toInt32 z) 0) as [_ | Hne]; [discriminate | exact Hne].
Qed.

Lemma sanitizeSeed_zero (z : Z) : toInt32 z = 0 -> sanitizeSeed z = 0x6d2b79f5.
Proof. intros Hz. unfold sanitizeSeed. now rewrite Hz. Qed.

Lemma sanitizeSeed_range (z : Z) : - 2 ^ 31 <= sanitizeSeed z < 2 ^ 31.
Proof.
  unfold sanitizeSeed. destruct (Z.eqb_spec (toInt32 z) 0); [lia |].
  apply toInt32_range.
Qed.

Lemma nextRng_nonzero (r : AnnealRngState) : seed (snd (nextRng r)) <> 0.
Proof. apply sanitizeSeed_nonzero. Qed.

Lemma uint32_fraction_unit (s : Z) :
  (0 <= Qmake (toUint32 s) 4294967296 /\ Qmake (toUint32 s) 4294967296 < 1)%Q.
Proof.
  unfold toUint32.
  pose proof (Z.mod_pos_bound s (2 ^ 32) eq_refl) as Hb.
  split; unfold Qle, Qlt; simpl; lia.
Qed.

(** The uniform draw lies in the unit interval, 1 excluded. *)
Lemma nextRng_unit_interval (r : AnnealRngState) :
  (0 <= fst (nextRng r) /\ fst (nextRng r) < 1)%Q.
Proof. unfold nextRng; cbn [fst]. apply uint32_fraction_unit. Qed.

Lemma randInt_nonzero (m : Q) (r : AnnealRngState) :
  seed r <> 0 -> seed (snd (randInt m r)) <> 0.
Proof.
  intros Hr. unfold randInt. destruct (Qle_bool m 0); [exact Hr |].
  destruct (nextRng r) as [u r'] eqn:E. simpl.
  change r' with (snd (u, r')). rewrite <- E. apply nextRng_nonzero.
Qed.

Lemma randInt_draws (m : Q) (r : AnnealRngState) :
  Qle_bool m 0 = false -> seed (snd (randInt m r)) <> 0.
Proof.
  intros Hm. unfold randInt. rewrite Hm.
  destruct (nextRng r) as [u r'] eqn:E. simpl.
  change r' with (snd (u, r')). rewrite <- E. apply nextRng_nonzero.
Qed.

Lemma resample_nonzero (fuel : nat) (len : Q) (a b : Z) (r : AnnealRngState)
  (b' : Z) (r' : AnnealRngState) :
  resample fuel len a b r = Some (b', r') -> seed r <> 0 -> seed r' <> 0.
Proof.
  revert b r. induction fuel as [| fuel IH]; intros b r; simpl.
  - destruct (b =? a); [discriminate |]. intros [= _ <-]. auto.
  - destruct (b =? a).
    + destruct (randInt len r) as [b1 r1] eqn:E. intros H Hr.
      apply (IH _ _ H). change r1 with (snd (b1, r1)). rewrite <- E.
      now apply randInt_nonzero.
    + intros [= _ <-]. auto.
Qed.

(** More fuel never changes an answer of the resampling loop. *)
Lemma resample_mono (fuel fuel' : nat) (len : Q) (a b : Z) (r : AnnealRngState)
  (res : Z * AnnealRngState) :
  resample fuel len a b r = Some res -> (fuel <= fuel')%nat ->
  resample fuel' len a b r = Some res.
Proof.
  revert fuel' b r. induction fuel as [| fuel IH]; intros fuel' b r; simpl.
  - destruct (b =? a) eqn:E; [discriminate |].
    intros H _. destruct fuel'; simpl; now rewrite E.
  - destruct (b =? a) eqn:E.
    + destruct fuel' as [| fuel']; [lia |]. simpl. rewrite E.
      destruct (randInt len r) as [b1 r1]. intros H Hle. apply IH; [exact H | lia].
    + intros H _. destruct fuel'; simpl; now rewrite E.
Qed.

End RngFacts.

(** *** The annealing engine *)

Section EngineFacts.

Import Engine.

Variable exp : Q -> Q.

(** Reduction is kept to the projections and binds a step exposes. *)
Ltac step_bind := cbn [mbind option_bind] in *.

Lemma cloneSnapshot_id (s : AnnealStateSnapshot) : cloneSnapshot s = s.
Proof. destruct s as [i t l [c k] [r]]. reflexivity. Qed.

Lemma proposeMove_mono (fuel fuel' : nat) (st : AnnealState) (m : AnnealMove) :
  proposeMove fuel st = Some m -> (fuel <= fuel')%nat -> proposeMove fuel' st = Some m.
Proof.
  unfold proposeMove. intros H Hle.
  repeat match goal with
  | H : context [randInt ?m ?r] |- _ => destruct (randInt m r) as [? ?]
  | H : context [match ?x with _ => _ end] |- _ => destruct x eqn:?
  end; try exact H.
  all: simplify_option_eq.
  all: erewrite resample_mono by eauto; exact H.
Qed.

Lemma stepAnneal_mono (fuel fuel' : nat) (st : AnnealState)
  (res : AnnealTransition * AnnealState) :
  stepAnneal exp fuel st = Some res -> (fuel <= fuel')%nat ->
  stepAnneal exp fuel' st = Some res.
Proof.
  unfold stepAnneal. intros H Hle.
  destruct (proposeMove fuel st) as [m |] eqn:E; [| discriminate].
  now rewrite (proposeMove_mono _ _ _ _ E Hle).
Qed.

Lemma runLoop_mono (fuel fuel' : nat) (steps : nat) (st : AnnealState)
  (res : list AnnealTransition * AnnealState) :
  runLoop exp fuel steps st = Some res -> (fuel <= fuel')%nat ->
  runLoop exp fuel' steps st = Some res.
Proof.
  revert st res. induction steps as [| steps IH]; intros st res; cbn [runLoop];
    [auto |].
  intros H Hle.
  destruct (stepAnneal exp fuel st) as [[t st1] |] eqn:E; [| discriminate].
  rewrite (stepAnneal_mono _ _ _ _ E Hle). step_bind.
  destruct (runLoop exp fuel steps st1) as [[rest final] |] eqn:E1; [| discriminate].
  rewrite (IH _ _ E1 Hle). exact H.
Qed.

(** C1. Two independent executions of [initializeAnneal] followed by
    [runAnneal] on the same problem (with its pure cost callback), the same
    seed and the same budget yield the same sequence of transitions, field
    for field, and the same final session, whatever bound each execution
    puts on the resampling loop of [proposeMove]. *)
Theorem anneal_run_deterministic (problem : AnnealProblem) (seed0 : Z) (budget : Q)
  (fuel1 fuel2 : nat) (run1 run2 : list AnnealTransition * AnnealState) :
  runAnneal exp fuel1 (initializeAnneal problem seed0) budget = Some run1 ->
  runAnneal exp fuel2 (initializeAnneal problem seed0) budget = Some run2 ->
  fst run1 = fst run2 /\ snd run1 = snd run2.
Proof.
  unfold runAnneal. intros H1 H2.
  apply runLoop_mono with (fuel' := Nat.max fuel1 fuel2) in H1; [| lia].
  apply runLoop_mono with (fuel' := Nat.max fuel1 fuel2) in H2; [| lia].
  rewrite H1 in H2. injection H2 as <-. split; reflexivity.
Qed.


Lemma proposeMove_nonzero (fuel : nat) (st : AnnealState) (m : AnnealMove) :
  proposeMove fuel st = Some m -> seed (rngStateAfterProposal m) <> 0.
Proof.
  unfold proposeMove. intros H.
  match type of H with context [randInt ?n ?r] =>
    assert (Hfirst : seed (snd (randInt n r)) <> 0)
      by (apply randInt_draws; destruct (default false (enableBlockShift (problem st)));
          reflexivity);
    destruct (randInt n r) as [moveIndex rng0]; cbn [snd] in Hfirst
  end.
  repeat match goal with
  | H : context [randInt ?m ?r] |- _ =>
      let Hn := fresh "Hn" in
      pose proof (randInt_nonzero m r) as Hn;
      destruct (randInt m r) as [? ?]; cbn [snd] in Hn
  | H : context [match ?x with _ => _ end] |- _ => destruct x eqn:?
  end; simplify_option_eq;
  repeat match goal with
  | H : context [let '(_, _) := ?p in _] |- _ => destruct p
  end; simplify_eq; cbn [rngStateAfterProposal];
  eauto using resample_nonzero.
Qed.

Lemma Qltb_lt (x y : Q) : Qltb x y = true <-> (x < y)%Q.
Proof.
  unfold Qltb. rewrite Qlt_alt. destruct (x ?= y)%Q; split; congruence.
Qed.

Lemma Qltb_ge (x y : Q) : Qltb x y = false <-> (y <= x)%Q.
Proof.
  split; intros H.
  - apply Qnot_lt_le. intros Hlt. apply Qltb_lt in Hlt. congruence.
  - destruct (Qltb x y) eqn:E; [| reflexivity].
    apply Qltb_lt in E. exfalso. exact (Qlt_not_le _ _ E H).
Qed.

(** C2. The acceptance rule of [acceptMove], with
    [deltaCost = candidate total - current total]: a negative delta is
    accepted as [improved] and a zero delta as [equal], both leaving the
    candidate's RNG state as it is; a positive delta draws one value [u] of
    the unit interval (1 excluded) from the candidate's RNG state, is
    accepted exactly when [u < exp (- deltaCost / max temperature 1e-12)],
    with reason [metropolis] when accepted and [rejected] otherwise, and the
    resulting RNG state is the state after that one draw in both cases. *)
Theorem acceptMove_decision (state candidate : AnnealState) :
  let d := (total (costBreakdown (snap candidate))
            - total (costBreakdown (snap state)))%Q in
  let t := acceptMove exp state candidate in
  let u := fst (nextRng (rngState (snap candidate))) in
  let drawn := snd (nextRng (rngState (snap candidate))) in
  let cutoff := exp (- d / Qmax (temperature (snap state)) (1 # 1000000000000))%Q in
  deltaCost t = d /\
  ((d < 0)%Q ->
     accepted t = true /\ reason t = improved /\
     rngState (after t) = rngState (snap candidate)) /\
  ((d == 0)%Q ->
     accepted t = true /\ reason t = equal /\
     rngState (after t) = rngState (snap candidate)) /\
  ((0 < d)%Q ->
     (0 <= u /\ u < 1)%Q /\
     rngState (after t) = drawn /\
     (accepted t = true <-> (u < cutoff)%Q) /\
     reason t = (if accepted t then metropolis else rejected)).
Proof.
  intros d t u drawn cutoff.
  assert (Hrng : mkRng (seed (rngState (snap candidate))) = rngState (snap candidate))
    by (destruct (rngState (snap candidate)); reflexivity).
  subst t u drawn. unfold acceptMove. fold d. fold cutoff. rewrite Hrng.
  pose proof (nextRng_unit_interval (rngState (snap candidate))) as Hu.
  destruct (nextRng (rngState (snap candidate))) as [u drawn].
  cbn [fst snd] in *.
  destruct (Qltb d 0) eqn:Hlt.
  - apply Qltb_lt in Hlt.
    cbn [accepted reason after rngState deltaCost].
    repeat split; intros; try reflexivity; exfalso; lra.
  - apply Qltb_ge in Hlt. destruct (Qeq_bool d 0) eqn:Heq.
    + apply Qeq_bool_iff in Heq.
      cbn [accepted reason after rngState deltaCost].
      repeat split; intros; try reflexivity; exfalso; lra.
    + assert (Hne : ~ (d == 0)%Q)
        by (intros Hd; apply Qeq_bool_iff in Hd; congruence).
      destruct (Qltb u cutoff) eqn:Hcut;
        cbn [accepted reason after rngState deltaCost].
      * apply Qltb_lt in Hcut.
        repeat split; intros; try reflexivity; try tauto; exfalso; lra.
      * apply Qltb_ge in Hcut.
        repeat split; intros; try reflexivity; try tauto; try discriminate;
          exfalso; lra.
Qed.

Lemma acceptMove_before (st cand : AnnealState) :
  before (acceptMove exp st cand) = snap st.
Proof.
  unfold acceptMove.
  repeat match goal with
  | |- context [match ?x with _ => _ end] => destruct x
  end; cbn [before]; apply cloneSnapshot_id.
Qed.

(** What one step does to the session, read off [stepAnneal]. *)
Lemma stepAnneal_inv (fuel : nat) (st : AnnealState) (t : AnnealTransition)
  (st' : AnnealState) :
  stepAnneal exp fuel st = Some (t, st') ->
  exists (m : AnnealMove) (cand : AnnealState),
    proposeMove fuel st = Some m /\ applyMove st m = Some cand /\
    proposal t = m /\
    before t = snap st /\
    after t = after (acceptMove exp st cand) /\
    deltaCost t = deltaCost (acceptMove exp st cand) /\
    accepted t = accepted (acceptMove exp st cand) /\
    reason t = reason (acceptMove exp st cand) /\
    snap st' = after t /\
    problem st' = problem st /\
    fullTraceEnabled st' = fullTraceEnabled st /\
    st' = appendTransition (withSnapshot st (after t)) t.
Proof.
  unfold stepAnneal. intros H.
  destruct (proposeMove fuel st) as [m |] eqn:Em; [| discriminate].
  step_bind.
  destruct (applyMove st m) as [cand |] eqn:Ec; [| discriminate].
  step_bind. injection H as <- <-.
  exists m, cand. unfold buildNextStateFromTransition.
  cbn [proposal before after deltaCost accepted reason].
  rewrite cloneSnapshot_id, acceptMove_before.
  unfold appendTransition, withSnapshot.
  cbn [snap problem fullTraceEnabled transitionBuffer fullTrace].
  repeat split; try reflexivity; assumption.
Qed.

Lemma acceptMove_temperature (st cand : AnnealState) :
  temperature (after (acceptMove exp st cand))
  = cool (problem st) (temperature (snap st)).
Proof.
  unfold acceptMove.
  repeat match goal with
  | |- context [match ?x with _ => _ end] => destruct x
  end; reflexivity.
Qed.

Lemma acceptMove_rng_nonzero (st cand : AnnealState) :
  seed (rngState (snap cand)) <> 0 ->
  seed (rngState (after (acceptMove exp st cand))) <> 0.
Proof.
  intros Hc. unfold acceptMove.
  destruct (Qltb _ 0); [exact Hc |].
  destruct (Qeq_bool _ 0); [exact Hc |].
  pose proof (nextRng_nonzero (rngState (snap cand))) as Hn.
  destruct (nextRng (rngState (snap cand))) as [u r].
  destruct (Qltb u _); exact Hn.
Qed.

Lemma applyMove_rng (st : AnnealState) (m : AnnealMove) (cand : AnnealState) :
  applyMove st m = Some cand -> rngState (snap cand) = rngStateAfterProposal m.
Proof.
  unfold applyMove. intros H.
  destruct (applyLayout (layout (snap st)) m); [| discriminate].
  step_bind. injection H as <-. unfold withSnapshot. cbn [snap rngState].
  now destruct (rngStateAfterProposal m).
Qed.

Lemma stepAnneal_rng_nonzero (fuel : nat) (st : AnnealState) (t : AnnealTransition)
  (st' : AnnealState) :
  stepAnneal exp fuel st = Some (t, st') ->
  rngState (before t) = rngState (snap st) /\
  seed (rngStateAfterProposal (proposal t)) <> 0 /\
  seed (rngState (after t)) <> 0 /\
  rngState (snap st') = rngState (after t).
Proof.
  intros H. apply stepAnneal_inv in H.
  destruct H as (m & cand & Hm & Hc & Hp & Hb & Ha & _ & _ & _ & Hs & _).
  pose proof (proposeMove_nonzero _ _ _ Hm) as Hnz.
  repeat split.
  - now rewrite Hb.
  - now rewrite Hp.
  - rewrite Ha. apply acceptMove_rng_nonzero.
    now rewrite (applyMove_rng _ _ _ Hc).
  - now rewrite Hs.
Qed.

(** C7. In every reachable session the stored seed is not zero, whatever
    seed the session was initialised with; [sanitizeSeed] maps a zero to
    the constant 0x6d2b79f5 and never returns zero, so every state that a
    draw returns has a non-zero seed; a step records its input RNG state
    unchanged in [before], and every RNG state it records or stores has a
    non-zero seed.  A draw is a function from the input state to a new
    state. *)
Theorem rng_seed_never_zero (problem : AnnealProblem) (seed0 : Z) (st : AnnealState) :
  reachable exp problem seed0 st ->
  seed (rngState (snap st)) <> 0 /\
  (forall (fuel : nat) (t : AnnealTransition) (st' : AnnealState),
     stepAnneal exp fuel st = Some (t, st') ->
     rngState (before t) = rngState (snap st) /\
     seed (rngStateAfterProposal (proposal t)) <> 0 /\
     seed (rngState (after t)) <> 0 /\
     rngState (snap st') = rngState (after t)) /\
  (forall r : AnnealRngState,
     seed (snd (nextRng r)) <> 0 /\
     forall (m : Q), snd (randInt m r) = r \/ snd (randInt m r) = snd (nextRng r)) /\
  (forall z : Z,
     sanitizeSeed z <> 0 /\ (toInt32 z = 0 -> sanitizeSeed z = 0x6d2b79f5) /\
     (toInt32 z <> 0 -> sanitizeSeed z = toInt32 z)).
Proof.
  intros Hreach. repeat split.
  - induction Hreach as [| fuel st t st' _ _ Hstep].
    + apply sanitizeSeed_nonzero.
    + apply stepAnneal_rng_nonzero in Hstep.
      destruct Hstep as (_ & _ & Ha & Hs). now rewrite Hs.
  - now apply stepAnneal_rng_nonzero in H.
  - now apply stepAnneal_rng_nonzero in H.
  - now apply stepAnneal_rng_nonzero in H.
  - now apply stepAnneal_rng_nonzero in H.
  - apply nextRng_nonzero.
  - intros m. unfold randInt. destruct (Qle_bool m 0); [now left |].
    right. now destruct (nextRng r).
  - apply sanitizeSeed_nonzero.
  - apply sanitizeSeed_zero.
  - intros Hz. unfold sanitizeSeed.
    destruct (Z.eqb_spec (toInt32 z) 0); [contradiction | reflexivity].
Qed.

Lemma runLoop_S_inv (fuel steps : nat) (st : AnnealState)
  (ts : list AnnealTransition) (final : AnnealState) :
  runLoop exp fuel (S steps) st = Some (ts, final) ->
  exists (t : AnnealTransition) (st1 : AnnealState) (rest : list AnnealTransition),
    stepAnneal exp fuel st = Some (t, st1) /\
    runLoop exp fuel steps st1 = Some (rest, final) /\
    ts = t :: rest.
Proof.
  cbn [runLoop]. intros H.
  destruct (stepAnneal exp fuel st) as [[t st1] |] eqn:E; [| discriminate].
  step_bind.
  destruct (runLoop exp fuel steps st1) as [[rest fin] |] eqn:E1; [| discriminate].
  step_bind. injection H as <- <-. now exists t, st1, rest.
Qed.

(** **** Cooling *)

Lemma cool_floor (p : AnnealProblem) (T : Q) : (minTemperatureOf p <= cool p T)%Q.
Proof. unfold cool. apply Q.le_max_l. Qed.

Lemma cool_nonneg (p : AnnealProblem) (T : Q) :
  (0 <= coolingRateOf p)%Q -> (0 <= T)%Q -> (0 <= cool p T)%Q.
Proof.
  intros Hr HT. unfold cool.
  apply Qle_trans with (T * coolingRateOf p)%Q; [| apply Q.le_max_r].
  now apply Qmult_le_0_compat.
Qed.

Lemma cool_le (p : AnnealProblem) (T : Q) :
  (coolingRateOf p <= 1)%Q -> (0 <= T)%Q -> (minTemperatureOf p <= T)%Q ->
  (cool p T <= T)%Q.
Proof.
  intros Hr HT Hm. unfold cool. apply Q.max_lub; [exact Hm |].
  fold (coolingRateOf p).
  rewrite <- (Qmult_1_r T) at 2.
  rewrite !(Qmult_comm T). now apply Qmult_le_compat_r.
Qed.

Lemma stepAnneal_temperature (fuel : nat) (st : AnnealState) (t : AnnealTransition)
  (st' : AnnealState) :
  stepAnneal exp fuel st = Some (t, st') ->
  temperature (before t) = temperature (snap st) /\
  temperature (after t) = cool (problem st) (temperature (snap st)) /\
  temperature (snap st') = temperature (after t) /\
  problem st' = problem st.
Proof.
  intros H. apply stepAnneal_inv in H.
  destruct H as (m & cand & _ & _ & _ & Hb & Ha & _ & _ & _ & Hs & Hp & _).
  rewrite Hb, Hs, Ha, acceptMove_temperature. auto.
Qed.

Lemma runLoop_cooling (fuel steps : nat) (st : AnnealState)
  (ts : list AnnealTransition) (final : AnnealState) :
  runLoop exp fuel steps st = Some (ts, final) ->
  let p := problem st in
  chain (fun T T' => T' = Qmax (minTemperatureOf p) (T * coolingRateOf p))
    (temperature (snap st)) (temperaturesAfter ts) /\
  Forall (fun T => (minTemperatureOf p <= T)%Q) (temperaturesAfter ts) /\
  ((0 <= coolingRateOf p)%Q -> (coolingRateOf p <= 1)%Q ->
   (0 <= temperature (snap st))%Q ->
   (minTemperatureOf p <= temperature (snap st))%Q ->
   chain (fun T T' => (T' <= T)%Q) (temperature (snap st)) (temperaturesAfter ts)).
Proof.
  revert st ts final. induction steps as [| steps IH]; intros st ts final.
  - cbn [runLoop]. intros [= <- <-]. cbn [temperaturesAfter map chain]. auto.
  - intros H. apply runLoop_S_inv in H.
    destruct H as (t & st1 & rest & E & E1 & ->).
    apply stepAnneal_temperature in E. destruct E as (_ & Ha & Hs & Hp).
    specialize (IH _ _ _ E1). rewrite Hp, Hs in IH. cbv zeta in IH.
    destruct IH as (IH1 & IH2 & IH3).
    cbv zeta. cbn [temperaturesAfter map chain].
    fold (temperaturesAfter rest). repeat split.
    + exact Ha.
    + exact IH1.
    + constructor; [rewrite Ha; apply cool_floor | exact IH2].
    + rewrite Ha. now apply cool_le.
    + apply IH3; auto; rewrite Ha.
      * now apply cool_nonneg.
      * apply cool_floor.
Qed.

Lemma initial_temperature_nonneg (p : AnnealProblem) (seed0 : Z) :
  (0 <= temperature (snap (initializeAnneal p seed0)))%Q.
Proof.
  unfold initializeAnneal. cbn [snap temperature]. apply Q.le_max_r.
Qed.

(** C5 (amended). After every step the temperature is
    [max minTemperature (temperature_before * coolingRate)], with the
    defaults 1e-4 and 0.995, and it is never below [minTemperature]; over a
    run whose cooling rate lies between 0 and 1 and whose initial
    temperature (clamped at 0 by [initializeAnneal]) is at least
    [minTemperature], the temperature never increases. *)
Theorem cooling_schedule (p : AnnealProblem) (seed0 : Z) (budget : Q)
  (fuel : nat) (ts : list AnnealTransition) (final : AnnealState) :
  runAnneal exp fuel (initializeAnneal p seed0) budget = Some (ts, final) ->
  let T0 := Qmax (default DEFAULT_INITIAL_TEMPERATURE (initialTemperature p)) 0 in
  let rate := default (995 # 1000) (coolingRate p) in
  let minT := default (1 # 10000) (minTemperature p) in
  chain (fun T T' => T' = Qmax minT (T * rate)) T0 (temperaturesAfter ts) /\
  Forall (fun T => (minT <= T)%Q) (temperaturesAfter ts) /\
  ((0 <= rate)%Q -> (rate <= 1)%Q -> (minT <= T0)%Q ->
   chain (fun T T' => (T' <= T)%Q) T0 (temperaturesAfter ts)).
Proof.
  unfold runAnneal. intros H. apply runLoop_cooling in H.
  destruct H as (H1 & H2 & H3). cbv zeta. repeat split; auto.
  intros Hr0 Hr1 Hm. apply H3; auto. apply initial_temperature_nonneg.
Qed.

(** **** The transition ring buffer *)

Lemma ring_inv_make (c : Z) : 1 <= c -> ring_inv (makeRingBuffer c) [].
Proof.
  intros Hc. unfold ring_inv, makeRingBuffer; simpl.
  rewrite length_replicate, Z2Nat.id by lia.
  repeat split; try lia.
  intros k t _ Hk. discriminate.
Qed.

Lemma mod_slots_differ (c k n : Z) :
  1 <= c -> 0 <= k < n -> n - k < c -> k mod c <> n mod c.
Proof.
  intros Hc Hk Hd Heq.
  pose proof (Z.div_mod k c ltac:(lia)) as Ek.
  pose proof (Z.div_mod n c ltac:(lia)) as En.
  rewrite Heq in Ek.
  assert (Hm : n - k = c * (n / c - k / c)) by lia.
  assert (0 < n / c - k / c) by nia.
  nia.
Qed.

Lemma ring_inv_append (st : AnnealState) (hist : list AnnealTransition)
  (t : AnnealTransition) :
  ring_inv (transitionBuffer st) hist ->
  ring_inv (transitionBuffer (appendTransition st t)) (hist ++ [t]).
Proof.
  unfold ring_inv, appendTransition; simpl.
  set (ring := transitionBuffer st). set (n := Z.of_nat (length hist)).
  intros (Hc & Hlen & Hhead & Hsize & Hslots).
  assert (Hn : 0 <= n) by (subst n; lia).
  pose proof (Z.mod_pos_bound n (capacity ring) ltac:(lia)) as Hmod.
  rewrite length_app, length_insert. simpl.
  replace (Z.of_nat (length hist + 1)) with (n + 1) by (subst n; lia).
  rewrite Z.rem_mod_nonneg by lia.
  repeat split; try lia.
  - rewrite Hhead. rewrite Zplus_mod_idemp_l. reflexivity.
  - intros k u Hk Hu.
    destruct (decide (k = length hist)) as [-> | Hne].
    + rewrite list_lookup_middle in Hu by reflexivity. injection Hu as <-.
      fold n. rewrite Hhead. apply list_lookup_insert_eq. lia.
    + assert (Hklt : (k < length hist)%nat).
      { apply lookup_lt_Some in Hu. rewrite length_app in Hu. simpl in Hu. lia. }
      rewrite lookup_app_l in Hu by exact Hklt.
      rewrite list_lookup_insert_ne.
      * apply Hslots; [lia | exact Hu].
      * rewrite Hhead. intros Heq. apply Z2Nat.inj in Heq; try lia.
        -- symmetry in Heq. revert Heq. apply mod_slots_differ; lia.
        -- apply Z.mod_pos_bound. lia.
Qed.

Lemma exportLoop_spec (ring : TransitionRingBuffer) (hist : list AnnealTransition)
  (count : nat) (i : Z) :
  ring_inv ring hist -> 0 <= i -> i + Z.of_nat count = size ring ->
  exportLoop ring count i
  = drop (Z.to_nat (Z.of_nat (length hist) - size ring + i)) hist.
Proof.
  intros Hinv. pose proof Hinv as (Hc & Hlen & Hhead & Hsize & Hslots).
  revert i. induction count as [| count IH]; intros i Hi Hcount; simpl.
  - rewrite drop_ge; [reflexivity | lia].
  - set (n := Z.of_nat (length hist)) in *.
    set (k := Z.to_nat (n - size ring + i)).
    assert (Hk : (k < length hist)%nat) by (subst k n; lia).
    destruct (lookup_lt_is_Some_2 hist k Hk) as [t Ht].
    assert (Hidx : Z.rem (head ring - size ring + i + capacity ring) (capacity ring)
                   = Z.of_nat k mod capacity ring).
    { pose proof (Z.mod_pos_bound n (capacity ring) ltac:(lia)) as Hmod.
      rewrite Z.rem_mod_nonneg by lia.
      rewrite Hhead.
      replace (n mod capacity ring - size ring + i + capacity ring)
        with (Z.of_nat k + (1 - n / capacity ring) * capacity ring).
      - apply Z.mod_add. lia.
      - pose proof (Z.div_mod n (capacity ring) ltac:(lia)). subst k. lia. }
    rewrite Hidx. unfold entryAt.
    pose proof (Z.mod_pos_bound (Z.of_nat k) (capacity ring) ltac:(lia)) as Hpos.
    destruct (Z.ltb_spec (Z.of_nat k mod capacity ring) 0) as [Hneg | _]; [lia |].
    rewrite (Hslots k t) by (subst k; try lia; exact Ht). simpl.
    rewrite (drop_S _ _ _ Ht). f_equal.
    rewrite IH by lia. f_equal. subst k. lia.
Qed.

Lemma runLoop_ring (fuel steps : nat) (st : AnnealState)
  (hist ts : list AnnealTransition) (final : AnnealState) :
  runLoop exp fuel steps st = Some (ts, final) ->
  ring_inv (transitionBuffer st) hist ->
  ring_inv (transitionBuffer final) (hist ++ ts) /\
  capacity (transitionBuffer final) = capacity (transitionBuffer st) /\
  length ts = steps.
Proof.
  revert st hist ts final.
  induction steps as [| steps IH]; intros st hist ts final.
  - cbn [runLoop]. intros [= <- <-] Hinv. rewrite app_nil_r. auto.
  - intros H Hinv. apply runLoop_S_inv in H.
    destruct H as (t & st1 & rest & E & E1 & ->).
    apply stepAnneal_inv in E.
    destruct E as (m & cand & _ & _ & _ & _ & _ & _ & _ & _ & _ & _ & _ & Hst).
    assert (Hinv1 : ring_inv (transitionBuffer st1) (hist ++ [t])).
    { rewrite Hst. now apply ring_inv_append. }
    destruct (IH _ _ _ _ E1 Hinv1) as (Hfin & Hcap & Hlen).
    rewrite <- app_assoc in Hfin. cbn [app] in Hfin.
    split; [exact Hfin | split].
    + rewrite Hcap, Hst. reflexivity.
    + cbn [length]. now rewrite Hlen.
Qed.

(** C6. After the [N] steps of a run on a fresh session whose ring buffer
    has capacity [C] (at least 1), [exportTransitionRing] returns exactly
    [min N C] transitions: the last [min N C] transitions of the run, oldest
    first, in step order, wrapped around or not. *)
Theorem export_ring_last_transitions (p : AnnealProblem) (seed0 : Z) (budget : Q)
  (fuel : nat) (ts : list AnnealTransition) (final : AnnealState) :
  runAnneal exp fuel (initializeAnneal p seed0) budget = Some (ts, final) ->
  let C := Z.max 1 (default 256 (transitionBufferSize p)) in
  let N := length ts in
  let kept := Nat.min N (Z.to_nat C) in
  capacity (transitionBuffer final) = C /\
  Z.of_nat N = Z.max 0 (Qfloor budget) /\
  exportTransitionRing final = drop (N - kept) ts /\
  length (exportTransitionRing final) = kept.
Proof.
  intros H C N kept. unfold runAnneal in H.
  apply runLoop_ring with (hist := []) in H; [| apply ring_inv_make; lia].
  destruct H as (Hinv & Hcap & Hlen).
  unfold initializeAnneal in Hcap. cbn [transitionBuffer makeRingBuffer capacity] in Hcap.
  change DEFAULT_TRANSITION_BUFFER_SIZE with 256 in Hcap.
  fold C in Hcap. rewrite app_nil_l in Hinv.
  assert (Hexp : exportTransitionRing final = drop (N - kept) ts).
  { unfold exportTransitionRing.
    pose proof Hinv as (Hc & _ & _ & Hsize & _).
    rewrite (exportLoop_spec _ ts) by (try exact Hinv; lia).
    f_equal. subst kept N. rewrite Hsize, Hcap.
    assert (1 <= C) by (subst C; lia). lia. }
  repeat split.
  - exact Hcap.
  - subst N. rewrite Hlen. lia.
  - exact Hexp.
  - rewrite Hexp, length_drop. subst kept N. lia.
Qed.
End EngineFacts.

(** **** Proposed moves apply *)

Section MoveRange.

Import Engine.

Lemma randInt_inRange (l : list Z) (r : AnnealRngState) :
  inRange l (fst (randInt (inject_Z (Z.of_nat (length l))) r)).
Proof.
  unfold randInt, inRange.
  set (n := Z.of_nat (length l)).
  destruct (Qle_bool (inject_Z n) 0) eqn:E.
  - cbn [fst]. apply Qle_bool_iff in E. change 0%Q with (inject_Z 0) in E.
    rewrite <- Zle_Qle in E. split; [lia |]. right. split; [lia | reflexivity].
  - assert (Hn : (0 < inject_Z n)%Q).
    { apply Qnot_le_lt. intros Hle. apply Qle_bool_iff in Hle. congruence. }
    pose proof (nextRng_unit_interval r) as [Hu0 Hu1].
    destruct (nextRng r) as [u r']. cbn [fst] in *.
    split.
    + change 0 with (Qfloor 0). apply Qfloor_resp_le.
      apply Qmult_le_0_compat; [exact Hu0 | now apply Qlt_le_weak].
    + left. rewrite Zlt_Qlt.
      apply Qle_lt_trans with (u * inject_Z n)%Q; [apply Qfloor_le |].
      rewrite <- (Qmult_1_l (inject_Z n)) at 2.
      now apply Qmult_lt_compat_r.
Qed.

Lemma resample_inRange (fuel : nat) (l : list Z) (a b : Z) (r : AnnealRngState)
  (b' : Z) (r' : AnnealRngState) :
  resample fuel (inject_Z (Z.of_nat (length l))) a b r = Some (b', r') ->
  inRange l b -> inRange l b'.
Proof.
  revert b r. induction fuel as [| fuel IH]; intros b r; cbn [resample].
  - destruct (b =? a); [discriminate |]. now intros [= <- <-].
  - destruct (b =? a); [| now intros [= <- <-]].
    pose proof (randInt_inRange l r) as Hr.
    destruct (randInt _ r) as [b1 r1]. cbn [fst] in Hr. intros H _.
    now apply (IH _ _ H).
Qed.

Lemma proposeMove_inRange (fuel : nat) (st : AnnealState) (m : AnnealMove) :
  proposeMove fuel st = Some m -> moveInRange (layout (snap st)) m.
Proof.
  unfold proposeMove. intros H.
  set (l := layout (snap st)) in *.
  repeat match goal with
  | H : context [randInt (inject_Z (Z.of_nat (length l))) ?r] |- _ =>
      let Hr := fresh "Hr" in
      pose proof (randInt_inRange l r) as Hr;
      destruct (randInt (inject_Z (Z.of_nat (length l))) r) as [? ?];
      cbn [fst] in Hr
  | H : context [randInt ?m ?r] |- _ => destruct (randInt m r) as [? ?]
  | H : context [match ?x with _ => _ end] |- _ => destruct x eqn:?
  end; simplify_option_eq;
  repeat match goal with
  | H : context [let '(_, _) := ?p in _] |- _ => destruct p
  end; simplify_eq; cbn [moveInRange]; eauto using resample_inRange.
Qed.

Lemma at_index_inRange (l : list Z) (i : Z) :
  inRange l i -> (0 < length l)%nat -> is_Some (at_index l i).
Proof.
  intros [H0 [Hlt | [Hlen _]]] Hpos; [| lia].
  unfold at_index. destruct (Z.ltb_spec i 0); [lia |].
  apply lookup_lt_is_Some. lia.
Qed.

Lemma applyLayout_inRange (l : list Z) (m : AnnealMove) :
  moveInRange l m -> is_Some (applyLayout l m).
Proof.
  destruct m as [index delta r | a b r | from to r | start end_ shift r];
    cbn [moveInRange applyLayout]; intros Hm.
  - destruct (Z.ltb_spec 0 (Z.of_nat (length l))); [| eauto].
    destruct (at_index_inRange l index Hm) as [v ->]; [lia |].
    cbn [mbind option_bind]. eauto.
  - destruct Hm as [Ha Hb].
    destruct (Z.ltb_spec 1 (Z.of_nat (length l))); [| eauto].
    destruct (at_index_inRange l a Ha) as [va ->]; [lia |].
    destruct (at_index_inRange l b Hb) as [vb ->]; [lia |].
    cbn [mbind option_bind]. eauto.
  - destruct (Z.ltb_spec 1 (Z.of_nat (length l))) as [Hlen |]; [| eauto].
    destruct Hm as [H0 [Hlt | [Hz _]]]; [| lia].
    unfold splice at 1.
    destruct (Z.ltb_spec from 0); [lia |].
    rewrite (Z.min_l from) by lia.
    replace (Z.min (Z.max 1 0) (Z.of_nat (length l) - from)) with 1 by lia.
    destruct (lookup_lt_is_Some_2 l (Z.to_nat from)) as [item Hitem]; [lia |].
    rewrite (drop_S _ _ _ Hitem). cbn [take lookup list_lookup mbind option_bind].
    eauto.
  - destruct (_ && _); [| eauto].
    destruct (splice l _ _ []) as [block rest]. eauto.
Qed.

(** A proposed move always applies: a step can only fail to return when
    the resampling loop of [proposeMove] runs out of fuel. *)
Lemma applyMove_proposeMove (fuel : nat) (st : AnnealState) (m : AnnealMove) :
  proposeMove fuel st = Some m -> is_Some (applyMove st m).
Proof.
  intros H. apply proposeMove_inRange in H.
  destruct (applyLayout_inRange _ _ H) as [l' Hl'].
  unfold applyMove. rewrite Hl'. cbn [mbind option_bind]. eauto.
Qed.

(** A step returns exactly when its proposal does. *)
Lemma stepAnneal_returns (exp : Q -> Q) (fuel : nat) (st : AnnealState) :
  is_Some (stepAnneal exp fuel st) <-> is_Some (proposeMove fuel st).
Proof.
  unfold stepAnneal. split.
  - destruct (proposeMove fuel st); [eauto | intros [? ?]; discriminate].
  - intros [m Hm]. rewrite Hm. cbn [mbind option_bind].
    destruct (applyMove_proposeMove _ _ _ Hm) as [cand ->].
    cbn [mbind option_bind]. eauto.
Qed.

(** With at most one element in the layout no proposal resamples: the
    step returns whatever the fuel. *)
Lemma stepAnneal_total_short_layout (exp : Q -> Q) (fuel : nat) (st : AnnealState) :
  (length (layout (snap st)) <= 1)%nat -> is_Some (stepAnneal exp fuel st).
Proof.
  intros Hlen. apply stepAnneal_returns. unfold proposeMove.
  destruct (Z.ltb_spec 1 (Z.of_nat (length (layout (snap st))))); [lia |].
  repeat match goal with
  | |- context [randInt ?m ?r] => destruct (randInt m r) as [? ?]
  | |- context [match ?x with _ => _ end] => destruct x
  end; eauto.
Qed.

End MoveRange.

Section EngineExamples.

Import Engine.

Lemma anneal_run_deterministic_witness :
  match runAnneal sampleExp 4 (initializeAnneal sampleProblem 42) (5 # 1),
        runAnneal sampleExp 9 (initializeAnneal sampleProblem 42) (5 # 1) with
  | Some run1, Some run2 => fst run1 = fst run2 /\ snd run1 = snd run2
  | _, _ => False
  end.
Proof.
  destruct (runAnneal sampleExp 4 _ _) as [run1 |] eqn:E1;
    [| vm_compute in E1; discriminate E1].
  destruct (runAnneal sampleExp 9 _ _) as [run2 |] eqn:E2;
    [| vm_compute in E2; discriminate E2].
  exact (anneal_run_deterministic sampleExp sampleProblem 42 (5 # 1) 4 9
           run1 run2 E1 E2).
Defined.

(** C5 as stated fails: with [initialTemperature = 0] and the default
    [minTemperature] the first step raises the temperature from 0 to 1e-4;
    with [coolingRate = 2] the first step raises it from 10 to 20; with
    [coolingRate = -1] and [minTemperature = -100] the second step raises
    it from -10 to 10. *)
Lemma cooling_counterexample :
  (exists (t : AnnealTransition) (st' : AnnealState),
     stepAnneal sampleExp 4 (initializeAnneal coldProblem 1) = Some (t, st') /\
     temperature (before t) = 0 # 1 /\
     temperature (after t) = 1 # 10000 /\
     (temperature (snap (initializeAnneal coldProblem 1))
      < temperature (snap st'))%Q) /\
  option_map (fun run => temperaturesAfter (fst run))
    (runAnneal sampleExp 4 (initializeAnneal heatingProblem 1) (1 # 1))
  = Some [20 # 1] /\
  option_map (fun run => temperaturesAfter (fst run))
    (runAnneal sampleExp 4 (initializeAnneal alternatingProblem 1) (2 # 1))
  = Some [-10 # 1; 10 # 1].
Proof.
  split; [| split; vm_compute; reflexivity].
  destruct (stepAnneal sampleExp 4 (initializeAnneal coldProblem 1))
    as [[t st'] |] eqn:E; [| vm_compute in E; discriminate E].
  exists t, st'. split; [reflexivity |].
  vm_compute in E. injection E as <- <-. vm_compute. auto.
Qed.

Lemma cooling_schedule_witness :
  match runAnneal sampleExp 4 (initializeAnneal sampleProblem 42) (5 # 1) with
  | Some (ts, _) =>
      chain (fun T T' => (T' <= T)%Q) (10 # 1) (temperaturesAfter ts)
  | None => False
  end.
Proof.
  destruct (runAnneal sampleExp 4 _ _) as [[ts final] |] eqn:E;
    [| vm_compute in E; discriminate E].
  pose proof (cooling_schedule sampleExp sampleProblem 42 (5 # 1) 4 ts final E)
    as (_ & _ & H).
  apply H; vm_compute; discriminate.
Defined.

Lemma export_ring_last_transitions_witness :
  match runAnneal sampleExp 4 (initializeAnneal sampleProblem 42) (5 # 1) with
  | Some (ts, final) =>
      length ts = 5%nat /\ exportTransitionRing final = drop 2 ts
  | None => False
  end.
Proof.
  destruct (runAnneal sampleExp 4 _ _) as [[ts final] |] eqn:E;
    [| vm_compute in E; discriminate E].
  pose proof (export_ring_last_transitions sampleExp sampleProblem 42 (5 # 1) 4
                ts final E) as (_ & Hn & Hexp & _).
  change (Z.max 0 (Qfloor (5 # 1))) with 5 in Hn.
  assert (Hlen : length ts = 5%nat) by lia.
  split; [exact Hlen |]. rewrite Hexp, Hlen. reflexivity.
Defined.

Lemma rng_seed_never_zero_witness :
  (seed (rngState (snap (initializeAnneal sampleProblem 0))) =? 0) = false.
Proof.
  apply Z.eqb_neq.
  exact (proj1 (rng_seed_never_zero sampleExp sampleProblem 0
                  (initializeAnneal sampleProblem 0)
                  (reach_init sampleExp sampleProblem 0))).
Defined.

End EngineExamples.

(** *** The cost model *)

Section CostFacts.

Import Cost.

Local Open Scope float_scope.

Lemma finiteOrZero_finite (value : option float) :
  isFinite (finiteOrZero value) = true.
Proof.
  destruct value as [v |]; cbn [finiteOrZero]; [| reflexivity].
  destruct (isFinite v) eqn:E; [exact E | reflexivity].
Qed.

Lemma finiteOrZero_missing : finiteOrZero None = 0.
Proof. reflexivity. Qed.

Lemma finiteOrZero_not_finite (v : float) :
  isFinite v = false -> finiteOrZero (Some v) = 0.
Proof. intros E. cbn [finiteOrZero]. now rewrite E. Qed.

(** C3. [computeCost] returns a breakdown whose [total] is the sum
    [L + X + B + F_out + F_down + F + S_span + S_waste + S] of its nine
    terms, added from left to right; each term is its base measurement
    times its own weight, the weight being 1 when absent; [F] weights the
    sum of the two flow-violation measurements and [S] the sum of the span
    and waste measurements. *)
Theorem computeCost_total_is_sum (layout : LayoutCostInput)
  (routing : RoutingCostInput) (config : CostConfig) :
  let c := computeCost layout routing config in
  let w := default noWeights (weights config) in
  let spans :=
    match layoutSpans layout with
    | Some s => s
    | None => default [] (routingSpans routing)
    end in
  let baseL := sum (map abs (default [] (positions layout))) in
  let baseX := finiteOrZero (crossings routing) in
  let baseB := finiteOrZero (bends routing) in
  let baseFOut := finiteOrZero (flowOutViolations routing) in
  let baseFDown := finiteOrZero (flowDownViolations routing) in
  let baseSSpan := sum (map abs spans) in
  let baseSWaste := finiteOrZero (waste layout) in
  total c
  = L c + X c + B c + F_out c + F_down c + F c + S_span c + S_waste c + S c /\
  L c = baseL * default 1 (wL w) /\
  X c = baseX * default 1 (wX w) /\
  B c = baseB * default 1 (wB w) /\
  F_out c = baseFOut * default 1 (wF_out w) /\
  F_down c = baseFDown * default 1 (wF_down w) /\
  F c = (baseFOut + baseFDown) * default 1 (wF w) /\
  S_span c = baseSSpan * default 1 (wS_span w) /\
  S_waste c = baseSWaste * default 1 (wS_waste w) /\
  S c = (baseSSpan + baseSWaste) * default 1 (wS w).
Proof.
  cbv zeta. unfold computeCost, weighted.
  cbn [total L X B F_out F_down F S_span S_waste S].
  repeat split; reflexivity.
Qed.

(** C4. The scalar measurements go through [finiteOrZero], the entries of
    [positions] and [spans] do not: a NaN position makes [L] and [total]
    NaN, an infinite span makes [S_span], [S] and [total] infinite. *)
Theorem computeCost_array_entries_not_sanitized :
  is_nan (L (computeCost nanPositions noRouting (mkCostConfig None))) = true /\
  is_nan (total (computeCost nanPositions noRouting (mkCostConfig None))) = true /\
  is_infinity (S_span (computeCost infiniteSpan noRouting (mkCostConfig None))) = true /\
  is_infinity (total (computeCost infiniteSpan noRouting (mkCostConfig None))) = true /\
  (forall v : option float, isFinite (finiteOrZero v) = true).
Proof.
  repeat split; try (vm_compute; reflexivity).
  apply finiteOrZero_finite.
Qed.

End CostFacts.

(** *** The grid router *)

Section SortFacts.

Context {A : Type}.
Variable cmp : A -> A -> Z.

Hypothesis cmp_total : forall a b : A, notAfter cmp a b \/ notAfter cmp b a.
Hypothesis cmp_trans :
  forall a b c : A, notAfter cmp a b -> notAfter cmp b c -> notAfter cmp a c.

Lemma jsSortInsert_perm (x : A) (l : list A) : jsSortInsert cmp x l ≡ₚ x :: l.
Proof.
  induction l as [| y l IH]; cbn [jsSortInsert]; [reflexivity |].
  destruct (0 <? cmp x y); [| reflexivity].
  rewrite IH. apply Permutation_swap.
Qed.

Lemma jsSort_perm (l : list A) : jsSort cmp l ≡ₚ l.
Proof.
  induction l as [| x l IH]; [reflexivity |].
  unfold jsSort in *. cbn [foldr]. rewrite jsSortInsert_perm. now rewrite IH.
Qed.

Lemma jsSortInsert_sorted (x : A) (l : list A) :
  StronglySorted (notAfter cmp) l ->
  StronglySorted (notAfter cmp) (jsSortInsert cmp x l).
Proof.
  induction 1 as [| y l Hsorted IH Hy]; cbn [jsSortInsert].
  - repeat constructor.
  - destruct (Z.ltb_spec 0 (cmp x y)) as [Hgt | Hle].
    + constructor; [exact IH |].
      rewrite jsSortInsert_perm. constructor; [| exact Hy].
      destruct (cmp_total x y) as [Hxy | Hyx]; [| exact Hyx].
      unfold notAfter in Hxy. lia.
    + constructor; [now constructor |].
      constructor; [exact Hle |].
      eapply Forall_impl; [exact Hy |]. intros z Hz. now apply cmp_trans with y.
Qed.

Lemma jsSort_sorted (l : list A) : StronglySorted (notAfter cmp) (jsSort cmp l).
Proof.
  induction l as [| x l IH]; [constructor |].
  unfold jsSort in *. cbn [foldr]. now apply jsSortInsert_sorted.
Qed.

(** Two arrangements of the same elements sort to the same array when no
    two distinct elements compare as equal. *)
Lemma jsSort_permutation (l1 l2 : list A) :
  (forall a b : A,
     a ∈ l1 -> b ∈ l1 -> notAfter cmp a b -> notAfter cmp b a -> a = b) ->
  l1 ≡ₚ l2 -> jsSort cmp l1 = jsSort cmp l2.
Proof.
  intros Hanti Hperm.
  apply (StronglySorted_unique_strong (notAfter cmp)).
  - intros a b Ha Hb. apply Hanti.
    + now rewrite jsSort_perm in Ha.
    + now rewrite jsSort_perm, <- Hperm in Hb.
  - apply jsSort_sorted.
  - apply jsSort_sorted.
  - now rewrite !jsSort_perm.
Qed.

End SortFacts.

Lemma NoDup_fmap_inj_on {A B : Type} (f : A -> B) (l : list A) (a b : A) :
  NoDup (f <$> l) -> a ∈ l -> b ∈ l -> f a = f b -> a = b.
Proof.
  induction l as [| c l IH]; intros Hnd Ha Hb Hf.
  - inversion Ha.
  - rewrite fmap_cons in Hnd. apply NoDup_cons in Hnd as [Hc Hnd].
    apply elem_of_cons in Ha as [-> | Ha]; apply elem_of_cons in Hb as [-> | Hb].
    + reflexivity.
    + exfalso. apply Hc. rewrite Hf. now apply list_elem_of_fmap_2.
    + exfalso. apply Hc. rewrite <- Hf. now apply list_elem_of_fmap_2.
    + now apply IH.
Qed.

Lemma foldl_add_shift {A : Type} (g : A -> Z) (acc : Z) (l : list A) :
  foldl (fun a r => a + g r) acc l = acc + foldl (fun a r => a + g r) 0 l.
Proof.
  revert acc. induction l as [| r l IH]; intros acc; cbn [foldl]; [lia |].
  rewrite (IH (acc + g r)), (IH (0 + g r)). lia.
Qed.

Section RouterFacts.

Import Router.

Variable localeCompare : string -> string -> Z.

Lemma routeEdges_ids (fuel : nat) (step : Z) (sorted : list DraftRouterEdge)
  (blocked blocked' : gset Key) (routes routes' : list RoutedEdge) :
  routeEdges fuel step (blocked, routes) sorted = Some (blocked', routes') ->
  routeId <$> routes' = (routeId <$> routes) ++ (id <$> sorted).
Proof.
  revert blocked routes. induction sorted as [| e sorted IH]; intros blocked routes.
  - cbn [routeEdges]. intros [= <- <-]. now rewrite app_nil_r.
  - cbn [routeEdges]. unfold routeEdge at 1.
    destruct (findPath fuel _ _ _) as [rawPath |]; [| discriminate].
    cbn [mbind option_bind]. intros H. apply IH in H.
    rewrite H, fmap_app, <- app_assoc. reflexivity.
Qed.

(** C8 (amended). [routeDraft] routes the edges in the order in which
    [localeCompare] sorts their identifiers, whatever their order in the
    input array: the returned routes list the identifiers in sorted order,
    and when the identifiers are pairwise distinct and no two of them
    compare as equal under [localeCompare], every rearrangement of the
    [edges] array, its reversal included, gives the same result (routes and
    cost).  [localeCompare] is a total preorder on strings. *)
Theorem routeDraft_input_order (fuel : nat) (input : DraftRouterInput)
  (rearranged : list DraftRouterEdge) :
  (forall a b : string, localeCompare a b <= 0 \/ localeCompare b a <= 0) ->
  (forall a b c : string,
     localeCompare a b <= 0 -> localeCompare b c <= 0 -> localeCompare a c <= 0) ->
  NoDup (id <$> edges input) ->
  (forall a b : DraftRouterEdge,
     a ∈ edges input -> b ∈ edges input ->
     localeCompare (id a) (id b) <= 0 -> localeCompare (id b) (id a) <= 0 ->
     id a = id b) ->
  rearranged ≡ₚ edges input ->
  routeDraft localeCompare fuel (withEdges input rearranged)
  = routeDraft localeCompare fuel input /\
  routeDraft localeCompare fuel (withEdges input (reverse (edges input)))
  = routeDraft localeCompare fuel input /\
  (forall res : DraftRouterResult,
     routeDraft localeCompare fuel input = Some res ->
     routeId <$> routes res
     = id <$> jsSort (fun a b => localeCompare (id a) (id b)) (edges input) /\
     StronglySorted (fun a b => localeCompare a b <= 0) (routeId <$> routes res)).
Proof.
  intros Htotal Htrans Hnodup Hdistinct Hperm.
  set (cmp := fun a b : DraftRouterEdge => localeCompare (id a) (id b)).
  assert (Hsort : forall es : list DraftRouterEdge,
             es ≡ₚ edges input -> jsSort cmp es = jsSort cmp (edges input)).
  { intros es Hes. apply jsSort_permutation.
    - intros a b. unfold notAfter, cmp. auto.
    - intros a b c. unfold notAfter, cmp. eauto.
    - intros a b Ha Hb Hab Hba. rewrite Hes in Ha, Hb.
      apply (NoDup_fmap_inj_on id (edges input)); [exact Hnodup | exact Ha | exact Hb |].
      now apply Hdistinct.
    - exact Hes. }
  assert (Hroute : forall es : list DraftRouterEdge,
             es ≡ₚ edges input ->
             routeDraft localeCompare fuel (withEdges input es)
             = routeDraft localeCompare fuel input).
  { intros es Hes. unfold routeDraft, withEdges.
    cbn [edges obstacles blockedCells gridStep obstaclePadding].
    fold cmp. now rewrite (Hsort es Hes). }
  split; [now apply Hroute |].
  split; [apply Hroute; apply reverse_Permutation |].
  intros res Hres. unfold routeDraft in Hres. fold cmp in Hres.
  destruct (routeEdges fuel _ _ (jsSort cmp (edges input)))
    as [[blocked rs] |] eqn:E; [| discriminate].
  cbn [mbind option_bind] in Hres. injection Hres as <-. cbn [routes].
  apply routeEdges_ids in E. rewrite fmap_nil, app_nil_l in E.
  split; [exact E |]. rewrite E.
  pose proof (jsSort_sorted cmp) as Hs.
  assert (Hsorted : StronglySorted (notAfter cmp) (jsSort cmp (edges input))).
  { apply Hs.
    - intros a b. unfold notAfter, cmp. auto.
    - intros a b c. unfold notAfter, cmp. eauto. }
  clear - Hsorted. induction Hsorted as [| e l _ IH He]; [constructor |].
  rewrite fmap_cons. constructor; [exact IH |].
  rewrite Forall_fmap. exact He.
Qed.






End RouterFacts.

(** *** The router facade *)

Section FacadeFacts.

Import Router Facade.

Variable localeCompare : string -> string -> Z.

Lemma allFlags_complete (flags : list bool) : flags ∈ allFlags (length flags).
Proof.
  induction flags as [| a flags IH]; cbn [length allFlags].
  - apply list_elem_of_singleton. reflexivity.
  - apply elem_of_app. destruct a; [left | right]; now apply list_elem_of_fmap_2.
Qed.

Lemma scenario_all : forallb scenarioHolds (allFlags 12) = true.
Proof. vm_compute. reflexivity. Qed.

Lemma scenario_schedule (flags : list bool) :
  length flags = 12%nat -> countTrue flags = 10%nat ->
  schedule 10 12 0 0 flags
  = map (fun i => bool_decide (i = nthAccepted 10 0 flags \/ i = 11%nat)) (seq 0 12) /\
  countTrue (schedule 10 12 0 0 flags)
  = if bool_decide (nthAccepted 10 0 flags = 11%nat) then 1%nat else 2%nat.
Proof.
  intros Hlen Hcount.
  pose proof scenario_all as Hall. rewrite forallb_forall in Hall.
  assert (Hin : In flags (allFlags 12)).
  { apply list_elem_of_In. rewrite <- Hlen. apply allFlags_complete. }
  apply Hall in Hin. unfold scenarioHolds in Hin.
  rewrite (bool_decide_eq_true_2 _ Hcount) in Hin.
  apply andb_true_iff in Hin as [H1 H2].
  split; [now apply bool_decide_eq_true_1 in H1 | now apply bool_decide_eq_true_1 in H2].
Qed.

(** One iteration of the loop, read off [hybridStep]. *)
Lemma hybridStep_inv (fuel : nat) (input : RouterFacadeInput) (every count : Z)
  (st : HybridState) (i : Z) (step : RouterStep) (st' : HybridState) :
  hybridStep localeCompare fuel input every count st i step = Some st' ->
  exists e : RouteDebugTrace,
    hybridTrace st' = hybridTrace st ++ [e] /\
    stepIndex e = i /\
    accepted e = default false (step_accepted step) /\
    let c := if accepted e then acceptedSinceElk st + 1 else acceptedSinceElk st in
    (is_Some (elkCost e) <->
       is_Some (step_elk step) /\ (every <= c \/ i = count - 1)) /\
    (is_Some (elkCost e) -> acceptedSinceElk st' = 0) /\
    (elkCost e = None -> acceptedSinceElk st' = c).
Proof.
  unfold hybridStep. intros H.
  destruct (routeDraft localeCompare fuel (step_draft step)) as [draft |];
    [| discriminate].
  cbn [mbind option_bind] in H.
  set (a := default false (step_accepted step)) in *.
  set (c := if a then acceptedSinceElk st + 1 else acceptedSinceElk st) in *.
  assert (Hnone : ~ is_Some (@None RouteCost)) by (intros [? ?]; discriminate).
  destruct (step_elk step) as [e |] eqn:Eelk.
  - rewrite bool_decide_eq_true_2 in H by eauto. cbn [andb] in H.
    destruct ((every <=? c) || (i =? count - 1)) eqn:Efire.
    + destruct (ElkRouter.routeElk localeCompare fuel _) as [r |]; [| discriminate].
      cbn [mbind option_bind option_map] in H. injection H as <-.
      eexists. cbn [hybridTrace acceptedSinceElk]. split; [reflexivity |].
      cbn [stepIndex accepted elkCost option_map]. fold a c.
      apply orb_true_iff in Efire. rewrite Z.leb_le, Z.eqb_eq in Efire.
      split; [reflexivity |]. split; [reflexivity |].
      split; [| split]; [split | |]; intros; eauto; discriminate.
    + cbn [mbind option_bind option_map] in H. injection H as <-.
      eexists. cbn [hybridTrace acceptedSinceElk]. split; [reflexivity |].
      cbn [stepIndex accepted elkCost option_map]. fold a c.
      apply orb_false_iff in Efire. rewrite Z.leb_gt, Z.eqb_neq in Efire.
      split; [reflexivity |]. split; [reflexivity |].
      split; [| split]; [split | |]; intros; eauto; try contradiction.
      exfalso. lia.
  - rewrite bool_decide_eq_false_2 in H by (intros [? ?]; discriminate).
    cbn [andb mbind option_bind option_map] in H. injection H as <-.
    eexists. cbn [hybridTrace acceptedSinceElk]. split; [reflexivity |].
    cbn [stepIndex accepted elkCost option_map]. fold a c.
    split; [reflexivity |]. split; [reflexivity |].
    split; [| split]; [split | |]; intros; eauto; try contradiction.
    exfalso. destruct H as [[? ?] _]. discriminate.
Qed.

Lemma hybridLoop_schedule (fuel : nat) (input : RouterFacadeInput) (every count : Z)
  (steps : list RouterStep) (st : HybridState) (i : Z) (st' : HybridState) :
  hybridLoop localeCompare fuel input every count st i steps = Some st' ->
  Forall (fun s => is_Some (step_elk s)) steps ->
  exists new : list RouteDebugTrace,
    hybridTrace st' = hybridTrace st ++ new /\
    map elkInvoked new
    = schedule every count (acceptedSinceElk st) i (acceptedFlags steps) /\
    map stepIndex new = seqZ i (Z.of_nat (length steps)).
Proof.
  revert st i. induction steps as [| step steps IH]; intros st i.
  - cbn [hybridLoop]. intros [= <-] _. exists []. now rewrite app_nil_r.
  - cbn [hybridLoop]. intros H Hall.
    apply Forall_cons in Hall as [Helk Hall].
    destruct (hybridStep localeCompare fuel input every count st i step)
      as [st1 |] eqn:E; [| discriminate].
    cbn [mbind option_bind] in H.
    apply hybridStep_inv in E.
    destruct E as (e & Htr & Hidx & Hacc & Hfire & Hreset & Hkeep).
    destruct (IH _ _ H Hall) as (new & Htr' & Hsched & Hidxs).
    exists (e :: new). rewrite Htr', Htr, <- app_assoc. split; [reflexivity |].
    cbn [map acceptedFlags schedule length]. fold (acceptedFlags steps).
    rewrite <- Hacc.
    set (c := if accepted e then acceptedSinceElk st + 1 else acceptedSinceElk st) in *.
    assert (Hinv : elkInvoked e = (every <=? c) || (i =? count - 1)).
    { unfold elkInvoked.
      destruct ((every <=? c) || (i =? count - 1)) eqn:Efire.
      - apply bool_decide_eq_true_2, Hfire. split; [exact Helk |].
        apply orb_true_iff in Efire. now rewrite Z.leb_le, Z.eqb_eq in Efire.
      - apply bool_decide_eq_false_2. intros Hs. apply Hfire in Hs as [_ Hs].
        apply orb_false_iff in Efire. rewrite Z.leb_gt, Z.eqb_neq in Efire. lia. }
    split.
    + rewrite <- Hinv. f_equal. rewrite Hsched. f_equal.
      unfold elkInvoked. destruct (elkCost e) as [k |] eqn:Ek.
      * rewrite bool_decide_eq_true_2 by eauto. apply Hreset. eauto.
      * rewrite bool_decide_eq_false_2 by (intros [? ?]; discriminate).
        now apply Hkeep.
    + rewrite Hidx, Hidxs. rewrite Nat2Z.inj_succ, (seqZ_cons i) by lia.
      f_equal. f_equal; lia.
Qed.

(** C9 (amended). In hybrid mode a step calls the precise router only
    when the step carries one and either the accepted steps counted since
    the last call (the current step included) have reached the cadence,
    which is [max 1 (floor hybridRescoreEveryAccepted)] and 10 by default,
    or the step is the last one; every call resets the counter to 0 and a
    step without a call leaves the count standing.  On 12 steps that all
    carry a precise router, 10 of them accepted, with cadence 10, the
    precise router runs at the step of the 10th acceptance and at the last
    step, and at no other step: twice when the 10th acceptance comes before
    the last step, once when the last step is the 10th acceptance. *)
Theorem hybrid_rescoring_cadence (fuel : nat) (input : RouterFacadeInput) :
  let steps := default [step input] (stepsForHybrid input) in
  let every :=
    Z.max 1 (Qfloor (default (10 # 1) (hybridRescoreEveryAccepted input))) in
  let count := Z.of_nat (length steps) in
  1 <= every /\
  (hybridRescoreEveryAccepted input = None -> every = 10) /\
  (forall (st : HybridState) (i : Z) (s : RouterStep) (st' : HybridState),
     hybridStep localeCompare fuel input every count st i s = Some st' ->
     exists e : RouteDebugTrace,
       hybridTrace st' = hybridTrace st ++ [e] /\
       stepIndex e = i /\
       accepted e = default false (step_accepted s) /\
       let c := if accepted e then acceptedSinceElk st + 1 else acceptedSinceElk st in
       (is_Some (elkCost e) <->
          is_Some (step_elk s) /\ (every <= c \/ i = count - 1)) /\
       (is_Some (elkCost e) -> acceptedSinceElk st' = 0) /\
       (elkCost e = None -> acceptedSinceElk st' = c)) /\
  (forall res : RouterFacadeResult,
     runHybrid localeCompare fuel input = Some res ->
     length steps = 12%nat ->
     Forall (fun s => is_Some (step_elk s)) steps ->
     countTrue (acceptedFlags steps) = 10%nat ->
     every = 10 ->
     length (trace res) = 12%nat /\
     (forall (i : nat) (e : RouteDebugTrace),
        trace res !! i = Some e ->
        stepIndex e = Z.of_nat i /\
        (is_Some (elkCost e) <->
           i = nthAccepted 10 0 (acceptedFlags steps) \/ i = 11%nat)) /\
     countTrue (map elkInvoked (trace res))
     = if bool_decide (nthAccepted 10 0 (acceptedFlags steps) = 11%nat)
       then 1%nat else 2%nat).
Proof.
  intros steps every count.
  split; [subst every; lia |].
  split; [intros Hnone; subst every; rewrite Hnone; reflexivity |].
  split; [intros st i s st'; apply hybridStep_inv |].
  intros res Hrun Hlen Hall Hcount Hevery.
  unfold runHybrid in Hrun. fold steps in Hrun. fold every in Hrun.
  destruct (head steps) as [first |]; [| discriminate].
  cbn [mbind option_bind] in Hrun.
  destruct (routeDraft localeCompare fuel (step_draft first)) as [sel |];
    [| discriminate].
  cbn [mbind option_bind] in Hrun.
  destruct (hybridLoop localeCompare fuel input every _ _ 0 steps)
    as [final |] eqn:Eloop; [| discriminate].
  cbn [mbind option_bind] in Hrun. injection Hrun as <-. cbn [trace].
  apply hybridLoop_schedule in Eloop; [| exact Hall].
  destruct Eloop as (new & Htr & Hsched & Hidxs).
  cbn [hybridTrace acceptedSinceElk app] in Htr, Hsched. rewrite Htr.
  rewrite Hevery, Hlen in Hsched. change (Z.of_nat 12) with 12 in Hsched.
  destruct (scenario_schedule (acceptedFlags steps)) as [Hpattern Hnumber];
    [unfold acceptedFlags; now rewrite length_map | exact Hcount |].
  rewrite Hsched, Hnumber. rewrite Hpattern in Hsched.
  rewrite Hlen in Hidxs.
  assert (Hnew : length new = 12%nat).
  { apply (f_equal length) in Hidxs. now rewrite length_map in Hidxs. }
  split; [exact Hnew |]. split; [| reflexivity].
  intros i e He.
  assert (Hi : (i < 12)%nat) by (apply lookup_lt_Some in He; lia).
  split.
  - apply (f_equal (fun l => l !! i)) in Hidxs.
    rewrite list_lookup_fmap, He in Hidxs. cbn [fmap option_fmap option_map] in Hidxs.
    rewrite lookup_seqZ_lt in Hidxs by lia. injection Hidxs as ->. lia.
  - apply (f_equal (fun l => l !! i)) in Hsched.
    rewrite !list_lookup_fmap, He in Hsched.
    rewrite lookup_seq_lt in Hsched by lia.
    cbn [fmap option_fmap option_map] in Hsched. injection Hsched as Hsched.
    unfold elkInvoked in Hsched. cbn [Nat.add] in Hsched.
    etransitivity; [symmetry; apply bool_decide_eq_true |].
    rewrite Hsched. apply bool_decide_eq_true.
Qed.

End FacadeFacts.

Section RouterExamples.

Import Router Facade.

Lemma codeUnitCompare_le (a b : string) :
  codeUnitCompare a b <= 0 <-> a = b \/ String_as_OT.lt a b.
Proof.
  unfold codeUnitCompare.
  destruct (String.compare a b) eqn:E.
  - apply String.compare_eq_iff in E. intuition lia.
  - apply String_as_OT.cmp_lt in E. intuition lia.
  - split; [lia |]. intros [-> | Hlt].
    + assert (String.compare b b = Eq) by now apply String_as_OT.cmp_eq.
      congruence.
    + apply String_as_OT.cmp_lt in Hlt. unfold String_as_OT.cmp in Hlt. congruence.
Qed.

Lemma codeUnitCompare_total (a b : string) :
  codeUnitCompare a b <= 0 \/ codeUnitCompare b a <= 0.
Proof.
  unfold codeUnitCompare. rewrite (String.compare_antisym a b).
  destruct (String.compare b a); cbn [CompOpp]; lia.
Qed.

Lemma codeUnitCompare_trans (a b c : string) :
  codeUnitCompare a b <= 0 -> codeUnitCompare b c <= 0 -> codeUnitCompare a c <= 0.
Proof.
  intros Hab Hbc. apply codeUnitCompare_le in Hab, Hbc. apply codeUnitCompare_le.
  destruct Hab as [-> | Hab]; [exact Hbc |].
  destruct Hbc as [<- | Hbc]; [now right |].
  right. now apply String_as_OT.lt_trans with b.
Qed.

Lemma codeUnitCompare_antisym (a b : string) :
  codeUnitCompare a b <= 0 -> codeUnitCompare b a <= 0 -> a = b.
Proof.
  intros Hab Hba. apply codeUnitCompare_le in Hab, Hba.
  destruct Hab as [-> | Hab]; [reflexivity |].
  destruct Hba as [-> | Hba]; [reflexivity |].
  exfalso. apply (String_as_OT.lt_not_eq a a); [| reflexivity].
  now apply String_as_OT.lt_trans with b.
Qed.

Lemma routeDraft_input_order_witness :
  routeDraft codeUnitCompare 200
    (withEdges crossingEdges (reverse (edges crossingEdges)))
  = routeDraft codeUnitCompare 200 crossingEdges /\
  is_Some (routeDraft codeUnitCompare 200 crossingEdges).
Proof.
  split.
  - apply (routeDraft_input_order codeUnitCompare 200 crossingEdges
             (reverse (edges crossingEdges))
             codeUnitCompare_total codeUnitCompare_trans).
    + cbn [edges crossingEdges fmap list_fmap id].
      apply NoDup_cons. split; [| apply NoDup_singleton].
      intros Hin. apply list_elem_of_singleton in Hin. discriminate Hin.
    + intros a b _ _. apply codeUnitCompare_antisym.
    + apply reverse_Permutation.
  - vm_compute. eauto.
Defined.

Lemma ignorableCompare_total (a b : string) :
  ignorableCompare a b <= 0 \/ ignorableCompare b a <= 0.
Proof. apply codeUnitCompare_total. Qed.

Lemma ignorableCompare_trans (a b c : string) :
  ignorableCompare a b <= 0 -> ignorableCompare b c <= 0 -> ignorableCompare a c <= 0.
Proof. apply codeUnitCompare_trans. Qed.

(** C8 as stated fails: under a collation that is a total preorder and
    ignores U+0001 the identifiers "a" and "a" followed by U+0001 are
    different and compare as equal, the stable sort keeps them in input
    order, and reversing the two edges changes which of them is routed
    first: the routes differ and the total cost goes from 47 to 52. *)
Lemma routeDraft_input_order_counterexample :
  NoDup (id <$> edges tiedEdges) /\
  (forall a b : string, ignorableCompare a b <= 0 \/ ignorableCompare b a <= 0) /\
  (forall a b c : string,
     ignorableCompare a b <= 0 -> ignorableCompare b c <= 0 ->
     ignorableCompare a c <= 0) /\
  reverse (edges tiedEdges) ≡ₚ edges tiedEdges /\
  option_map cost (routeDraft ignorableCompare 200 tiedEdges)
  = Some (mkRouteCost 12 3 1 47) /\
  option_map cost
    (routeDraft ignorableCompare 200 (withEdges tiedEdges (reverse (edges tiedEdges))))
  = Some (mkRouteCost 12 4 1 52) /\
  routeDraft ignorableCompare 200 (withEdges tiedEdges (reverse (edges tiedEdges)))
  <> routeDraft ignorableCompare 200 tiedEdges.
Proof.
  split.
  { cbn [edges tiedEdges fmap list_fmap id].
    apply NoDup_cons. split; [| apply NoDup_singleton].
    intros Hin. apply list_elem_of_singleton in Hin. discriminate Hin. }
  split; [exact ignorableCompare_total |].
  split; [exact ignorableCompare_trans |].
  split; [apply reverse_Permutation |].
  split; [vm_compute; reflexivity |].
  split; [vm_compute; reflexivity |].
  intros E. apply (f_equal (option_map cost)) in E.
  vm_compute in E. discriminate E.
Qed.


(** Two rescorings when the 10th acceptance comes before the last step. *)
Example hybrid_rescoring_cadence_example :
  option_map (fun res => map elkInvoked (trace res))
    (runHybrid codeUnitCompare 50 twelveSteps)
  = Some [false; false; false; false; false; false; false; false; false; false;
          true; true].
Proof. vm_compute. reflexivity. Qed.

(** C9 as stated fails: 12 steps, 10 of them accepted, cadence 10, a
    precise router on every step, and the only rescoring is the one of the
    last step, where the 10th acceptance is reached; there is no second
    one. *)
Lemma hybrid_rescoring_counterexample :
  length (default [] (stepsForHybrid twelveStepsLastAccepted)) = 12%nat /\
  countTrue (acceptedFlags (default [] (stepsForHybrid twelveStepsLastAccepted)))
  = 10%nat /\
  forallb (fun s => bool_decide (is_Some (step_elk s)))
    (default [] (stepsForHybrid twelveStepsLastAccepted)) = true /\
  hybridRescoreEveryAccepted twelveStepsLastAccepted = Some (10 # 1) /\
  option_map (fun res => map elkInvoked (trace res))
    (runHybrid codeUnitCompare 50 twelveStepsLastAccepted)
  = Some [false; false; false; false; false; false; false; false; false; false;
          false; true].
Proof. repeat split; vm_compute; reflexivity. Qed.

End RouterExamples.

(** ** Part IV: further properties of the code *)

(** *** The annealing engine, continued *)

Section EngineExtra.

Import Engine.

Variable exp : Q -> Q.

Lemma acceptMove_iteration (st cand : AnnealState) :
  iteration (after (acceptMove exp st cand)) = iteration (snap st) + 1.
Proof.
  unfold acceptMove.
  repeat match goal with
  | |- context [match ?x with _ => _ end] => destruct x
  end; reflexivity.
Qed.

Lemma stepAnneal_iteration (fuel : nat) (st : AnnealState) (t : AnnealTransition)
  (st' : AnnealState) :
  stepAnneal exp fuel st = Some (t, st') ->
  iteration (before t) = iteration (snap st) /\
  iteration (after t) = iteration (snap st) + 1 /\
  iteration (snap st') = iteration (snap st) + 1.
Proof.
  intros H. apply stepAnneal_inv in H.
  destruct H as (m & cand & _ & _ & _ & Hb & Ha & _ & _ & _ & Hs & _).
  rewrite Hs, Hb, Ha, acceptMove_iteration. auto.
Qed.

Lemma runLoop_iteration (fuel steps : nat) (st : AnnealState)
  (ts : list AnnealTransition) (final : AnnealState) :
  runLoop exp fuel steps st = Some (ts, final) ->
  length ts = steps /\
  iteration (snap final) = iteration (snap st) + Z.of_nat steps /\
  map (fun t => iteration (before t)) ts = seqZ (iteration (snap st)) (Z.of_nat steps) /\
  map (fun t => iteration (after t)) ts
  = seqZ (iteration (snap st) + 1) (Z.of_nat steps).
Proof.
  revert st ts final. induction steps as [| steps IH]; intros st ts final.
  - cbn [runLoop]. intros [= <- <-]. cbn. repeat split; lia.
  - intros H. apply runLoop_S_inv in H.
    destruct H as (t & st1 & rest & E & E1 & ->).
    apply stepAnneal_iteration in E. destruct E as (Hb & Ha & Hs).
    destruct (IH _ _ _ E1) as (Hlen & Hfin & Hbefore & Hafter).
    rewrite Hs in Hfin, Hbefore, Hafter.
    rewrite Nat2Z.inj_succ, !(seqZ_cons _ (Z.succ _)) by lia.
    rewrite Z.pred_succ. cbn [map length].
    rewrite Hb, Ha, Hbefore, Hafter, Hlen.
    repeat split; try reflexivity; try lia.
Qed.

(** X1. [iteration] starts at 0 and grows by exactly 1 with every step,
    accepted or not: after a run of [N] steps the session is at iteration
    [N], and the [k]-th transition (from 0) goes from iteration [k] to
    [k + 1]. *)
Theorem run_iteration_counter (p : AnnealProblem) (seed0 : Z) (budget : Q)
  (fuel : nat) (ts : list AnnealTransition) (final : AnnealState) :
  runAnneal exp fuel (initializeAnneal p seed0) budget = Some (ts, final) ->
  iteration (snap final) = Z.of_nat (length ts) /\
  map (fun t => iteration (before t)) ts = seqZ 0 (Z.of_nat (length ts)) /\
  map (fun t => iteration (after t)) ts = seqZ 1 (Z.of_nat (length ts)).
Proof.
  unfold runAnneal. intros H. apply runLoop_iteration in H.
  destruct H as (Hlen & Hfin & Hb & Ha). rewrite Hlen.
  change (iteration (snap (initializeAnneal p seed0))) with 0 in *.
  auto.
Qed.

Lemma runLoop_chained (fuel steps : nat) (st : AnnealState)
  (ts : list AnnealTransition) (final : AnnealState) :
  runLoop exp fuel steps st = Some (ts, final) ->
  chained (snap st) ts /\ snap final = lastSnapshot (snap st) ts.
Proof.
  revert st ts final. induction steps as [| steps IH]; intros st ts final.
  - cbn [runLoop]. intros [= <- <-]. split; [exact I | reflexivity].
  - intros H. apply runLoop_S_inv in H.
    destruct H as (t & st1 & rest & E & E1 & ->).
    apply stepAnneal_inv in E.
    destruct E as (m & cand & _ & _ & _ & Hb & _ & _ & _ & _ & Hs & _).
    destruct (IH _ _ _ E1) as (Hch & Hfin). rewrite Hs in Hch, Hfin.
    unfold lastSnapshot in *. cbn [chained foldl]. auto.
Qed.

(** X2. The transitions of a run chain: the first [before] is the
    snapshot of the initialised session, every later [before] is the
    [after] of the transition that precedes it, and the session ends on the
    [after] of the last transition. *)
Theorem run_snapshots_chain (p : AnnealProblem) (seed0 : Z) (budget : Q)
  (fuel : nat) (ts : list AnnealTransition) (final : AnnealState) :
  runAnneal exp fuel (initializeAnneal p seed0) budget = Some (ts, final) ->
  chained (snap (initializeAnneal p seed0)) ts /\
  snap final = lastSnapshot (snap (initializeAnneal p seed0)) ts.
Proof. unfold runAnneal. apply runLoop_chained. Qed.

End EngineExtra.

Section LayoutMoves.

Import Engine.

Lemma splice_perm (arr : list Z) (start deleteCount : Z) (items : list Z) :
  fst (splice arr start deleteCount items) ++ snd (splice arr start deleteCount items)
  ≡ₚ arr ++ items.
Proof.
  unfold splice. cbn [fst snd].
  set (len := Z.of_nat (length arr)).
  set (s := if start <? 0 then Z.max (len + start) 0 else Z.min start len).
  set (d := Z.min (Z.max deleteCount 0) (len - s)).
  assert (Hs : 0 <= s <= len) by (subst s len; destruct (Z.ltb_spec start 0); lia).
  assert (Hd : 0 <= d) by (subst d; lia).
  rewrite Z2Nat.inj_add by lia.
  rewrite <- drop_drop.
  rewrite <- (take_drop (Z.to_nat s) arr) at 4.
  rewrite <- (take_drop (Z.to_nat d) (drop (Z.to_nat s) arr)) at 3.
  generalize (take (Z.to_nat s) arr) (take (Z.to_nat d) (drop (Z.to_nat s) arr))
    (drop (Z.to_nat d) (drop (Z.to_nat s) arr)).
  intros l1 l2 l3. solve_Permutation.
Qed.

Lemma splice_remove_perm (arr : list Z) (start deleteCount : Z)
  (removed rest : list Z) :
  splice arr start deleteCount [] = (removed, rest) -> removed ++ rest ≡ₚ arr.
Proof.
  intros H. pose proof (splice_perm arr start deleteCount []) as Hp.
  rewrite H, app_nil_r in Hp. exact Hp.
Qed.

Lemma splice_insert_perm (arr : list Z) (start : Z) (items : list Z) :
  snd (splice arr start 0 items) ≡ₚ items ++ arr.
Proof.
  pose proof (splice_perm arr start 0 items) as Hp.
  assert (Hnone : fst (splice arr start 0 items) = []).
  { unfold splice. cbn [fst].
    replace (Z.min (Z.max 0 0) _) with 0
      by (destruct (Z.ltb_spec start 0); lia).
    reflexivity. }
  rewrite Hnone in Hp. cbn [app] in Hp. rewrite Hp. apply Permutation_app_comm.
Qed.

Lemma insert_entry_perm (l : list Z) (j : nat) (x vj : Z) :
  l !! j = Some vj -> vj :: <[ j := x ]> l ≡ₚ x :: l.
Proof.
  revert j. induction l as [| y l IH]; intros j Hj; [discriminate |].
  destruct j as [| j].
  - injection Hj as ->. cbn [insert list_insert]. apply Permutation_swap.
  - cbn [insert list_insert]. cbn [lookup list_lookup] in Hj.
    rewrite (Permutation_swap y vj), (IH _ Hj). apply Permutation_swap.
Qed.

Lemma swap_entries_perm (l : list Z) (i j : nat) (vi vj : Z) :
  l !! i = Some vi -> l !! j = Some vj ->
  <[ j := vi ]> (<[ i := vj ]> l) ≡ₚ l.
Proof.
  revert i j. induction l as [| x l IH]; intros i j Hi Hj; [discriminate |].
  destruct i as [| i], j as [| j];
    cbn [insert list_insert]; cbn [lookup list_lookup] in Hi, Hj.
  - injection Hi as ->. reflexivity.
  - injection Hi as ->. now apply insert_entry_perm.
  - injection Hj as ->. now apply insert_entry_perm.
  - constructor. now apply IH.
Qed.

Lemma at_index_Some (l : list Z) (i v : Z) :
  at_index l i = Some v -> 0 <= i /\ l !! Z.to_nat i = Some v.
Proof.
  unfold at_index. destruct (Z.ltb_spec i 0); [discriminate |]. auto.
Qed.

Lemma applyLayout_effect (l : list Z) (m : AnnealMove) (l' : list Z) :
  applyLayout l m = Some l' ->
  length l' = length l /\
  match m with
  | nudge index delta _ =>
      (forall j : nat, j <> Z.to_nat index -> l' !! j = l !! j) /\
      (l <> [] -> l' !! Z.to_nat index = (fun v => v + delta) <$> l !! Z.to_nat index)
  | _ => l' ≡ₚ l
  end.
Proof.
  destruct m as [index delta r | a b r | from to r | start end_ shift r];
    cbn [applyLayout].
  - destruct (Z.ltb_spec 0 (Z.of_nat (length l))) as [Hlen | Hlen].
    + destruct (at_index l index) as [v |] eqn:Ev; [| discriminate].
      cbn [mbind option_bind]. intros [= <-].
      apply at_index_Some in Ev as [Hi Hv].
      rewrite length_insert. split; [reflexivity |]. split.
      * intros j Hj. now apply list_lookup_insert_ne.
      * intros _. rewrite Hv. cbn [fmap option_fmap option_map].
        apply list_lookup_insert_eq. now apply lookup_lt_Some in Hv.
    + intros [= <-]. split; [reflexivity |]. split; [reflexivity |].
      intros Hne. destruct l; [contradiction | cbn [length] in Hlen; lia].
  - destruct (1 <? Z.of_nat (length l)).
    + destruct (at_index l a) as [va |] eqn:Ea; [| discriminate].
      cbn [mbind option_bind].
      destruct (at_index l b) as [vb |] eqn:Eb; [| discriminate].
      cbn [mbind option_bind]. intros [= <-].
      apply at_index_Some in Ea as [_ Ha]. apply at_index_Some in Eb as [_ Hb].
      rewrite !length_insert. split; [reflexivity |].
      now apply swap_entries_perm.
    + intros [= <-]. split; reflexivity.
  - destruct (1 <? Z.of_nat (length l)); [| intros [= <-]; split; reflexivity].
    destruct (splice l from 1 []) as [removed rest] eqn:Es.
    destruct (removed !! 0%nat) as [item |] eqn:Ei; [| discriminate].
    cbn [mbind option_bind]. intros [= <-].
    assert (Hremoved : removed = [item]).
    { pose proof Es as Es'. unfold splice in Es'. injection Es' as Et _.
      destruct removed as [| y [| z tl]].
      - discriminate.
      - cbn in Ei. congruence.
      - exfalso. apply (f_equal length) in Et. rewrite length_take in Et.
        cbn [length] in Et. lia. }
    subst removed. apply splice_remove_perm in Es.
    assert (Hperm : snd (splice rest (Z.min to (Z.of_nat (length rest))) 0 [item]) ≡ₚ l).
    { now rewrite splice_insert_perm. }
    split; [now apply Permutation_length | exact Hperm].
  - destruct (_ && _); [| intros [= <-]; split; reflexivity].
    destruct (splice l _ _ []) as [block rest] eqn:Es.
    intros [= <-].
    assert (Hperm : snd (splice rest
                      (Z.max 0 (Z.min (Z.max 0 (Z.min start (Z.of_nat (length l) - 1))
                                       + shift) (Z.of_nat (length rest)))) 0 block) ≡ₚ l).
    { rewrite splice_insert_perm. now apply splice_remove_perm in Es. }
    split; [now apply Permutation_length | exact Hperm].
Qed.

(** X3. A move that reads and writes inside the array keeps the number of
    layout elements: [swap], [reinsert] and [blockShift] only rearrange the
    layout ([blockShift] clamps its indices and [reinsert] its destination
    themselves), and [nudge] adds [delta] to the entry at [index] and
    touches no other entry. *)
Theorem applyLayout_rearranges (l : list Z) (m : AnnealMove) (l' : list Z) :
  applyLayout l m = Some l' ->
  length l' = length l /\
  match m with
  | nudge index delta _ =>
      (forall j : nat, j <> Z.to_nat index -> l' !! j = l !! j) /\
      (l <> [] -> l' !! Z.to_nat index = (fun v => v + delta) <$> l !! Z.to_nat index)
  | _ => l' ≡ₚ l
  end.
Proof. apply applyLayout_effect. Qed.

End LayoutMoves.

Section SessionInvariants.

Import Engine.

Variable exp : Q -> Q.

Lemma costBreakdown_eta (c : CostBreakdown) : mkCost (total c) (components c) = c.
Proof. now destruct c. Qed.

(** The snapshot a decision leaves: the candidate's layout and cost when
    accepted, the current ones otherwise. *)
Lemma acceptMove_after (st cand : AnnealState) :
  let t := acceptMove exp st cand in
  layout (after t) = layout (if accepted t then snap cand else snap st) /\
  costBreakdown (after t)
  = costBreakdown (if accepted t then snap cand else snap st) /\
  (accepted t = false -> reason t = rejected /\ (0 < deltaCost t)%Q) /\
  (accepted t = true -> reason t <> rejected) /\
  deltaCost t
  = (total (costBreakdown (snap cand)) - total (costBreakdown (snap st)))%Q.
Proof.
  cbv zeta. unfold acceptMove.
  set (d := (total (costBreakdown (snap cand)) - total (costBreakdown (snap st)))%Q).
  destruct (Qltb d 0) eqn:Hlt.
  - cbn [after accepted reason deltaCost layout costBreakdown].
    rewrite costBreakdown_eta. repeat split; discriminate.
  - destruct (Qeq_bool d 0) eqn:Heq.
    + cbn [after accepted reason deltaCost layout costBreakdown].
      rewrite costBreakdown_eta. repeat split; discriminate.
    + destruct (nextRng (rngState (snap cand))) as [u r].
      destruct (Qltb u _);
        cbn [after accepted reason deltaCost layout costBreakdown];
        rewrite costBreakdown_eta; repeat split; try discriminate.
      apply Qltb_ge in Hlt. apply Qle_lteq in Hlt as [Hpos | Hzero]; [exact Hpos |].
      symmetry in Hzero. apply Qeq_bool_iff in Hzero. congruence.
Qed.

Lemma applyMove_inv (st : AnnealState) (m : AnnealMove) (cand : AnnealState) :
  applyMove st m = Some cand ->
  exists l' : list Z,
    applyLayout (layout (snap st)) m = Some l' /\
    layout (snap cand) = l' /\
    costBreakdown (snap cand) = evaluateCost (problem st) l' /\
    problem cand = problem st.
Proof.
  unfold applyMove. intros H.
  destruct (applyLayout (layout (snap st)) m) as [l' |]; [| discriminate].
  cbn [mbind option_bind] in H. injection H as <-. exists l'.
  unfold withSnapshot. cbn [snap layout costBreakdown problem]. auto.
Qed.

(** What a step does to layout and cost. *)
Lemma stepAnneal_effect (fuel : nat) (st : AnnealState) (t : AnnealTransition)
  (st' : AnnealState) :
  stepAnneal exp fuel st = Some (t, st') ->
  exists l' : list Z,
    applyLayout (layout (snap st)) (proposal t) = Some l' /\
    deltaCost t
    = (total (evaluateCost (problem st) l') - total (costBreakdown (snap st)))%Q /\
    if accepted t then
      layout (after t) = l' /\
      costBreakdown (after t) = evaluateCost (problem st) l' /\
      reason t <> rejected
    else
      layout (after t) = layout (snap st) /\
      costBreakdown (after t) = costBreakdown (snap st) /\
      reason t = rejected /\ (0 < deltaCost t)%Q.
Proof.
  intros H. apply stepAnneal_inv in H.
  destruct H as (m & cand & _ & Hc & Hp & _ & Ha & Hd & Hacc & Hr & _).
  apply applyMove_inv in Hc as (l' & Hl' & Hlay & Hcost & _).
  pose proof (acceptMove_after st cand) as (Al & Ac & Arej & Aacc & Ad).
  exists l'. rewrite Hp, Hd, Ha, Hacc, Hr.
  split; [exact Hl' |]. split; [now rewrite Ad, Hcost |].
  rewrite Al, Ac.
  destruct (accepted (acceptMove exp st cand)) eqn:E.
  - rewrite Hlay, Hcost. auto.
  - destruct (Arej eq_refl). auto.
Qed.

(** X4. After a step the transition records either the candidate or the
    current layout: an accepted step stores the layout the proposal
    produces together with its evaluated cost and has a reason other than
    [rejected]; a rejected step keeps layout and cost as they were, has
    reason [rejected] and a [deltaCost] that is neither negative nor zero;
    [deltaCost] is the candidate's total minus the current total in both
    cases. *)
Theorem step_accepts_or_keeps (fuel : nat) (st : AnnealState) (t : AnnealTransition)
  (st' : AnnealState) :
  stepAnneal exp fuel st = Some (t, st') ->
  exists l' : list Z,
    applyLayout (layout (snap st)) (proposal t) = Some l' /\
    deltaCost t
    = (total (evaluateCost (problem st) l') - total (costBreakdown (snap st)))%Q /\
    if accepted t then
      layout (after t) = l' /\
      costBreakdown (after t) = evaluateCost (problem st) l' /\
      reason t <> rejected
    else
      layout (after t) = layout (snap st) /\
      costBreakdown (after t) = costBreakdown (snap st) /\
      reason t = rejected /\
      ~ (deltaCost t < 0)%Q /\ ~ (deltaCost t == 0)%Q.
Proof.
  intros H. destruct (stepAnneal_effect _ _ _ _ H) as (l' & Hl' & Hd & Heff).
  exists l'. split; [exact Hl' |]. split; [exact Hd |].
  destruct (accepted t); [exact Heff |].
  destruct Heff as (Hl & Hc & Hr & Hpos).
  split; [exact Hl |]. split; [exact Hc |]. split; [exact Hr |].
  split; intros Hneg; lra.
Qed.

Lemma reachable_invariants (p : AnnealProblem) (seed0 : Z) (st : AnnealState) :
  reachable exp p seed0 st ->
  problem st = p /\
  costBreakdown (snap st) = evaluateCost p (layout (snap st)) /\
  length (layout (snap st)) = length (initialLayout p) /\
  capacity (transitionBuffer st) = Z.max 1 (default 256 (transitionBufferSize p)) /\
  fullTraceEnabled st = default false (captureFullTrace p) /\
  0 <= iteration (snap st).
Proof.
  induction 1 as [| fuel st t st' _ IH Hstep].
  - unfold initializeAnneal.
    cbn [problem snap costBreakdown layout transitionBuffer makeRingBuffer capacity
         fullTraceEnabled iteration].
    repeat split; reflexivity || lia.
  - destruct IH as (Hp & Hcost & Hlen & Hcap & Hfull & Hiter).
    pose proof (stepAnneal_effect _ _ _ _ Hstep) as (l' & Hl' & _ & Heff).
    pose proof (stepAnneal_iteration exp _ _ _ _ Hstep) as (_ & Hi & _).
    apply stepAnneal_inv in Hstep.
    destruct Hstep as (m & cand & _ & _ & _ & _ & _ & _ & _ & _ & Hs & Hp' & Hf & Hst).
    apply applyLayout_effect in Hl' as [Hl'len _].
    rewrite Hs, Hp', Hf, Hi, Hp.
    assert (Hcap' : capacity (transitionBuffer st') = capacity (transitionBuffer st))
      by (rewrite Hst; reflexivity).
    rewrite Hcap'. rewrite Hp in Heff.
    repeat split; auto; try lia.
    + destruct (accepted t).
      * destruct Heff as (-> & -> & _). reflexivity.
      * destruct Heff as (-> & -> & _). exact Hcost.
    + destruct (accepted t).
      * destruct Heff as (-> & _). congruence.
      * destruct Heff as (-> & _). exact Hlen.
Qed.

(** X5. In every reachable session the stored cost breakdown is
    [evaluateCost] of the stored layout, the layout has as many elements as
    the initial layout, and problem, ring capacity and full-trace switch
    are those fixed by [initializeAnneal]. *)
Theorem session_invariants (p : AnnealProblem) (seed0 : Z) (st : AnnealState) :
  reachable exp p seed0 st ->
  problem st = p /\
  costBreakdown (snap st) = evaluateCost p (layout (snap st)) /\
  length (layout (snap st)) = length (initialLayout p) /\
  capacity (transitionBuffer st) = Z.max 1 (default 256 (transitionBufferSize p)) /\
  fullTraceEnabled st = default false (captureFullTrace p) /\
  0 <= iteration (snap st).
Proof. apply reachable_invariants. Qed.

End SessionInvariants.

Section TraceAndRuns.

Import Engine.

Variable exp : Q -> Q.

Lemma runLoop_fullTrace (fuel steps : nat) (st : AnnealState)
  (ts : list AnnealTransition) (final : AnnealState) :
  runLoop exp fuel steps st = Some (ts, final) ->
  fullTraceEnabled final = fullTraceEnabled st /\
  fullTrace final = if fullTraceEnabled st then fullTrace st ++ ts else fullTrace st.
Proof.
  revert st ts final. induction steps as [| steps IH]; intros st ts final.
  - cbn [runLoop]. intros [= <- <-]. rewrite app_nil_r.
    split; [reflexivity | now destruct (fullTraceEnabled st)].
  - intros H. apply runLoop_S_inv in H.
    destruct H as (t & st1 & rest & E & E1 & ->).
    apply stepAnneal_inv in E.
    destruct E as (m & cand & _ & _ & _ & _ & _ & _ & _ & _ & _ & _ & Hf & Hst).
    destruct (IH _ _ _ E1) as (Hen & Htr). rewrite Hen, Htr, Hf.
    split; [reflexivity |].
    rewrite Hst. unfold appendTransition, withSnapshot.
    cbn [fullTrace fullTraceEnabled].
    destruct (fullTraceEnabled st); [now rewrite <- app_assoc | reflexivity].
Qed.

(** X6. With [captureFullTrace] on, [exportFullTrace] returns every
    transition of the run in step order and the ring export is its tail;
    with it off or absent the full trace stays empty, however long the
    run. *)
Theorem full_trace_records_run (p : AnnealProblem) (seed0 : Z) (budget : Q)
  (fuel : nat) (ts : list AnnealTransition) (final : AnnealState) :
  runAnneal exp fuel (initializeAnneal p seed0) budget = Some (ts, final) ->
  exportFullTrace final = (if default false (captureFullTrace p) then ts else []) /\
  exportTransitionRing final `suffix_of` ts.
Proof.
  unfold runAnneal. intros H. split.
  - apply runLoop_fullTrace in H as [_ H]. unfold exportFullTrace. rewrite H.
    unfold initializeAnneal. cbn [fullTraceEnabled fullTrace].
    now destruct (default false (captureFullTrace p)).
  - apply runLoop_ring with (hist := []) in H; [| apply ring_inv_make; lia].
    destruct H as (Hinv & _ & _). rewrite app_nil_l in Hinv.
    unfold exportTransitionRing.
    pose proof Hinv as (Hc & _ & _ & Hsize & _).
    rewrite (exportLoop_spec _ ts) by (try exact Hinv; lia).
    apply suffix_drop.
Qed.

Lemma runLoop_app (fuel n m : nat) (st : AnnealState) :
  runLoop exp fuel (n + m) st
  = '(ts1, st1) ← runLoop exp fuel n st;
    '(ts2, st2) ← runLoop exp fuel m st1;
    Some (ts1 ++ ts2, st2).
Proof.
  revert st. induction n as [| n IH]; intros st.
  - cbn [Nat.add runLoop mbind option_bind].
    destruct (runLoop exp fuel m st) as [[ts2 st2] |]; reflexivity.
  - cbn [Nat.add runLoop].
    destruct (stepAnneal exp fuel st) as [[t st1] |]; [| reflexivity].
    cbn [mbind option_bind]. rewrite IH.
    destruct (runLoop exp fuel n st1) as [[ts1 st2] |]; [| reflexivity].
    cbn [mbind option_bind].
    destruct (runLoop exp fuel m st2) as [[ts2 st3] |]; reflexivity.
Qed.

(** X7. Runs compose: a run of [n + m] steps is a run of [n] steps
    followed by a run of [m] steps on the session it leaves, the
    transitions of the second appended to those of the first; a budget
    below 1 (zero, negative, a fraction) runs no step and returns the
    session as it is. *)
Theorem runAnneal_composes (fuel : nat) (st : AnnealState) :
  (forall n m : nat,
     runAnneal exp fuel st (inject_Z (Z.of_nat (n + m)))
     = '(ts1, st1) ← runAnneal exp fuel st (inject_Z (Z.of_nat n));
       '(ts2, st2) ← runAnneal exp fuel st1 (inject_Z (Z.of_nat m));
       Some (ts1 ++ ts2, st2)) /\
  (forall budget : Q, (budget < 1)%Q -> runAnneal exp fuel st budget = Some ([], st)).
Proof.
  split.
  - intros n m. unfold runAnneal. rewrite !Qfloor_Z.
    rewrite !Z.max_r, !Nat2Z.id by lia. apply runLoop_app.
  - intros budget Hb. unfold runAnneal.
    assert (Hfloor : Qfloor budget <= 0).
    { assert (Hlt : Qfloor budget < 1); [| lia].
      rewrite Zlt_Qlt. apply Qle_lt_trans with budget; [apply Qfloor_le | exact Hb]. }
    replace (Z.to_nat (Z.max 0 (Qfloor budget))) with 0%nat by lia.
    reflexivity.
Qed.

End TraceAndRuns.

Section Proposals.

Import Engine.

Lemma randInt_bounds (m : Q) (r : AnnealRngState) :
  (Qle_bool m 0 = true -> randInt m r = (0, r)) /\
  (Qle_bool m 0 = false ->
   0 <= fst (randInt m r) /\ (inject_Z (fst (randInt m r)) < m)%Q /\
   snd (randInt m r) = snd (nextRng r)).
Proof.
  unfold randInt. destruct (Qle_bool m 0) eqn:E; split; try discriminate.
  - reflexivity.
  - intros _.
    assert (Hm : (0 < m)%Q).
    { apply Qnot_le_lt. intros Hle. apply Qle_bool_iff in Hle. congruence. }
    pose proof (nextRng_unit_interval r) as [Hu0 Hu1].
    destruct (nextRng r) as [u r']. cbn [fst snd] in *.
    split; [| split; [| reflexivity]].
    + change 0 with (Qfloor 0). apply Qfloor_resp_le.
      apply Qmult_le_0_compat; [exact Hu0 | now apply Qlt_le_weak].
    + apply Qle_lt_trans with (u * m)%Q; [apply Qfloor_le |].
      rewrite <- (Qmult_1_l m) at 2. now apply Qmult_lt_compat_r.
Qed.

(** X8. [randInt] with a positive bound draws once and returns an integer
    from 0 up to, not including, the bound; with a bound that is zero or
    negative it returns 0 and hands the RNG state back untouched. *)
Theorem randInt_in_range (maxExclusive : Q) (r : AnnealRngState) :
  ((maxExclusive <= 0)%Q -> randInt maxExclusive r = (0, r)) /\
  ((0 < maxExclusive)%Q ->
   0 <= fst (randInt maxExclusive r) /\
   (inject_Z (fst (randInt maxExclusive r)) < maxExclusive)%Q /\
   snd (randInt maxExclusive r) = snd (nextRng r)).
Proof.
  destruct (randInt_bounds maxExclusive r) as [Hle Hgt]. split.
  - intros H. apply Hle. now apply Qle_bool_iff.
  - intros H. apply Hgt. destruct (Qle_bool maxExclusive 0) eqn:E; [| reflexivity].
    apply Qle_bool_iff in E. exfalso. exact (Qlt_not_le _ _ H E).
Qed.

Lemma resample_distinct (fuel : nat) (len : Q) (a b : Z) (r : AnnealRngState)
  (b' : Z) (r' : AnnealRngState) :
  resample fuel len a b r = Some (b', r') -> b' <> a.
Proof.
  revert b r. induction fuel as [| fuel IH]; intros b r; cbn [resample].
  - destruct (Z.eqb_spec b a); [discriminate |]. now intros [= <- <-].
  - destruct (Z.eqb_spec b a); [| now intros [= <- <-]].
    destruct (randInt len r) as [b1 r1]. apply IH.
Qed.

Lemma stepMax_positive (x : Q) : Qle_bool (Qmax (1 # 1) x) 0 = false.
Proof.
  destruct (Qle_bool _ 0) eqn:E; [| reflexivity].
  apply Qle_bool_iff in E. exfalso.
  apply (Qlt_not_le 0 (Qmax (1 # 1) x)); [| exact E].
  apply Qlt_le_trans with (1 # 1)%Q; [reflexivity | apply Q.le_max_l].
Qed.

Lemma randInt_value_bounds (m : Q) (r : AnnealRngState) :
  Qle_bool m 0 = false ->
  0 <= fst (randInt m r) /\ (inject_Z (fst (randInt m r)) < m)%Q.
Proof. intros H. destruct (proj2 (randInt_bounds m r) H) as (H0 & H1 & _). auto. Qed.

Lemma no_blockShift_option (n : nat) :
  [TNudge; TSwap; TReinsert] !! n = Some TBlockShift -> False.
Proof. destruct n as [| [| [| n]]]; discriminate. Qed.

Lemma default_false_true (o : option bool) : default false o = true -> o = Some true.
Proof. destruct o as [[|] |]; cbn; congruence. Qed.

Lemma proposeMove_wellFormed (fuel : nat) (st : AnnealState) (m : AnnealMove) :
  proposeMove fuel st = Some m ->
  wellFormedProposal (problem st) (layout (snap st)) m.
Proof.
  unfold proposeMove. intros H.
  set (l := layout (snap st)) in *.
  set (stepMax := Qmax (1 # 1) (default (1 # 1) (maxNudgeStep (problem st)))) in *.
  pose proof (stepMax_positive (default (1 # 1) (maxNudgeStep (problem st)))) as Hstep.
  fold stepMax in Hstep.
  repeat match goal with
  | H : context [randInt (inject_Z (Z.of_nat (length l))) ?r] |- _ =>
      let Hr := fresh "Hr" in
      pose proof (randInt_inRange l r) as Hr;
      destruct (randInt (inject_Z (Z.of_nat (length l))) r) as [? ?];
      cbn [fst] in Hr
  | H : context [randInt ?m ?r] |- _ =>
      let Hb := fresh "Hb" in
      pose proof (randInt_value_bounds m r) as Hb;
      destruct (randInt m r) as [? ?]; cbn [fst] in Hb
  | H : context [match ?x with _ => _ end] |- _ => destruct x eqn:?
  end; simplify_option_eq;
  repeat match goal with
  | H : context [let '(_, _) := ?p in _] |- _ => destruct p
  end; simplify_eq; cbn [wellFormedProposal]; fold stepMax.
  all: try (exfalso; eapply no_blockShift_option; eassumption).
  all: repeat match goal with
       | H : Qle_bool ?m 0 = false, Hb : Qle_bool ?m 0 = false -> _ |- _ =>
           specialize (Hb H)
       | Hb : Qle_bool ?m 0 = false -> _ |- _ =>
           first [ specialize (Hb eq_refl) | clear Hb ]
       end.
  all: repeat match goal with
       | H : _ /\ _ |- _ => destruct H
       | H : (inject_Z _ < 3 # 1)%Q |- _ =>
           change (3 # 1)%Q with (inject_Z 3) in H; rewrite <- Zlt_Qlt in H
       | H : (?a <? ?b) = true |- _ => apply Z.ltb_lt in H
       | H : (?a <? ?b) = false |- _ => apply Z.ltb_ge in H
       end.
  all: try match goal with
       | H : resample _ _ _ _ _ = Some _ |- _ =>
           pose proof (resample_distinct _ _ _ _ _ _ _ H);
           pose proof (resample_inRange _ _ _ _ _ _ _ H)
       end.
  all: try match goal with
       | H : default false _ = true |- _ => apply default_false_true in H
       end.
  all: repeat lazymatch goal with |- _ /\ _ => split end; auto; try lia.
  all: try match goal with
       | |- (inject_Z (Z.abs ((?z + 1) * ?k) - 1) < _)%Q =>
           replace (Z.abs ((z + 1) * k) - 1) with z by lia; assumption
       end.
Qed.

(** X9. A proposed move fits the layout it is proposed for: its indices
    lie in the layout (0 on an empty layout), a [swap] has two different
    indices whenever the layout has more than one element, a [nudge] has a
    non-zero [delta] whose magnitude minus 1 is below
    [max 1 maxNudgeStep], a [blockShift] has [start <= end], a shift of
    -1, 0 or 1, and is proposed only with [enableBlockShift] on. *)
Theorem proposals_well_formed (fuel : nat) (st : AnnealState) (m : AnnealMove) :
  proposeMove fuel st = Some m ->
  wellFormedProposal (problem st) (layout (snap st)) m.
Proof. apply proposeMove_wellFormed. Qed.

End Proposals.

Section NoOpMoves.

Import Engine.

Variable exp : Q -> Q.

(** X10. Degenerate moves do nothing instead of failing: every move
    leaves an empty layout empty, [swap] and [reinsert] leave a one-element
    layout as it is, a [blockShift] by 0 leaves any layout as it is.  In a
    reachable session a step whose proposal leaves the layout unchanged
    leaves layout and cost breakdown as they were, whether the step is
    accepted or rejected. *)
Theorem noop_moves_change_nothing :
  (forall m : AnnealMove, applyLayout [] m = Some []) /\
  (forall (x a b : Z) (r : AnnealRngState), applyLayout [x] (swap a b r) = Some [x]) /\
  (forall (x from to : Z) (r : AnnealRngState),
     applyLayout [x] (reinsert from to r) = Some [x]) /\
  (forall (l : list Z) (start end_ : Z) (r : AnnealRngState),
     applyLayout l (blockShift start end_ 0 r) = Some l) /\
  (forall (p : AnnealProblem) (seed0 : Z) (st : AnnealState) (fuel : nat)
          (t : AnnealTransition) (st' : AnnealState),
     reachable exp p seed0 st ->
     stepAnneal exp fuel st = Some (t, st') ->
     applyLayout (layout (snap st)) (proposal t) = Some (layout (snap st)) ->
     layout (after t) = layout (snap st) /\
     costBreakdown (after t) = costBreakdown (snap st)).
Proof.
  split; [intros [? ? ? | ? ? ? | ? ? ? | ? ? ? ?]; reflexivity |].
  split; [reflexivity |]. split; [reflexivity |].
  split.
  { intros l start end_ r. cbn [applyLayout]. rewrite Z.eqb_refl.
    now rewrite andb_false_r. }
  intros p seed0 st fuel t st' Hreach Hstep Hnoop.
  apply (reachable_invariants exp) in Hreach as (Hp & Hcost & _).
  pose proof (stepAnneal_effect exp _ _ _ _ Hstep) as (l' & Hl' & _ & Heff).
  rewrite Hnoop in Hl'. injection Hl' as <-.
  rewrite Hp, <- Hcost in Heff.
  destruct (accepted t).
  - destruct Heff as (Hl & Hc & _). split; [exact Hl | exact Hc].
  - destruct Heff as (Hl & Hc & _). split; [exact Hl | exact Hc].
Qed.

End NoOpMoves.


Section EngineExtraExamples.

Import Engine.

Lemma run_iteration_counter_witness :
  match runAnneal sampleExp 4 (initializeAnneal sampleProblem 42) (5 # 1) with
  | Some (ts, final) =>
      iteration (snap final) = 5 /\
      map (fun t => iteration (after t)) ts = [1; 2; 3; 4; 5]
  | None => False
  end.
Proof.
  destruct (runAnneal sampleExp 4 _ _) as [[ts final] |] eqn:E;
    [| vm_compute in E; discriminate E].
  pose proof (run_iteration_counter sampleExp sampleProblem 42 (5 # 1) 4 ts final E)
    as (Hfin & _ & Hafter).
  assert (Hlen : length ts = 5%nat)
    by (vm_compute in E; injection E as <- _; reflexivity).
  rewrite Hlen in Hfin, Hafter. split; [exact Hfin | exact Hafter].
Defined.

Lemma run_snapshots_chain_witness :
  match runAnneal sampleExp 4 (initializeAnneal sampleProblem 42) (5 # 1) with
  | Some (ts, final) =>
      chained (snap (initializeAnneal sampleProblem 42)) ts /\
      snap final = lastSnapshot (snap (initializeAnneal sampleProblem 42)) ts
  | None => False
  end.
Proof.
  destruct (runAnneal sampleExp 4 _ _) as [[ts final] |] eqn:E;
    [| vm_compute in E; discriminate E].
  exact (run_snapshots_chain sampleExp sampleProblem 42 (5 # 1) 4 ts final E).
Defined.

(** Shifting the block at positions 1 to 2 of [1, 2, 3, 4, 5] one place to
    the right. *)
Lemma applyLayout_rearranges_witness :
  applyLayout [1; 2; 3; 4; 5] (blockShift 1 2 1 (mkRng 1)) = Some [1; 4; 2; 3; 5] /\
  [1; 4; 2; 3; 5] ≡ₚ [1; 2; 3; 4; 5].
Proof.
  split; [reflexivity |].
  exact (proj2 (applyLayout_rearranges [1; 2; 3; 4; 5] (blockShift 1 2 1 (mkRng 1))
                  [1; 4; 2; 3; 5] eq_refl)).
Defined.

Lemma step_accepts_or_keeps_witness :
  match stepAnneal sampleExp 4 (initializeAnneal sampleProblem 42) with
  | Some (t, _) =>
      applyLayout [4; 2; 7; 1] (proposal t) = Some (layout (after t)) /\
      accepted t = true /\ reason t <> rejected
  | None => False
  end.
Proof.
  destruct (stepAnneal sampleExp 4 _) as [[t st'] |] eqn:E;
    [| vm_compute in E; discriminate E].
  pose proof (step_accepts_or_keeps sampleExp 4 _ t st' E) as (l' & Hl' & _ & H).
  assert (Hacc : accepted t = true)
    by (vm_compute in E; injection E as <- _; reflexivity).
  rewrite Hacc in H. destruct H as (Hl & _ & Hr).
  rewrite Hl. split; [exact Hl' |]. split; [exact Hacc | exact Hr].
Defined.

Lemma session_invariants_witness :
  length (layout (snap (initializeAnneal sampleProblem 42))) = 4%nat /\
  capacity (transitionBuffer (initializeAnneal sampleProblem 42)) = 3.
Proof.
  pose proof (session_invariants sampleExp sampleProblem 42
                (initializeAnneal sampleProblem 42)
                (reach_init sampleExp sampleProblem 42)) as (_ & _ & Hlen & Hcap & _).
  split; [exact Hlen | exact Hcap].
Defined.

Lemma full_trace_records_run_witness :
  match runAnneal sampleExp 4 (initializeAnneal sampleProblem 42) (5 # 1) with
  | Some (ts, final) => exportFullTrace final = ts
  | None => False
  end.
Proof.
  destruct (runAnneal sampleExp 4 _ _) as [[ts final] |] eqn:E;
    [| vm_compute in E; discriminate E].
  exact (proj1 (full_trace_records_run sampleExp sampleProblem 42 (5 # 1) 4
                  ts final E)).
Defined.

Lemma proposals_well_formed_witness :
  match proposeMove 4 (initializeAnneal sampleProblem 42) with
  | Some m => wellFormedProposal sampleProblem [4; 2; 7; 1] m
  | None => False
  end.
Proof.
  destruct (proposeMove 4 _) as [m |] eqn:E; [| vm_compute in E; discriminate E].
  exact (proposals_well_formed 4 (initializeAnneal sampleProblem 42) m E).
Defined.

End EngineExtraExamples.

(** *** The grid router: snapping and blocked cells *)

Section GridFacts.

Import Router.

Lemma Qfloor_div (a b : Z) : 0 < b -> Qfloor (inject_Z a / inject_Z b) = a / b.
Proof.
  intros Hb.
  assert (E : (inject_Z a / inject_Z b == a # Z.to_pos b)%Q).
  { unfold Qeq, Qdiv, Qmult, Qinv, inject_Z. cbn [Qnum Qden].
    destruct b as [| p | p]; try lia. cbn. lia. }
  rewrite (Qfloor_comp _ _ E). cbn [Qfloor]. now rewrite Z2Pos.id.
Qed.

Lemma jsRound_div (a b : Z) :
  0 < b -> jsRound (inject_Z a / inject_Z b) = (2 * a + b) / (2 * b).
Proof.
  intros Hb. unfold jsRound.
  assert (E : (inject_Z a / inject_Z b + (1 # 2) == inject_Z (2 * a + b) / inject_Z (2 * b))%Q).
  { rewrite !inject_Z_plus, !inject_Z_mult.
    assert (~ (inject_Z b == 0)%Q) by (change 0%Q with (inject_Z 0); rewrite inject_Z_injective; lia).
    field. exact H. }
  rewrite (Qfloor_comp _ _ E). apply Qfloor_div. lia.
Qed.

Lemma jsRound_grid (c step : Z) :
  0 < step -> jsRound (inject_Z (c * step) / inject_Z step) = c.
Proof.
  intros Hs. rewrite jsRound_div by exact Hs.
  symmetry. apply (Z.div_unique_pos _ _ c step); lia.
Qed.

Lemma jsRound_near (a step : Z) :
  0 < step ->
  2 * Z.abs (jsRound (inject_Z a / inject_Z step) * step - a) <= step.
Proof.
  intros Hs. rewrite jsRound_div by exact Hs.
  pose proof (Z.div_mod (2 * a + step) (2 * step) ltac:(lia)) as Hdm.
  pose proof (Z.mod_pos_bound (2 * a + step) (2 * step) ltac:(lia)) as Hb.
  set (q := (2 * a + step) / (2 * step)) in *.
  set (r := (2 * a + step) mod (2 * step)) in *.
  lia.
Qed.

Lemma normalize_denormalize (cell : Cell) (step : Z) :
  0 < step -> normalizeToCell (denormalizeFromCell cell step) step = cell.
Proof.
  intros Hs. destruct cell as [cx cy]. unfold normalizeToCell, denormalizeFromCell.
  cbn [x y cell_x cell_y]. now rewrite !jsRound_grid by exact Hs.
Qed.

(** X11. Snapping to the grid: for a positive step, a point that already
    lies on the grid is its own cell's point (cell to point to cell is the
    identity), snapping an arbitrary point moves each coordinate by at most
    half a step, and a point half-way between two grid lines goes to the
    upper one (towards positive infinity, also for negative coordinates). *)
Theorem snap_round_trip (step : Z) :
  0 < step ->
  (forall cell : Cell,
     normalizeToCell (denormalizeFromCell cell step) step = cell) /\
  (forall point : GridPoint,
     2 * Z.abs (x (snap point step) - x point) <= step /\
     2 * Z.abs (y (snap point step) - y point) <= step /\
     snap (snap point step) step = snap point step) /\
  (forall c half : Z,
     2 * half = step ->
     cell_x (normalizeToCell (mkPoint (c * step + half) 0) step) = c + 1).
Proof.
  intros Hs. split; [| split].
  - intros [cx cy]. unfold normalizeToCell, denormalizeFromCell.
    cbn [x y cell_x cell_y]. now rewrite !jsRound_grid by exact Hs.
  - intros [px py]. unfold snap, normalizeToCell, denormalizeFromCell.
    cbn [x y cell_x cell_y].
    split; [now apply jsRound_near |]. split; [now apply jsRound_near |].
    now rewrite !jsRound_grid by exact Hs.
  - intros c half Hhalf. unfold normalizeToCell. cbn [x y cell_x].
    rewrite jsRound_div by lia.
    symmetry. apply (Z.div_unique_pos _ _ (c + 1) 0); lia.
Qed.

Lemma blocked_points_spec (step : Z) (cells : list GridPoint) (b0 : gset Key) (k : Key) :
  k ∈ foldl (fun blocked point => blocked ∪ {[ cellKey (normalizeToCell point step) ]})
        b0 cells
  <-> k ∈ b0 \/ exists p, p ∈ cells /\ k = cellKey (normalizeToCell p step).
Proof.
  revert b0. induction cells as [| p cells IH]; intros b0; cbn [foldl].
  - split; [now left |]. intros [H | (p & Hp & _)]; [exact H | inversion Hp].
  - rewrite IH. rewrite elem_of_union, elem_of_singleton. split.
    + intros [[H | H] | (q & Hq & E)].
      * now left.
      * right. exists p. split; [constructor | exact H].
      * right. exists q. split; [now constructor | exact E].
    + intros [H | (q & Hq & E)]; [now left; left |].
      apply elem_of_cons in Hq as [-> | Hq]; [now left; right |].
      right. now exists q.
Qed.

Lemma blocked_column_spec (cx : Z) (ys : list Z) (b0 : gset Key) (k : Key) :
  k ∈ foldl (fun blocked y => blocked ∪ {[ cellKey (mkCell cx y) ]}) b0 ys
  <-> k ∈ b0 \/ (fst k = cx /\ snd k ∈ ys).
Proof.
  revert b0. induction ys as [| cy ys IH]; intros b0; cbn [foldl].
  - split; [now left |]. intros [H | (_ & H)]; [exact H | inversion H].
  - rewrite IH, elem_of_union, elem_of_singleton, elem_of_cons.
    unfold cellKey. cbn [cell_x cell_y]. destruct k as [kx ky]. cbn [fst snd].
    split.
    + intros [[H | H] | (-> & H)]; [now left | | now right; split; [| right]].
      injection H as -> ->. right. split; [reflexivity | now left].
    + intros [H | (-> & [-> | H])]; [now left; left | now left; right | now right].
Qed.

Lemma blocked_box_spec (xs ys : list Z) (b0 : gset Key) (k : Key) :
  k ∈ foldl (fun blocked x =>
         foldl (fun blocked y => blocked ∪ {[ cellKey (mkCell x y) ]}) blocked ys)
        b0 xs
  <-> k ∈ b0 \/ (fst k ∈ xs /\ snd k ∈ ys).
Proof.
  revert b0. induction xs as [| cx xs IH]; intros b0; cbn [foldl].
  - split; [now left |]. intros [H | (H & _)]; [exact H | inversion H].
  - rewrite IH, blocked_column_spec, elem_of_cons. split.
    + intros [[H | (-> & H)] | (H1 & H2)];
        [now left | now right; split; [left |] | now right; split; [right |]].
    + intros [H | ([-> | H1] & H2)];
        [now left; left | now left; right | now right].
Qed.

Lemma buildBlockedSet_cells_iff (obstacles : list GridRect) (cells : list GridPoint)
  (step pad : Z) (k : Key) :
  k ∈ buildBlockedSet obstacles cells step pad <->
  (exists p, p ∈ cells /\ k = cellKey (normalizeToCell p step)) \/
  (exists o, o ∈ obstacles /\ inPaddedBox o step pad k).
Proof.
  unfold buildBlockedSet.
  set (b0 := foldl _ ∅ cells).
  assert (H0 : k ∈ b0 <-> exists p, p ∈ cells /\ k = cellKey (normalizeToCell p step)).
  { unfold b0. rewrite blocked_points_spec.
    split; [intros [H | H]; [now apply elem_of_empty in H | exact H] | now right]. }
  rewrite <- H0. clearbody b0. clear H0.
  revert b0. induction obstacles as [| o obstacles IH]; intros b0; cbn [foldl].
  - split; [now left |]. intros [H | (o & Ho & _)]; [exact H | inversion Ho].
  - rewrite IH. cbv zeta. rewrite blocked_box_spec, !elem_of_seqZ.
    assert (Hbox : inPaddedBox o step pad k <->
      (Qfloor (inject_Z (rect_x o) / inject_Z step) - pad <= fst k <
       Qfloor (inject_Z (rect_x o) / inject_Z step) - pad +
       (Qceiling (inject_Z (rect_x o + width o) / inject_Z step) + pad -
        (Qfloor (inject_Z (rect_x o) / inject_Z step) - pad) + 1)) /\
      (Qfloor (inject_Z (rect_y o) / inject_Z step) - pad <= snd k <
       Qfloor (inject_Z (rect_y o) / inject_Z step) - pad +
       (Qceiling (inject_Z (rect_y o + height o) / inject_Z step) + pad -
        (Qfloor (inject_Z (rect_y o) / inject_Z step) - pad) + 1)))
      by (unfold inPaddedBox; lia).
    rewrite <- Hbox. split.
    + intros [[H | H] | (q & Hq & H)].
      * now left.
      * right. exists o. split; [constructor | exact H].
      * right. exists q. split; [now constructor | exact H].
    + intros [H | (q & Hq & H)]; [now left; left |].
      apply elem_of_cons in Hq as [-> | Hq]; [now left; right |].
      right. now exists q.
Qed.

(** X12. The blocked set holds exactly the cells of the snapped
    [blockedCells] and, for every obstacle, the cells of its bounding range
    widened by the padding on all four sides; nothing else is blocked, so
    without obstacles and blocked cells the set is empty. *)
Theorem buildBlockedSet_cells (obstacles : list GridRect) (cells : list GridPoint)
  (step pad : Z) (k : Key) :
  k ∈ buildBlockedSet obstacles cells step pad <->
  (exists p, p ∈ cells /\ k = cellKey (normalizeToCell p step)) \/
  (exists o, o ∈ obstacles /\ inPaddedBox o step pad k).
Proof. apply buildBlockedSet_cells_iff. Qed.

Lemma Qfloor_grid_le (a c step : Z) :
  0 < step -> a <= c * step -> Qfloor (inject_Z a / inject_Z step) <= c.
Proof.
  intros Hs Ha. rewrite Qfloor_div by exact Hs.
  apply Z.div_le_upper_bound; lia.
Qed.

Lemma Qceiling_grid_ge (b c step : Z) :
  0 < step -> c * step <= b -> c <= Qceiling (inject_Z b / inject_Z step).
Proof.
  intros Hs Hb. unfold Qceiling.
  assert (E : (- (inject_Z b / inject_Z step) == inject_Z (- b) / inject_Z step)%Q).
  { rewrite inject_Z_opp.
    assert (~ (inject_Z step == 0)%Q)
      by (change 0%Q with (inject_Z 0); rewrite inject_Z_injective; lia).
    field. exact H. }
  rewrite (Qfloor_comp _ _ E), Qfloor_div by exact Hs.
  enough ((- b) / step <= - c) by lia.
  apply Z.div_le_upper_bound; lia.
Qed.

(** X13. With a positive step and a padding that is not negative, every
    cell whose grid point lies on or inside an obstacle rectangle is
    blocked, and so is every cell at most [pad] cells away from such a
    cell in each direction. *)
Theorem obstacle_cells_blocked (obstacles : list GridRect) (cells : list GridPoint)
  (step pad : Z) (o : GridRect) (cell : Cell) (dx dy : Z) :
  0 < step ->
  o ∈ obstacles ->
  rect_x o <= cell_x cell * step <= rect_x o + width o ->
  rect_y o <= cell_y cell * step <= rect_y o + height o ->
  Z.abs dx <= pad -> Z.abs dy <= pad ->
  cellKey (mkCell (cell_x cell + dx) (cell_y cell + dy))
  ∈ buildBlockedSet obstacles cells step pad.
Proof.
  intros Hs Ho [Hx1 Hx2] [Hy1 Hy2] Hdx Hdy.
  apply buildBlockedSet_cells_iff. right. exists o. split; [exact Ho |].
  unfold inPaddedBox, cellKey. cbn [fst snd cell_x cell_y].
  pose proof (Qfloor_grid_le _ _ _ Hs Hx1).
  pose proof (Qfloor_grid_le _ _ _ Hs Hy1).
  pose proof (Qceiling_grid_ge _ _ _ Hs Hx2).
  pose proof (Qceiling_grid_ge _ _ _ Hs Hy2).
  lia.
Qed.

End GridFacts.

(** *** The grid router: path simplification *)

Section SimplifyFacts.

Import Router.

Lemma cellKey_inj (a b : Cell) : cellKey a = cellKey b <-> a = b.
Proof.
  destruct a, b. unfold cellKey. cbn [cell_x cell_y].
  split; [intros [= -> ->]; reflexivity | intros [= -> ->]; reflexivity].
Qed.

Lemma dedupe_fold (acc : list Cell) (a : Cell) (l : list Cell) :
  foldl (fun deduped point =>
    match last deduped with
    | None => deduped ++ [point]
    | Some l =>
        if bool_decide (cellKey l = cellKey point) then deduped
        else deduped ++ [point]
    end) (acc ++ [a]) l
  = acc ++ a :: dedupeFrom a l.
Proof.
  revert acc a. induction l as [| p l IH]; intros acc a; cbn [foldl dedupeFrom].
  - reflexivity.
  - rewrite last_snoc. destruct (bool_decide (cellKey a = cellKey p)).
    + apply IH.
    + rewrite IH. now rewrite <- app_assoc.
Qed.

Lemma dedupe_cons (a : Cell) (l : list Cell) :
  dedupe (a :: l) = a :: dedupeFrom a l.
Proof. unfold dedupe. cbn [foldl last app]. apply (dedupe_fold [] a l). Qed.

Lemma dedupeFrom_same (a : Cell) (l : list Cell) :
  dedupeFrom a (a :: l) = dedupeFrom a l.
Proof. cbn [dedupeFrom]. now rewrite bool_decide_eq_true_2. Qed.

Lemma dedupeFrom_sublist (a : Cell) (l : list Cell) : dedupeFrom a l `sublist_of` l.
Proof.
  revert a. induction l as [| p l IH]; intros a; cbn [dedupeFrom].
  - constructor.
  - destruct (bool_decide _); [apply sublist_cons, IH | apply sublist_skip, IH].
Qed.

Lemma dedupeFrom_last (a : Cell) (l : list Cell) :
  last (a :: dedupeFrom a l) = last (a :: l).
Proof.
  revert a. induction l as [| p l IH]; intros a; cbn [dedupeFrom]; [reflexivity |].
  destruct (bool_decide (cellKey a = cellKey p)) eqn:E.
  - apply bool_decide_eq_true, cellKey_inj in E. subst p.
    rewrite IH. now rewrite !last_cons_cons.
  - rewrite !last_cons_cons. apply IH.
Qed.

Lemma dedupeFrom_noRepeat (a : Cell) (l : list Cell) :
  noRepeat (a :: dedupeFrom a l).
Proof.
  revert a. induction l as [| p l IH]; intros a; cbn [dedupeFrom]; [exact I |].
  destruct (bool_decide (cellKey a = cellKey p)) eqn:E; [apply IH |].
  apply bool_decide_eq_false in E. split; [| apply IH].
  intros ->. now apply E.
Qed.

Lemma simplifyLoop_out (prevDir : option Cell) (prev : Cell) (rest out : list Cell) :
  simplifyLoop prevDir prev rest out = out ++ simplifyLoop prevDir prev rest [].
Proof.
  revert prevDir prev out. induction rest as [| curr rest IH]; intros prevDir prev out;
    cbn [simplifyLoop].
  - now rewrite app_nil_r.
  - destruct (match prevDir with None => true | Some d => _ end).
    + rewrite (IH _ _ (out ++ [prev])), (IH _ _ ([] ++ [prev])).
      now rewrite <- app_assoc.
    + apply IH.
Qed.

Lemma List_last_cons (curr prev : Cell) (rest : list Cell) :
  List.last (curr :: rest) prev = List.last rest curr.
Proof.
  revert curr prev. induction rest as [| c r IH]; intros curr prev; [reflexivity |].
  change (List.last (curr :: c :: r) prev) with (List.last (c :: r) prev).
  now rewrite !IH.
Qed.

Lemma simplifyLoop_sublist (prevDir : option Cell) (prev : Cell) (rest : list Cell) :
  simplifyLoop prevDir prev rest [] ++ [List.last rest prev] `sublist_of` prev :: rest.
Proof.
  revert prevDir prev. induction rest as [| curr rest IH]; intros prevDir prev.
  - cbn. reflexivity.
  - cbn [simplifyLoop].
    rewrite List_last_cons.
    destruct (match prevDir with None => true | Some d => _ end).
    + rewrite simplifyLoop_out. cbn [app]. apply sublist_skip, IH.
    + apply sublist_cons, IH.
Qed.

Lemma last_List_last (rest : list Cell) (prev : Cell) :
  last (prev :: rest) = Some (List.last rest prev).
Proof.
  revert prev. induction rest as [| c r IH]; intros prev; [reflexivity |].
  now rewrite last_cons_cons, IH, List_last_cons.
Qed.

(** The array [out] of [simplifyPath] before its second loop, for a path of
    three or more cells: the first cell twice, the cells where the
    direction changes and the last cell. *)
Lemma simplifyPath_long (first second third : Cell) (rest : list Cell) :
  let path := first :: second :: third :: rest in
  let dir := mkCell (cell_x second - cell_x first) (cell_y second - cell_y first) in
  simplifyPath path
  = first :: dedupeFrom first
      (simplifyLoop (Some dir) second (third :: rest) []
       ++ [List.last (third :: rest) second]).
Proof.
  cbv zeta. unfold simplifyPath.
  rewrite (last_List_last (second :: third :: rest) first).
  cbn [tail].
  change (simplifyLoop None first (second :: third :: rest) [first])
    with (simplifyLoop
            (Some (mkCell (cell_x second - cell_x first) (cell_y second - cell_y first)))
            second (third :: rest) ([first] ++ [first])).
  rewrite (List_last_cons second first).
  set (dir := mkCell _ _).
  rewrite (simplifyLoop_out _ _ _ ([first] ++ [first])).
  cbn [app]. rewrite dedupe_cons, dedupeFrom_same. reflexivity.
Qed.

Lemma simplifyPath_keeps_ends_aux (path : list Cell) :
  head (simplifyPath path) = head path /\
  last (simplifyPath path) = last path /\
  simplifyPath path `sublist_of` path.
Proof.
  destruct path as [| first [| second [| third rest]]];
    try (cbn; repeat split; reflexivity).
  pose proof (simplifyPath_long first second third rest) as E. cbv zeta in E.
  rewrite E. clear E.
  set (dir := mkCell _ _).
  pose proof (simplifyLoop_sublist (Some dir) second (third :: rest)) as Hsub.
  set (kept := simplifyLoop _ _ _ [] ++ _) in *.
  split; [reflexivity |]. split.
  - rewrite dedupeFrom_last.
    rewrite (last_List_last (second :: third :: rest) first).
    rewrite (List_last_cons second first).
    unfold kept. now rewrite app_comm_cons, last_snoc.
  - apply sublist_skip. etransitivity; [apply dedupeFrom_sublist | exact Hsub].
Qed.

(** X14. Simplifying a path keeps its two ends and drops cells in between:
    the result is a subsequence of the path with the same first and the same
    last cell; a path of at most two cells is returned as it is, and the
    result for a longer one never repeats a cell twice in a row. *)
Theorem simplifyPath_keeps_ends (path : list Cell) :
  head (simplifyPath path) = head path /\
  last (simplifyPath path) = last path /\
  simplifyPath path `sublist_of` path /\
  ((length path <= 2)%nat -> simplifyPath path = path) /\
  ((2 < length path)%nat -> noRepeat (simplifyPath path)).
Proof.
  destruct (simplifyPath_keeps_ends_aux path) as (Hh & Hl & Hs).
  split; [exact Hh |]. split; [exact Hl |]. split; [exact Hs |]. split.
  - destruct path as [| first [| second [| third rest]]]; try reflexivity.
    cbn [length]. lia.
  - destruct path as [| first [| second [| third rest]]]; cbn [length]; try lia.
    intros _. pose proof (simplifyPath_long first second third rest) as E.
    cbv zeta in E. rewrite E. apply dedupeFrom_noRepeat.
Qed.

Lemma routeLength_cons (a b : GridPoint) (l : list GridPoint) :
  routeLength (a :: b :: l)
  = Z.abs (x b - x a) + Z.abs (y b - y a) + routeLength (b :: l).
Proof. reflexivity. Qed.

Lemma routeLength_snoc (l : list GridPoint) (a b : GridPoint) :
  routeLength (l ++ [a; b])
  = routeLength (l ++ [a]) + (Z.abs (x b - x a) + Z.abs (y b - y a)).
Proof.
  induction l as [| c l IH].
  - cbn. lia.
  - destruct l as [| d l].
    + cbn. lia.
    + change ((c :: d :: l) ++ [a; b]) with (c :: d :: (l ++ [a; b])).
      change ((c :: d :: l) ++ [a]) with (c :: d :: (l ++ [a])).
      rewrite !routeLength_cons.
      change (d :: (l ++ [a; b])) with ((d :: l) ++ [a; b]).
      change (d :: (l ++ [a])) with ((d :: l) ++ [a]).
      rewrite IH. lia.
Qed.

Section Lengths.

Variable step : Z.

Local Abbreviation len := (pathLength step).
Local Abbreviation dist := (cellDistance step).

Lemma len_cons (a b : Cell) (l : list Cell) :
  len (a :: b :: l) = dist a b + len (b :: l).
Proof. reflexivity. Qed.

Lemma len_snoc (l : list Cell) (a b : Cell) :
  len ((l ++ [a]) ++ [b]) = len (l ++ [a]) + dist a b.
Proof.
  unfold pathLength. rewrite <- app_assoc. cbn [app]. rewrite !map_app. cbn [map].
  now rewrite routeLength_snoc.
Qed.

Lemma dist_same (a : Cell) : dist a a = 0.
Proof. unfold cellDistance. lia. Qed.

Lemma dist_collinear (anchor prev curr d : Cell) (k : Z) :
  0 <= k ->
  cell_x prev - cell_x anchor = k * cell_x d ->
  cell_y prev - cell_y anchor = k * cell_y d ->
  cell_x curr - cell_x prev = cell_x d ->
  cell_y curr - cell_y prev = cell_y d ->
  dist anchor curr = dist anchor prev + dist prev curr.
Proof.
  intros Hk Hx Hy Hdx Hdy. unfold cellDistance.
  assert (Habs : forall u : Z, Z.abs ((k + 1) * u) = Z.abs (k * u) + Z.abs u)
    by (intros u; rewrite !Z.abs_mul; lia).
  replace (cell_x curr * step - cell_x anchor * step)
    with ((k + 1) * (cell_x d * step)) by nia.
  replace (cell_x prev * step - cell_x anchor * step)
    with (k * (cell_x d * step)) by nia.
  replace (cell_x curr * step - cell_x prev * step) with (cell_x d * step) by nia.
  replace (cell_y curr * step - cell_y anchor * step)
    with ((k + 1) * (cell_y d * step)) by nia.
  replace (cell_y prev * step - cell_y anchor * step)
    with (k * (cell_y d * step)) by nia.
  replace (cell_y curr * step - cell_y prev * step) with (cell_y d * step) by nia.
  rewrite !Habs. lia.
Qed.

Lemma simplifyLoop_length (rest : list Cell) :
  forall (d prev : Cell) (out : list Cell) (anchor : Cell) (k : Z),
    0 <= k ->
    cell_x prev - cell_x anchor = k * cell_x d ->
    cell_y prev - cell_y anchor = k * cell_y d ->
    len ((out ++ [anchor])
         ++ simplifyLoop (Some d) prev rest [] ++ [List.last rest prev])
    = len (out ++ [anchor]) + dist anchor prev + len (prev :: rest).
Proof.
  induction rest as [| curr rest IH]; intros d prev out anchor k Hk Hx Hy.
  - cbn [simplifyLoop List.last app]. rewrite len_snoc.
    change (len [prev]) with 0. lia.
  - rewrite List_last_cons, len_cons. cbn [simplifyLoop].
    set (dir := mkCell (cell_x curr - cell_x prev) (cell_y curr - cell_y prev)).
    destruct (negb (cell_x d =? cell_x dir) || negb (cell_y d =? cell_y dir)) eqn:E.
    + rewrite simplifyLoop_out.
      assert (Eq : forall l m : list Cell,
                 (out ++ [anchor]) ++ (([] ++ [prev]) ++ l) ++ m
                 = ((out ++ [anchor]) ++ [prev]) ++ l ++ m)
        by (intros l m; cbn [app]; now rewrite <- !app_assoc).
      rewrite Eq.
      rewrite (IH dir curr (out ++ [anchor]) prev 1)
        by (cbn [cell_x cell_y dir]; lia).
      rewrite len_snoc. lia.
    + apply orb_false_elim in E as [Ex Ey].
      apply negb_false_iff, Z.eqb_eq in Ex, Ey. cbn [cell_x cell_y dir] in Ex, Ey.
      rewrite (IH d curr out anchor (k + 1)) by lia.
      rewrite (dist_collinear anchor prev curr d k) by lia. lia.
Qed.

Lemma dedupeFrom_length (a : Cell) (l : list Cell) :
  len (a :: dedupeFrom a l) = len (a :: l).
Proof.
  revert a. induction l as [| p l IH]; intros a; cbn [dedupeFrom]; [reflexivity |].
  destruct (bool_decide (cellKey a = cellKey p)) eqn:E.
  - apply bool_decide_eq_true, cellKey_inj in E. subst p.
    rewrite IH, (len_cons a a), dist_same. lia.
  - now rewrite !len_cons, IH.
Qed.

Lemma simplifyPath_len (path : list Cell) : len (simplifyPath path) = len path.
Proof.
  destruct path as [| first [| second [| third rest]]]; try reflexivity.
  pose proof (simplifyPath_long first second third rest) as E. cbv zeta in E.
  rewrite E. clear E. rewrite dedupeFrom_length.
  set (dir := mkCell _ _).
  pose proof (simplifyLoop_length (third :: rest) dir second [] first 1) as H.
  cbn [app] in H. change (first :: ?l ++ ?m) with ([first] ++ l ++ m).
  cbn [app]. rewrite H by (cbn [cell_x cell_y dir]; lia).
  rewrite (len_cons first second). change (len [first]) with 0. lia.
Qed.

End Lengths.

(** X15. Simplifying a path does not change the length of the route drawn
    through it: for every grid step the Manhattan length of the points of
    the simplified path is that of the points of the whole path, for paths
    with arbitrary (not only unit) moves between cells. *)
Theorem simplifyPath_keeps_length (step : Z) (path : list Cell) :
  routeLength (map (fun cell => denormalizeFromCell cell step) (simplifyPath path))
  = routeLength (map (fun cell => denormalizeFromCell cell step) path).
Proof. apply simplifyPath_len. Qed.

End SimplifyFacts.

(** *** The grid router: route cost *)

Section RouteCostFacts.

Import Router.

Lemma foldl_add_perm {A : Type} (g : A -> Z) (l l' : list A) :
  l ≡ₚ l' -> foldl (fun a r => a + g r) 0 l = foldl (fun a r => a + g r) 0 l'.
Proof.
  induction 1 as [| r l l' _ IH | r1 r2 l | l1 l2 l3 _ IH1 _ IH2]; cbn [foldl].
  - reflexivity.
  - rewrite (foldl_add_shift g (0 + g r) l), (foldl_add_shift g (0 + g r) l'). lia.
  - rewrite (foldl_add_shift g (0 + g r2 + g r1) l),
      (foldl_add_shift g (0 + g r1 + g r2) l). lia.
  - lia.
Qed.

Lemma foldl_add_nonneg {A : Type} (g : A -> Z) (l : list A) :
  (forall r, 0 <= g r) -> 0 <= foldl (fun a r => a + g r) 0 l.
Proof.
  intros Hg. induction l as [| r l IH]; cbn [foldl]; [lia |].
  rewrite foldl_add_shift. specialize (Hg r). lia.
Qed.

Lemma foldl_add_zero {A : Type} (g : A -> Z) (l : list A) :
  (forall r, r ∈ l -> g r = 0) -> foldl (fun a r => a + g r) 0 l = 0.
Proof.
  induction l as [| r l IH]; intros Hg; cbn [foldl]; [reflexivity |].
  rewrite foldl_add_shift, IH by (intros r' Hr'; apply Hg; now constructor).
  rewrite (Hg r) by constructor. reflexivity.
Qed.

Lemma crossing_sym (s1 s2 : Segment) : crossing s1 s2 = crossing s2 s1.
Proof.
  unfold crossing. rewrite (String.eqb_sym (edgeId s2)).
  destruct (String.eqb (edgeId s1) (edgeId s2)); [reflexivity |].
  destruct (x (seg_a s1) =? x (seg_b s1)), (x (seg_a s2) =? x (seg_b s2));
    reflexivity.
Qed.

Lemma crossing_range (s1 s2 : Segment) : 0 <= crossing s1 s2 <= 1.
Proof.
  unfold crossing. cbv zeta.
  repeat match goal with |- context [if ?b then _ else _] => destruct b end; lia.
Qed.

Lemma countCrossings_perm (l l' : list Segment) :
  l ≡ₚ l' -> countCrossings l = countCrossings l'.
Proof.
  induction 1 as [| s l l' Hp IH | s1 s2 l | l1 l2 l3 _ IH1 _ IH2];
    cbn [countCrossings].
  - reflexivity.
  - now rewrite IH, (foldl_add_perm (crossing s) l l' Hp).
  - cbn [foldl].
    rewrite (foldl_add_shift (crossing s2) (0 + crossing s2 s1)),
      (foldl_add_shift (crossing s1) (0 + crossing s1 s2)), (crossing_sym s2 s1).
    lia.
  - lia.
Qed.

Lemma countCrossings_nonneg (l : list Segment) : 0 <= countCrossings l.
Proof.
  induction l as [| s l IH]; cbn [countCrossings]; [lia |].
  pose proof (foldl_add_nonneg (crossing s) l (fun r => proj1 (crossing_range s r))).
  lia.
Qed.

Lemma segments_perm (routes routes' : list RoutedEdge) :
  routes ≡ₚ routes' ->
  concat (map (fun route => segmentsOf (routeId route) (points route)) routes)
  ≡ₚ concat (map (fun route => segmentsOf (routeId route) (points route)) routes').
Proof.
  induction 1 as [| r l l' _ IH | r1 r2 l | l1 l2 l3 _ IH1 _ IH2]; cbn [map concat].
  - reflexivity.
  - now rewrite IH.
  - rewrite !app_assoc. f_equiv. apply Permutation_app_comm.
  - now rewrite IH1.
Qed.

Lemma routeLength_nonneg (points : list GridPoint) : 0 <= routeLength points.
Proof.
  induction points as [| a [| b l] IH]; cbn [routeLength] in *; lia.
Qed.

Lemma routeBends_nonneg (points : list GridPoint) : 0 <= routeBends points.
Proof.
  induction points as [| a [| b [| c l]] IH]; cbn [routeBends] in *; try lia.
  destruct (negb _ || negb _); lia.
Qed.

Lemma segmentsOf_edgeId (i : string) (points : list GridPoint) (s : Segment) :
  s ∈ segmentsOf i points -> edgeId s = i.
Proof.
  induction points as [| a [| b l] IH]; cbn [segmentsOf]; intros H;
    try (now inversion H).
  apply elem_of_cons in H as [-> | H]; [reflexivity | now apply IH].
Qed.

Lemma routes_segment (routes : list RoutedEdge) (s : Segment) :
  s ∈ concat (map (fun route => segmentsOf (routeId route) (points route)) routes) ->
  exists r, r ∈ routes /\ s ∈ segmentsOf (routeId r) (points r).
Proof.
  induction routes as [| r routes IH]; cbn [map concat]; intros H;
    [now inversion H |].
  apply elem_of_app in H as [H | H].
  - exists r. split; [constructor | exact H].
  - destruct (IH H) as (r' & Hr' & Hs). exists r'. split; [now constructor | exact Hs].
Qed.

Lemma countCrossings_same_id (i : string) (l : list Segment) :
  (forall s, s ∈ l -> edgeId s = i) -> countCrossings l = 0.
Proof.
  induction l as [| s l IH]; intros Hid; cbn [countCrossings]; [reflexivity |].
  rewrite IH by (intros; apply Hid; now constructor).
  rewrite foldl_add_zero; [reflexivity |].
  intros r Hr. unfold crossing.
  rewrite (Hid s) by constructor. rewrite (Hid r) by (now constructor).
  now rewrite String.eqb_refl.
Qed.

(** X16. For routes on integer coordinates, as the draft router returns
    them, the cost does not depend on the order in which the routes are
    listed: length and bends are sums over the routes, exact on integers,
    and a pair of segments counts as a crossing whichever of the two comes
    first. *)
Theorem evaluateRouteCost_order_independent (routes routes' : list RoutedEdge) :
  routes ≡ₚ routes' -> evaluateRouteCost routes = evaluateRouteCost routes'.
Proof.
  intros Hp. unfold evaluateRouteCost, segmentCrossings.
  rewrite (foldl_add_perm (fun route => routeLength (points route)) _ _ Hp),
    (foldl_add_perm (fun route => routeBends (points route)) _ _ Hp),
    (countCrossings_perm _ _ (segments_perm _ _ Hp)).
  reflexivity.
Qed.

(** X17. No term of a route cost is negative, the total is the length plus
    5 per bend plus 20 per crossing, and routes that carry the same id are
    never counted as crossing one another: a route alone has no crossings,
    however it winds. *)
Theorem evaluateRouteCost_terms (routes : list RoutedEdge) :
  let c := evaluateRouteCost routes in
  0 <= length_ c /\ 0 <= bends c /\ 0 <= crossings c /\
  total c = length_ c + 5 * bends c + 20 * crossings c /\
  ((forall r r', r ∈ routes -> r' ∈ routes -> routeId r = routeId r') ->
   crossings c = 0).
Proof.
  cbv zeta. unfold evaluateRouteCost. cbn [length_ bends crossings total].
  split; [apply foldl_add_nonneg; intros; apply routeLength_nonneg |].
  split; [apply foldl_add_nonneg; intros; apply routeBends_nonneg |].
  split; [apply countCrossings_nonneg |].
  split; [lia |].
  intros Hid. unfold segmentCrossings.
  destruct routes as [| r0 routes]; [reflexivity |].
  apply (countCrossings_same_id (routeId r0)).
  intros s Hs. apply routes_segment in Hs as (r & Hr & Hs).
  rewrite (segmentsOf_edgeId _ _ _ Hs). apply Hid; [exact Hr | constructor].
Qed.

End RouteCostFacts.

(** *** The grid router: path search *)

Section SearchFacts.

Import Router.

Variables (start goal : Cell) (blocked : gset Key).

Lemma stepwise_snoc (l : list Cell) (a b : Cell) :
  stepwise (l ++ [a]) -> manhattan a b = 1 -> stepwise ((l ++ [a]) ++ [b]).
Proof.
  intros Hl Hab. induction l as [| c l IH].
  - cbn. split; [exact Hab | exact I].
  - destruct l as [| d l].
    + cbn in Hl |- *. destruct Hl as [Hca _]. repeat split; assumption.
    + change (stepwise (c :: d :: ((l ++ [a]) ++ [b]))).
      change (stepwise (c :: d :: (l ++ [a]))) in Hl.
      cbn [stepwise] in Hl |- *. destruct Hl as [Hcd Hl].
      split; [exact Hcd |]. apply IH. exact Hl.
Qed.

Lemma searchInv_init :
  cellKey start <> cellKey goal ->
  searchInv start goal blocked
    (mkSearch [start] ∅ {[ cellKey start := 0 ]}
       {[ cellKey start := manhattan start goal ]} {[ cellKey start ]}).
Proof.
  intros _. unfold searchInv. cbn [open cameFrom g].
  split; [apply lookup_singleton_eq |]. split; [apply lookup_empty |].
  split; [intros k k' H; now rewrite lookup_empty in H |].
  split.
  - intros k n H. apply lookup_singleton_Some in H as [<- <-]. split; [lia | now left].
  - intros c Hc. apply list_elem_of_singleton in Hc as ->.
    rewrite lookup_singleton_eq. eauto.
Qed.

Lemma relax_inv (current : Cell) (st : SearchState) (dir : Cell) :
  Z.abs (cell_x dir) + Z.abs (cell_y dir) = 1 ->
  searchInv start goal blocked st ->
  searchInv start goal blocked (relax goal blocked current st dir).
Proof.
  intros Hdir Hinv. unfold relax.
  set (neighbor := mkCell (cell_x current + cell_x dir) (cell_y current + cell_y dir)).
  destruct (negb (bool_decide (cellKey neighbor = cellKey goal))
            && bool_decide (cellKey neighbor ∈ blocked)) eqn:Eb; [exact Hinv |].
  destruct (g st !! cellKey current) as [gCurrent |] eqn:Eg; [| exact Hinv].
  destruct (match g st !! cellKey neighbor with
            | Some gNeighbor => gNeighbor <=? gCurrent + 1
            | None => false
            end) eqn:Ew; [exact Hinv |].
  destruct Hinv as (Hstart & Hcf & Hlink & Hg & Hopen).
  assert (Hcur : 0 <= gCurrent) by (apply (Hg _ _ Eg)).
  assert (Hns : cellKey neighbor <> cellKey start).
  { intros E. rewrite E, Hstart in Ew. apply Z.leb_gt in Ew. lia. }
  assert (Hnc : cellKey neighbor <> cellKey current).
  { unfold cellKey, neighbor. cbn [cell_x cell_y]. intros [= E1 E2]. lia. }
  assert (Hfree : cellKey neighbor ∈ blocked -> cellKey neighbor = cellKey goal).
  { intros Hin. apply andb_false_iff in Eb as [Eb | Eb].
    - apply negb_false_iff, bool_decide_eq_true in Eb. exact Eb.
    - apply bool_decide_eq_false in Eb. contradiction. }
  unfold searchInv. cbn [open cameFrom g].
  split; [rewrite lookup_insert_ne by exact Hns; exact Hstart |].
  split; [rewrite lookup_insert_ne by exact Hns; exact Hcf |].
  split; [| split].
  - intros k k' H. destruct (decide (k = cellKey neighbor)) as [-> | Hk].
    + rewrite lookup_insert_eq in H. injection H as <-.
      split; [rewrite lookup_insert_ne by exact Hnc; rewrite Eg; eauto |].
      split; [| exact Hfree].
      unfold adjacentKeys, cellKey, neighbor. cbn [fst snd cell_x cell_y]. lia.
    + rewrite lookup_insert_ne in H by congruence.
      destruct (Hlink _ _ H) as (Hgk & Hadj & Hblk).
      split; [| split; assumption].
      destruct (decide (k' = cellKey neighbor)) as [-> | Hk'].
      * rewrite lookup_insert_eq. eauto.
      * rewrite lookup_insert_ne by congruence. exact Hgk.
  - intros k n H. destruct (decide (k = cellKey neighbor)) as [-> | Hk].
    + rewrite lookup_insert_eq in H. injection H as <-.
      split; [lia |]. right. rewrite lookup_insert_eq. eauto.
    + rewrite lookup_insert_ne in H by congruence.
      destruct (Hg _ _ H) as (Hn & Hor). split; [exact Hn |].
      destruct Hor as [-> | Hs]; [now left |].
      right. now rewrite lookup_insert_ne by congruence.
  - intros c Hc.
    assert (Hc' : c ∈ open st \/ c = neighbor).
    { destruct (bool_decide (cellKey neighbor ∈ openSet st)); [now left |].
      apply elem_of_app in Hc as [Hc | Hc]; [now left |].
      right. now apply list_elem_of_singleton in Hc. }
    destruct Hc' as [Hc' | ->].
    + destruct (decide (cellKey c = cellKey neighbor)) as [-> | Hk].
      * rewrite lookup_insert_eq. eauto.
      * rewrite lookup_insert_ne by congruence. now apply Hopen.
    + rewrite lookup_insert_eq. eauto.
Qed.

Lemma relax_all_inv (current : Cell) (st : SearchState) :
  searchInv start goal blocked st ->
  searchInv start goal blocked (foldl (relax goal blocked current) st NEIGHBOR_DIRS).
Proof.
  intros Hinv. unfold NEIGHBOR_DIRS. cbn [foldl].
  repeat apply relax_inv; try exact Hinv; cbn [cell_x cell_y]; lia.
Qed.

Lemma walkBack_linked (fuel : nat) (cf : gmap Key Key) (cursor : Key)
  (path result : list Cell) :
  walkBack fuel cf cursor path = Some result ->
  exists chain, result = path ++ chain /\ linked cf cursor chain.
Proof.
  revert cursor path. induction fuel as [| fuel IH]; intros cursor path;
    cbn [walkBack]; destruct (cf !! cursor) as [prev |] eqn:E;
    try discriminate.
  - intros [= <-]. exists []. split; [now rewrite app_nil_r | exact E].
  - intros H. destruct (IH _ _ H) as (chain & -> & Hl).
    destruct prev as [px py]. cbn [fst snd] in Hl |- *.
    exists (mkCell px py :: chain). split; [now rewrite <- app_assoc |].
    cbn [linked]. split; [exact E | exact Hl].
  - intros [= <-]. exists []. split; [now rewrite app_nil_r | exact E].
Qed.

Lemma manhattan_keys (a b : Cell) :
  adjacentKeys (cellKey a) (cellKey b) -> manhattan b a = 1.
Proof. unfold adjacentKeys, manhattan, cellKey. cbn [fst snd]. lia. Qed.

Lemma linked_path (st : SearchState) :
  searchInv start goal blocked st ->
  forall (chain : list Cell) (cursor : Cell),
    is_Some (g st !! cellKey cursor) ->
    linked (cameFrom st) (cellKey cursor) chain ->
    head (reverse (cursor :: chain)) = Some start /\
    stepwise (reverse (cursor :: chain)) /\
    (forall c, c ∈ cursor :: chain -> cellKey c ∈ blocked -> c = start \/ c = goal).
Proof.
  intros (Hstart & Hcf & Hlink & Hg & Hopen).
  intros cells. induction cells as [| c rest IH]; intros cursor Hsome Hl;
    destruct Hsome as [n Hn]; cbn [linked] in Hl.
  - destruct (Hg _ _ Hn) as (_ & [E | [k E]]); [| congruence].
    apply cellKey_inj in E. subst cursor.
    split; [reflexivity |]. split; [exact I |].
    intros c Hc _. apply list_elem_of_singleton in Hc. now left.
  - destruct Hl as (E & Hl).
    destruct (Hlink _ _ E) as (Hgc & Hadj & Hblk).
    destruct (IH c Hgc Hl) as (Hhead & Hstep & Hfree).
    rewrite (reverse_cons _ cursor). split; [| split].
    + destruct (reverse (c :: rest)); [discriminate Hhead | exact Hhead].
    + rewrite reverse_cons in Hstep |- *. apply stepwise_snoc; [exact Hstep |].
      now apply manhattan_keys.
    + intros c' Hc' Hb. apply elem_of_cons in Hc' as [-> | Hc'].
      * right. apply cellKey_inj. now apply Hblk.
      * now apply Hfree.
Qed.

Lemma search_sound (fuel : nat) (st : SearchState) (path : list Cell) :
  searchInv start goal blocked st ->
  search fuel start goal blocked st = Some path ->
  validPath start goal blocked path /\ (stepwise path \/ path = [start; goal]).
Proof.
  revert st. induction fuel as [| fuel IH]; intros st Hinv; cbn [search];
    [discriminate |].
  pose proof (jsSort_perm (compareOpen (f st)) (open st)) as Hperm.
  destruct (jsSort (compareOpen (f st)) (open st)) as [| current rest].
  - intros [= <-]. split; [| now right].
    split; [reflexivity |]. split; [reflexivity |].
    intros c Hc _. apply elem_of_cons in Hc as [-> | Hc]; [now left |].
    apply list_elem_of_singleton in Hc. now right.
  - assert (Hinv' : searchInv start goal blocked
                      (mkSearch rest (cameFrom st) (g st) (f st)
                         (openSet st ∖ {[ cellKey current ]}))).
    { destruct Hinv as (H1 & H2 & H3 & H4 & H5).
      unfold searchInv. cbn [open cameFrom g].
      split; [exact H1 |]. split; [exact H2 |]. split; [exact H3 |].
      split; [exact H4 |].
      intros c Hc. apply H5. rewrite <- Hperm. now constructor. }
    destruct (bool_decide (cellKey current = cellKey goal)) eqn:Eg.
    + apply bool_decide_eq_true, cellKey_inj in Eg. subst current.
      unfold reconstructPath. cbn [cameFrom].
      destruct (walkBack fuel (cameFrom st) (cellKey goal) [goal]) as [back |] eqn:Ew;
        [| discriminate].
      cbn [mbind option_bind]. intros [= <-].
      destruct (walkBack_linked _ _ _ _ _ Ew) as (chain & -> & Hl).
      assert (Hgoal : is_Some (g st !! cellKey goal)).
      { destruct Hinv as (_ & _ & _ & _ & H5). apply H5.
        rewrite <- Hperm. constructor. }
      destruct (linked_path st Hinv chain goal Hgoal Hl) as (Hhead & Hstep & Hfree).
      cbn [app]. split; [| now left].
      split; [exact Hhead |]. split.
      * rewrite reverse_cons. apply last_snoc.
      * intros c Hc. apply Hfree. now rewrite elem_of_reverse in Hc.
    + apply IH. now apply relax_all_inv.
Qed.

Lemma findPath_valid (fuel : nat) (path : list Cell) :
  findPath fuel start goal blocked = Some path ->
  validPath start goal blocked path /\ (stepwise path \/ path = [start; goal]).
Proof.
  unfold findPath. destruct (bool_decide (cellKey start = cellKey goal)) eqn:E.
  - apply bool_decide_eq_true, cellKey_inj in E. intros [= <-]. subst goal.
    split; [| left; exact I].
    split; [reflexivity |]. split; [reflexivity |].
    intros c Hc _. apply list_elem_of_singleton in Hc. now left.
  - apply bool_decide_eq_false in E. apply search_sound. now apply searchInv_init.
Qed.

Lemma stepwise_last_step (path : list Cell) :
  stepwise path -> head path = Some start -> last path = Some goal ->
  start <> goal ->
  exists p, p ∈ path /\ manhattan p goal = 1.
Proof.
  intros Hstep Hhead Hlast Hne.
  assert (Hgen : forall a l, stepwise (a :: l) -> last (a :: l) = Some goal ->
                   a <> goal -> exists p, p ∈ a :: l /\ manhattan p goal = 1).
  { intros a l. revert a. induction l as [| b l IH]; intros a Hs Hl Ha.
    - cbn in Hl. congruence.
    - cbn [stepwise] in Hs. destruct Hs as (Hab & Hs).
      rewrite last_cons_cons in Hl.
      destruct (decide (cellKey b = cellKey goal)) as [Hb | Hb];
        [apply cellKey_inj in Hb; subst b | rewrite cellKey_inj in Hb].
      + exists a. split; [constructor | exact Hab].
      + destruct (IH b Hs Hl Hb) as (p & Hp & Hm).
        exists p. split; [now constructor | exact Hm]. }
  destruct path as [| a l]; [discriminate |].
  cbn in Hhead. injection Hhead as ->. now apply Hgen.
Qed.

Lemma walled_in_fallback (fuel : nat) (path : list Cell) :
  (forall c, manhattan c goal = 1 -> cellKey c ∈ blocked) ->
  manhattan start goal <> 1 ->
  start <> goal ->
  findPath fuel start goal blocked = Some path ->
  path = [start; goal].
Proof.
  intros Hwall Hfar Hne H.
  destruct (findPath_valid _ _ H) as ((Hhead & Hlast & Hfree) & [Hstep | E]);
    [| exact E].
  destruct (stepwise_last_step path Hstep Hhead Hlast Hne) as (p & Hp & Hm).
  destruct (Hfree p Hp (Hwall p Hm)) as [-> | ->].
  - contradiction.
  - unfold manhattan in Hm. lia.
Qed.

End SearchFacts.

Section SearchTheorems.

Import Router.

(** X18. A path that [findPath] returns leads from [start] to [goal] and
    passes through no blocked cell, the two ends apart; it moves from cell to
    neighbouring cell, one step along one axis at a time, unless it is the
    two-cell fallback [start, goal] the search gives when it runs out of
    cells to visit. *)
Theorem findPath_sound (fuel : nat) (start goal : Cell) (blocked : gset Key)
  (path : list Cell) :
  findPath fuel start goal blocked = Some path ->
  head path = Some start /\
  last path = Some goal /\
  (forall c, c ∈ path -> cellKey c ∈ blocked -> c = start \/ c = goal) /\
  (stepwise path \/ path = [start; goal]).
Proof.
  intros H. destruct (findPath_valid _ _ _ _ _ H) as ((H1 & H2 & H3) & H4).
  repeat split; assumption.
Qed.

(** X19. A goal whose four neighbouring cells are all blocked cannot be
    reached by steps: unless the start is one of these neighbours or the
    goal itself, the only path [findPath] can return is the fallback
    [start, goal], a straight jump over whatever lies between. *)
Theorem walled_in_goal_gets_fallback (fuel : nat) (start goal : Cell)
  (blocked : gset Key) (path : list Cell) :
  Forall (fun dir =>
            cellKey (mkCell (cell_x goal + cell_x dir) (cell_y goal + cell_y dir))
            ∈ blocked) NEIGHBOR_DIRS ->
  manhattan start goal <> 1 ->
  start <> goal ->
  findPath fuel start goal blocked = Some path ->
  path = [start; goal].
Proof.
  intros Hwall. apply walled_in_fallback.
  intros [cx cy] Hm. unfold manhattan in Hm. cbn [cell_x cell_y] in Hm.
  unfold NEIGHBOR_DIRS in Hwall.
  apply Forall_cons in Hwall as (H1 & Hwall).
  apply Forall_cons in Hwall as (H2 & Hwall).
  apply Forall_cons in Hwall as (H3 & Hwall).
  apply Forall_cons in Hwall as (H4 & _).
  cbn [cell_x cell_y] in H1, H2, H3, H4. unfold cellKey in *.
  cbn [cell_x cell_y] in *.
  assert (Hcases : (cx = cell_x goal + 1 /\ cy = cell_y goal + 0) \/
                   (cx = cell_x goal + 0 /\ cy = cell_y goal + 1) \/
                   (cx = cell_x goal + 0 /\ cy = cell_y goal + -1) \/
                   (cx = cell_x goal + -1 /\ cy = cell_y goal + 0)) by lia.
  destruct Hcases as [[-> ->] | [[-> ->] | [[-> ->] | [-> ->]]]]; assumption.
Qed.

End SearchTheorems.

(** *** The grid router: the routes of [routeDraft] *)

Section DraftRoutes.

Import Router.

Variable localeCompare : string -> string -> Z.

Lemma Forall2_in_r {A B : Type} (P : A -> B -> Prop) (l : list A) (k : list B)
  (b : B) :
  Forall2 P l k -> b ∈ k -> exists a, a ∈ l /\ P a b.
Proof.
  induction 1 as [| a b' l k Hab _ IH]; intros Hb; [now inversion Hb |].
  apply elem_of_cons in Hb as [-> | Hb].
  - exists a. split; [constructor | exact Hab].
  - destruct (IH Hb) as (a' & Ha' & HP). exists a'. split; [now constructor | exact HP].
Qed.

Lemma last_map {A B : Type} (fn : A -> B) (l : list A) :
  last (map fn l) = option_map fn (last l).
Proof.
  induction l as [| a [| b l] IH]; [reflexivity | reflexivity |].
  change (map fn (a :: b :: l)) with (fn a :: fn b :: map fn l).
  rewrite !last_cons_cons. exact IH.
Qed.

Lemma mark_path_superset (start goal : Cell) (rawPath : list Cell)
  (blocked : gset Key) (k : Key) :
  k ∈ blocked ->
  k ∈ foldl (fun blocked point =>
        if negb (bool_decide (cellKey point = cellKey start))
           && negb (bool_decide (cellKey point = cellKey goal))
        then blocked ∪ {[ cellKey point ]}
        else blocked) blocked rawPath.
Proof.
  revert blocked. induction rawPath as [| c l IH]; intros blocked Hk; cbn [foldl];
    [exact Hk |].
  apply IH. destruct (negb _ && negb _); [| exact Hk].
  apply elem_of_union. now left.
Qed.

(** What one pass of the loop of [routeDraft] adds: the simplification
    of a path of [findPath] whose cells are free of the blocked set [b0]
    the routing started from, except for cells in [ends], which the loop
    has unblocked. *)
Lemma routeEdge_route (fuel : nat) (step : Z) (b0 : gset Key) (ends : list Key)
  (blocked blocked' : gset Key) (routes routes' : list RoutedEdge)
  (edge : DraftRouterEdge) :
  cellKey (normalizeToCell (source edge) step) ∈ ends ->
  cellKey (normalizeToCell (target edge) step) ∈ ends ->
  (forall k, k ∈ b0 -> k ∉ ends -> k ∈ blocked) ->
  routeEdge fuel step (blocked, routes) edge = Some (blocked', routes') ->
  (forall k, k ∈ b0 -> k ∉ ends -> k ∈ blocked') /\
  exists rawPath,
    routes' = routes ++ [mkRouted (id edge)
                           (map (fun cell => denormalizeFromCell cell step)
                              (simplifyPath rawPath))] /\
    head rawPath = Some (normalizeToCell (source edge) step) /\
    last rawPath = Some (normalizeToCell (target edge) step) /\
    (forall c, c ∈ rawPath -> cellKey c ∈ b0 -> cellKey c ∈ ends) /\
    (stepwise rawPath \/
     rawPath = [normalizeToCell (source edge) step; normalizeToCell (target edge) step]).
Proof.
  intros Hs Ht Hsub. unfold routeEdge.
  set (start := normalizeToCell (source edge) step) in *.
  set (goal := normalizeToCell (target edge) step) in *.
  set (blocked1 := blocked ∖ {[ cellKey start ]} ∖ {[ cellKey goal ]}).
  destruct (findPath fuel start goal blocked1) as [rawPath |] eqn:E;
    cbn [mbind option_bind]; [| discriminate].
  intros [= <- <-].
  assert (Hsub1 : forall k, k ∈ b0 -> k ∉ ends -> k ∈ blocked1).
  { intros k Hk Hne. unfold blocked1.
    rewrite !elem_of_difference, !not_elem_of_singleton.
    split; [split; [now apply Hsub |] |]; intros ->; contradiction. }
  split.
  - intros k Hk Hne. apply mark_path_superset. now apply Hsub1.
  - destruct (findPath_valid _ _ _ _ _ E) as ((Hhead & Hlast & Hfree) & Hshape).
    exists rawPath.
    split; [reflexivity |]. split; [exact Hhead |]. split; [exact Hlast |].
    split; [| exact Hshape].
    intros c Hc Hb. destruct (decide (cellKey c ∈ ends)) as [Hin | Hout];
      [exact Hin |].
    exfalso. pose proof (Hsub1 _ Hb Hout) as Hblk.
    destruct (Hfree c Hc Hblk) as [-> | ->]; contradiction.
Qed.

(** The routes of a cell path, as [routeDraft] builds them for an edge. *)
Lemma routeEdges_routes (fuel : nat) (step : Z) (b0 : gset Key) (ends : list Key)
  (sorted : list DraftRouterEdge) :
  forall (blocked blocked' : gset Key) (routes routes' : list RoutedEdge),
    (forall e, e ∈ sorted ->
       cellKey (normalizeToCell (source e) step) ∈ ends /\
       cellKey (normalizeToCell (target e) step) ∈ ends) ->
    (forall k, k ∈ b0 -> k ∉ ends -> k ∈ blocked) ->
    routeEdges fuel step (blocked, routes) sorted = Some (blocked', routes') ->
    exists new,
      routes' = routes ++ new /\
      Forall2 (fun e r =>
        exists rawPath,
          r = mkRouted (id e)
                (map (fun cell => denormalizeFromCell cell step)
                   (simplifyPath rawPath)) /\
          head rawPath = Some (normalizeToCell (source e) step) /\
          last rawPath = Some (normalizeToCell (target e) step) /\
          (forall c, c ∈ rawPath -> cellKey c ∈ b0 -> cellKey c ∈ ends) /\
          (stepwise rawPath \/
           rawPath = [normalizeToCell (source e) step; normalizeToCell (target e) step]))
        sorted new.
Proof.
  induction sorted as [| e sorted IH]; intros blocked blocked' routes routes' Hends Hsub;
    cbn [routeEdges].
  - intros [= <- <-]. exists []. split; [now rewrite app_nil_r | constructor].
  - destruct (routeEdge fuel step (blocked, routes) e) as [[blocked1 routes1] |] eqn:E;
      cbn [mbind option_bind]; [| discriminate].
    intros H.
    destruct (Hends e ltac:(constructor)) as (Hs & Ht).
    destruct (routeEdge_route _ _ _ _ _ _ _ _ _ Hs Ht Hsub E)
      as (Hsub1 & rawPath & -> & Hpath).
    destruct (IH _ _ _ _ (fun e' He' => Hends e' ltac:(now constructor)) Hsub1 H)
      as (new & -> & Hnew).
    exists (mkRouted (id e)
              (map (fun cell => denormalizeFromCell cell step) (simplifyPath rawPath))
            :: new).
    split; [now rewrite <- app_assoc |].
    constructor; [| exact Hnew]. exists rawPath. split; [reflexivity | exact Hpath].
Qed.

Lemma endKeys_edge (step : Z) (edges : list DraftRouterEdge) (e : DraftRouterEdge) :
  e ∈ edges ->
  cellKey (normalizeToCell (source e) step) ∈ endKeys step edges /\
  cellKey (normalizeToCell (target e) step) ∈ endKeys step edges.
Proof.
  intros He. unfold endKeys. split; apply list_elem_of_In, in_flat_map;
    exists e; (split; [now apply list_elem_of_In |]); cbn; tauto.
Qed.

Lemma routeDraft_routes (fuel : nat) (input : DraftRouterInput)
  (result : DraftRouterResult) :
  routeDraft localeCompare fuel input = Some result ->
  cost result = evaluateRouteCost (routes result) /\
  Forall2 (fun e r =>
    exists rawPath,
      r = mkRouted (id e)
            (map (fun cell => denormalizeFromCell cell (stepOf input))
               (simplifyPath rawPath)) /\
      head rawPath = Some (normalizeToCell (source e) (stepOf input)) /\
      last rawPath = Some (normalizeToCell (target e) (stepOf input)) /\
      (forall c, c ∈ rawPath -> cellKey c ∈ blockedAtStart input ->
                 cellKey c ∈ endKeys (stepOf input) (edges input)) /\
      (stepwise rawPath \/
       rawPath = [normalizeToCell (source e) (stepOf input);
                  normalizeToCell (target e) (stepOf input)]))
    (jsSort (fun a b => localeCompare (id a) (id b)) (edges input))
    (routes result).
Proof.
  unfold routeDraft. fold (stepOf input). fold (paddingOf input).
  fold (blockedAtStart input).
  set (sorted := jsSort _ (edges input)).
  destruct (routeEdges fuel (stepOf input) (blockedAtStart input, []) sorted)
    as [[blocked' routes'] |] eqn:E; cbn [mbind option_bind]; [| discriminate].
  intros [= <-]. cbn [cost routes]. split; [reflexivity |].
  assert (Hends : forall e, e ∈ sorted ->
            cellKey (normalizeToCell (source e) (stepOf input))
            ∈ endKeys (stepOf input) (edges input) /\
            cellKey (normalizeToCell (target e) (stepOf input))
            ∈ endKeys (stepOf input) (edges input)).
  { intros e He. apply endKeys_edge. unfold sorted in He.
    now rewrite jsSort_perm in He. }
  destruct (routeEdges_routes fuel (stepOf input) (blockedAtStart input)
              (endKeys (stepOf input) (edges input)) sorted
              (blockedAtStart input) blocked' [] routes' Hends
              (fun k Hk _ => Hk) E)
    as (new & -> & Hnew).
  exact Hnew.
Qed.

(** X20. A result that [routeDraft] returns connects the two ends of every
    edge: its routes answer the edges in sorted order, one route per edge
    with the edge's id, starting at the edge's source and ending at its
    target, both moved onto the grid; every point of a route lies on the
    grid, and the cost is the cost of these routes.  (Whether [routeDraft]
    returns is another matter: the search of [findPath] has no bound.) *)
Theorem routeDraft_connects (fuel : nat) (input : DraftRouterInput)
  (result : DraftRouterResult) :
  routeDraft localeCompare fuel input = Some result ->
  cost result = evaluateRouteCost (routes result) /\
  Forall2 (fun e r =>
    routeId r = id e /\
    head (points r) = Some (snap (source e) (stepOf input)) /\
    last (points r) = Some (snap (target e) (stepOf input)) /\
    (forall p, p ∈ points r -> snap p (stepOf input) = p))
    (jsSort (fun a b => localeCompare (id a) (id b)) (edges input))
    (routes result).
Proof.
  intros H. destruct (routeDraft_routes _ _ _ H) as (Hcost & Hroutes).
  split; [exact Hcost |].
  eapply Forall2_impl; [exact Hroutes |].
  intros e r (rawPath & -> & Hhead & Hlast & _). cbn [routeId points].
  destruct (simplifyPath_keeps_ends_aux rawPath) as (Hh & Hl & _).
  rewrite <- Hh in Hhead. rewrite <- Hl in Hlast.
  split; [reflexivity |].
  split; [destruct (simplifyPath rawPath) as [| c l]; [discriminate |];
          injection Hhead as ->; reflexivity |].
  split.
  - rewrite last_map, Hlast. reflexivity.
  - intros p Hp. apply list_elem_of_In, in_map_iff in Hp as (c & <- & _).
    unfold snap. now rewrite normalize_denormalize by (unfold stepOf; lia).
Qed.

(** X21. Every route of a result that [routeDraft] returns is the
    simplification of a path of cells from the cell of its edge's source to
    the cell of its target.  No cell of that path lies in the blocked set
    the routing started from, unless it is the cell of an end of one of the
    edges, which [routeDraft] unblocks before it searches.  The path moves
    from cell to neighbouring cell, unless it is the two-cell fallback of
    [findPath]: then the route is the straight jump from source to target,
    whatever lies between. *)
Theorem routeDraft_routes_follow_free_paths (fuel : nat) (input : DraftRouterInput)
  (result : DraftRouterResult) (r : RoutedEdge) :
  routeDraft localeCompare fuel input = Some result ->
  r ∈ routes result ->
  exists (e : DraftRouterEdge) (rawPath : list Cell),
    e ∈ edges input /\
    routeId r = id e /\
    points r
    = map (fun cell => denormalizeFromCell cell (stepOf input)) (simplifyPath rawPath) /\
    head rawPath = Some (normalizeToCell (source e) (stepOf input)) /\
    last rawPath = Some (normalizeToCell (target e) (stepOf input)) /\
    (forall c, c ∈ rawPath -> cellKey c ∈ blockedAtStart input ->
               cellKey c ∈ endKeys (stepOf input) (edges input)) /\
    (stepwise rawPath \/
     (rawPath = [normalizeToCell (source e) (stepOf input);
                 normalizeToCell (target e) (stepOf input)] /\
      points r = [snap (source e) (stepOf input); snap (target e) (stepOf input)])).
Proof.
  intros H Hr. destruct (routeDraft_routes _ _ _ H) as (_ & Hroutes).
  destruct (Forall2_in_r _ _ _ _ Hroutes Hr)
    as (e & He & rawPath & -> & Hhead & Hlast & Hfree & Hshape).
  exists e, rawPath. cbn [routeId points].
  split; [now rewrite jsSort_perm in He |].
  split; [reflexivity |]. split; [reflexivity |].
  split; [exact Hhead |]. split; [exact Hlast |]. split; [exact Hfree |].
  destruct Hshape as [Hstep | ->]; [now left |].
  right. split; reflexivity.
Qed.

End DraftRoutes.

Section RouterExtraExamples.

Import Router.

(** Step 10: the cell (3,-2) is the cell of its own grid point, and the
    point (14,26) is moved to (10,30). *)
Lemma snap_round_trip_witness :
  normalizeToCell (denormalizeFromCell (mkCell 3 (-2)) 10) 10 = mkCell 3 (-2) /\
  snap (mkPoint 14 26) 10 = mkPoint 10 30.
Proof.
  split.
  - exact (proj1 (snap_round_trip 10 ltac:(lia)) (mkCell 3 (-2))).
  - reflexivity.
Defined.

(** A rectangle from (2,0) to (4,2) on a grid of step 2 with padding 1: the
    cell next to its corner cell (1,0) is blocked. *)
Lemma obstacle_cells_blocked_witness :
  cellKey (mkCell (1 + -1) (0 + 1)) ∈ buildBlockedSet [mkRect 2 0 2 2] [] 2 1.
Proof.
  apply (obstacle_cells_blocked [mkRect 2 0 2 2] [] 2 1 (mkRect 2 0 2 2) (mkCell 1 0)
           (-1) 1).
  - lia.
  - constructor.
  - cbn [rect_x width cell_x]. lia.
  - cbn [rect_y height cell_y]. lia.
  - lia.
  - lia.
Defined.

Lemma evaluateRouteCost_order_independent_witness :
  evaluateRouteCost
    [mkRouted "v" [mkPoint 2 0; mkPoint 2 3]; mkRouted "h" [mkPoint 0 0; mkPoint 4 0]]
  = evaluateRouteCost
      [mkRouted "h" [mkPoint 0 0; mkPoint 4 0]; mkRouted "v" [mkPoint 2 0; mkPoint 2 3]].
Proof.
  apply evaluateRouteCost_order_independent. apply Permutation_swap.
Defined.

(** Around the blocked cell (2,0) on the way from (0,0) to (4,0). *)
Lemma findPath_sound_witness :
  match findPath 50 (mkCell 0 0) (mkCell 4 0) {[ (2, 0) ]} with
  | Some path =>
      head path = Some (mkCell 0 0) /\ last path = Some (mkCell 4 0) /\
      (stepwise path \/ path = [mkCell 0 0; mkCell 4 0])
  | None => False
  end.
Proof.
  destruct (findPath 50 _ _ _) as [path |] eqn:E; [| vm_compute in E; discriminate E].
  destruct (findPath_sound 50 _ _ _ path E) as (Hh & Hl & _ & Hs).
  split; [exact Hh |]. split; [exact Hl | exact Hs].
Defined.

(** From (5,5) to (0,0), both walled in. *)
Lemma walled_in_goal_gets_fallback_witness :
  findPath 50 (mkCell 5 5) (mkCell 0 0) twoWalls = Some [mkCell 5 5; mkCell 0 0].
Proof.
  destruct (findPath 50 (mkCell 5 5) (mkCell 0 0) twoWalls) as [path |] eqn:E;
    [| vm_compute in E; discriminate E].
  f_equal.
  apply (walled_in_goal_gets_fallback 50 (mkCell 5 5) (mkCell 0 0) twoWalls path).
  - repeat constructor; apply (bool_decide_unpack _); vm_compute; exact I.
  - unfold manhattan. cbn [cell_x cell_y]. lia.
  - discriminate.
  - exact E.
Defined.

Lemma routeDraft_connects_witness :
  match routeDraft codeUnitCompare 200 obstacleInput with
  | Some result =>
      Forall2 (fun e r =>
        routeId r = id e /\
        head (points r) = Some (snap (source e) 1) /\
        last (points r) = Some (snap (target e) 1) /\
        (forall p, p ∈ points r -> snap p 1 = p))
        [mkEdge "e" (mkPoint 0 0) (mkPoint 4 0)] (routes result)
  | None => False
  end.
Proof.
  destruct (routeDraft codeUnitCompare 200 obstacleInput) as [result |] eqn:E;
    [| vm_compute in E; discriminate E].
  exact (proj2 (routeDraft_connects codeUnitCompare 200 obstacleInput result E)).
Defined.

(** The route of the sample follows a stepwise path of seven cells around
    the blocked cell (2,0). *)
Lemma routeDraft_routes_follow_free_paths_witness :
  match routeDraft codeUnitCompare 200 obstacleInput with
  | Some result =>
      exists rawPath : list Cell,
        [mkPoint 0 0; mkPoint 1 0; mkPoint 1 (-1); mkPoint 3 (-1); mkPoint 3 0;
         mkPoint 4 0]
        = map (fun cell => denormalizeFromCell cell 1) (simplifyPath rawPath) /\
        head rawPath = Some (mkCell 0 0) /\ last rawPath = Some (mkCell 4 0) /\
        stepwise rawPath
  | None => False
  end.
Proof.
  destruct (routeDraft codeUnitCompare 200 obstacleInput) as [result |] eqn:E;
    [| vm_compute in E; discriminate E].
  pose proof E as E'. vm_compute in E'. injection E' as E'.
  destruct (routeDraft_routes_follow_free_paths codeUnitCompare 200 obstacleInput result
              (mkRouted "e"
                 [mkPoint 0 0; mkPoint 1 0; mkPoint 1 (-1); mkPoint 3 (-1); mkPoint 3 0;
                  mkPoint 4 0]) E)
    as (e & rawPath & He & _ & Hpts & Hhead & Hlast & _ & Hshape).
  - rewrite <- E'. constructor.
  - apply list_elem_of_singleton in He. subst e.
    exists rawPath. split; [exact Hpts |]. split; [exact Hhead |].
    split; [exact Hlast |].
    destruct Hshape as [Hstep | [_ Hjump]]; [exact Hstep |].
    cbn [points] in Hjump. discriminate Hjump.
Defined.

End RouterExtraExamples.

(** *** The precise router *)

Section ElkFacts.

Import Router ElkRouter.

Variable localeCompare : string -> string -> Z.

Lemma point_eqb (a b : GridPoint) :
  negb (x a =? x b) || negb (y a =? y b) = false <-> a = b.
Proof.
  destruct a as [ax ay], b as [bx by_]. cbn [x y]. split.
  - intros E. apply orb_false_elim in E as [Ex Ey].
    apply negb_false_iff, Z.eqb_eq in Ex, Ey. now subst.
  - intros [= -> ->]. now rewrite !Z.eqb_refl.
Qed.

Lemma unique_fold (acc : list GridPoint) (a : GridPoint) (l : list GridPoint) :
  foldl (fun out point =>
    match last out with
    | None => out ++ [point]
    | Some l =>
        if negb (x l =? x point) || negb (y l =? y point) then out ++ [point]
        else out
    end) (acc ++ [a]) l
  = acc ++ a :: uniqueFrom a l.
Proof.
  revert acc a. induction l as [| p l IH]; intros acc a; cbn [foldl uniqueFrom].
  - reflexivity.
  - rewrite last_snoc. destruct (negb (x a =? x p) || negb (y a =? y p)).
    + rewrite IH. now rewrite <- app_assoc.
    + apply IH.
Qed.

Lemma uniqueConsecutive_cons (a : GridPoint) (l : list GridPoint) :
  uniqueConsecutive (a :: l) = a :: uniqueFrom a l.
Proof. unfold uniqueConsecutive. cbn [foldl last app]. apply (unique_fold [] a l). Qed.

Lemma uniqueFrom_sublist (a : GridPoint) (l : list GridPoint) :
  uniqueFrom a l `sublist_of` l.
Proof.
  revert a. induction l as [| p l IH]; intros a; cbn [uniqueFrom].
  - constructor.
  - destruct (negb _ || negb _); [apply sublist_skip, IH | apply sublist_cons, IH].
Qed.

Lemma uniqueFrom_last (a : GridPoint) (l : list GridPoint) :
  last (a :: uniqueFrom a l) = last (a :: l).
Proof.
  revert a. induction l as [| p l IH]; intros a; cbn [uniqueFrom]; [reflexivity |].
  destruct (negb (x a =? x p) || negb (y a =? y p)) eqn:E.
  - rewrite !last_cons_cons. apply IH.
  - apply point_eqb in E. subst p. rewrite IH. now rewrite !last_cons_cons.
Qed.

Lemma uniqueFrom_noRepeat (a : GridPoint) (l : list GridPoint) :
  noRepeat (a :: uniqueFrom a l).
Proof.
  revert a. induction l as [| p l IH]; intros a; cbn [uniqueFrom]; [exact I |].
  destruct (negb (x a =? x p) || negb (y a =? y p)) eqn:E; [| apply IH].
  split; [| apply IH]. intros ->.
  assert (E' : negb (x p =? x p) || negb (y p =? y p) = false) by now apply point_eqb.
  congruence.
Qed.

Lemma uniqueFrom_fixed (a : GridPoint) (l : list GridPoint) :
  noRepeat (a :: l) -> uniqueFrom a l = l.
Proof.
  revert a. induction l as [| p l IH]; intros a; [reflexivity |].
  cbn [noRepeat uniqueFrom]. intros (Hne & Hl).
  destruct (negb (x a =? x p) || negb (y a =? y p)) eqn:E.
  - f_equal. now apply IH.
  - apply point_eqb in E. contradiction.
Qed.

(** X22. [uniqueConsecutive] removes repeated points and nothing else: the
    result is a subsequence of the points with the same first and the same
    last point, in which no point is followed by itself; applying it twice
    changes nothing more. *)
Theorem uniqueConsecutive_removes_repeats (pts : list GridPoint) :
  head (uniqueConsecutive pts) = head pts /\
  last (uniqueConsecutive pts) = last pts /\
  uniqueConsecutive pts `sublist_of` pts /\
  noRepeat (uniqueConsecutive pts) /\
  uniqueConsecutive (uniqueConsecutive pts) = uniqueConsecutive pts.
Proof.
  destruct pts as [| a l]; [repeat split; constructor |].
  rewrite !uniqueConsecutive_cons.
  split; [reflexivity |]. split; [apply uniqueFrom_last |].
  split; [apply sublist_skip, uniqueFrom_sublist |].
  split; [apply uniqueFrom_noRepeat |].
  f_equal. apply uniqueFrom_fixed, uniqueFrom_noRepeat.
Qed.

Lemma find_route_id (i : string) (rs : list RoutedEdge) (r : RoutedEdge) :
  List.find (fun fallback => String.eqb (routeId fallback) i) rs = Some r ->
  r ∈ rs /\ routeId r = i.
Proof.
  intros H. apply find_some in H as (Hin & E).
  split; [now apply list_elem_of_In | now apply String.eqb_eq].
Qed.

Lemma find_route_none (i : string) (rs : list RoutedEdge) :
  List.find (fun fallback => String.eqb (routeId fallback) i) rs = None ->
  forall r, r ∈ rs -> routeId r <> i.
Proof.
  intros H r Hr E. apply list_elem_of_In in Hr.
  pose proof (find_none _ _ H r Hr) as Hf. cbn beta in Hf.
  apply String.eqb_neq in Hf. contradiction.
Qed.

(** X23. The routes of [routeElk].  Without a layout function the result
    is the draft router's, marked [fallbackUsed].  With one, the routes
    answer the edges of the layout in their order and under their ids: an
    edge with two or more distinct consecutive points keeps these, any
    other edge takes the draft route of the same id when there is one and
    keeps its own short point list when there is none; the cost is
    evaluated on the routes returned, and [fallbackUsed] stays false even
    when draft routes were taken. *)
Theorem routeElk_routes (fuel : nat) (input : ElkRouterInput) (result : ElkRouterResult) :
  routeElk localeCompare fuel input = Some result ->
  exists draft,
    routeDraft localeCompare fuel (draftInputOf input) = Some draft /\
    match elkLayout input with
    | None => result = mkElkResult (Router.routes draft) (Router.cost draft) true
    | Some layoutFn =>
        fallbackUsed result = false /\
        cost result = evaluateRouteCost (routes result) /\
        Forall2 (fun edge route =>
          routeId route = layout_edge_id edge /\
          if 2 <=? Z.of_nat (length (elkPoints edge)) then
            points route = elkPoints edge
          else
            (route ∈ Router.routes draft) \/
            (points route = elkPoints edge /\
             forall r, r ∈ Router.routes draft -> routeId r <> layout_edge_id edge))
          (layout_edges (layoutFn (toElkGraph input))) (routes result)
    end.
Proof.
  unfold routeElk. fold (draftInputOf input).
  destruct (routeDraft localeCompare fuel (draftInputOf input)) as [draft |] eqn:Ed;
    cbn [mbind option_bind]; [| discriminate].
  intros H. exists draft. split; [reflexivity |].
  destruct (elkLayout input) as [layoutFn |]; injection H as <-;
    cbn [fallbackUsed cost routes]; [| reflexivity].
  split; [reflexivity |]. split; [reflexivity |].
  rewrite map_map.
  induction (layout_edges (layoutFn (toElkGraph input))) as [| edge rest IH];
    cbn [map]; constructor; [| exact IH].
  fold (elkPoints edge). cbn [points routeId].
  destruct (2 <=? Z.of_nat (length (elkPoints edge))) eqn:E2.
  - cbn [routeId points]. now split.
  - destruct (List.find _ (Router.routes draft)) as [r |] eqn:Ef; cbn [default].
    + apply find_route_id in Ef as (Hin & Hid). split; [exact Hid | now left].
    + cbn [routeId points]. split; [reflexivity |]. right.
      split; [reflexivity |]. now apply find_route_none.
Qed.

End ElkFacts.

(** *** The facade: traces and selections *)

Section FacadeExtra.

Import Router Facade.

Variable localeCompare : string -> string -> Z.

Lemma toSelectedCost_id (c : RouteCost) : toSelectedCost c = c.
Proof. now destruct c. Qed.

(** One iteration of the loop of [runHybrid], spelled out: [d] is the
    draft routing of the step and [elk] the precise one, when it ran. *)
Lemma hybridStep_entry (fuel : nat) (input : RouterFacadeInput) (every count : Z)
  (st : HybridState) (i : Z) (s : RouterStep) (st' : HybridState) :
  hybridStep localeCompare fuel input every count st i s = Some st' ->
  exists (d : DraftRouterResult) (elk : option ElkRouter.ElkRouterResult),
    routeDraft localeCompare fuel (step_draft s) = Some d /\
    (forall r, elk = Some r ->
       exists e, step_elk s = Some e /\
         ElkRouter.routeElk localeCompare fuel (withDraftInput e (step_draft s))
         = Some r) /\
    (i = count - 1 -> is_Some (step_elk s) -> is_Some elk) /\
    hybridSelected st'
    = match elk with Some r => SelectedElk r | None => SelectedDraft d end /\
    hybridTrace st'
    = hybridTrace st ++
      [mkTrace i (step_label s) Hybrid (default false (step_accepted s))
         (cost d)
         (option_map ElkRouter.cost elk)
         (match elk with Some r => ElkRouter.cost r | None => cost d end)
         (scoreCost (match elk with Some r => ElkRouter.cost r | None => cost d end)
            (score input))].
Proof.
  unfold hybridStep.
  destruct (routeDraft localeCompare fuel (step_draft s)) as [d |];
    cbn [mbind option_bind]; [| discriminate].
  set (c := if default false (step_accepted s) then _ else _).
  destruct (step_elk s) as [e |] eqn:Ee.
  - rewrite bool_decide_eq_true_2 by eauto. cbn [andb].
    destruct ((every <=? c) || (i =? count - 1)) eqn:Efire.
    + destruct (ElkRouter.routeElk localeCompare fuel _) as [r |] eqn:Er;
        cbn [mbind option_bind]; [| discriminate].
      intros [= <-]. exists d, (Some r). cbn [hybridSelected hybridTrace option_map].
      rewrite !toSelectedCost_id.
      split; [reflexivity |]. split; [| split; [eauto | split; reflexivity]].
      intros r' [= <-]. exists e. split; [reflexivity | exact Er].
    + cbn [mbind option_bind]. intros [= <-]. exists d, None.
      cbn [hybridSelected hybridTrace option_map]. rewrite !toSelectedCost_id.
      split; [reflexivity |]. split; [discriminate |].
      split; [| split; reflexivity].
      intros Hi _. apply orb_false_iff in Efire as [_ Efire].
      apply Z.eqb_neq in Efire. contradiction.
  - rewrite bool_decide_eq_false_2 by (intros [? ?]; discriminate).
    cbn [andb mbind option_bind]. intros [= <-]. exists d, None.
    cbn [hybridSelected hybridTrace option_map]. rewrite !toSelectedCost_id.
    split; [reflexivity |]. split; [discriminate |].
    split; [| split; reflexivity].
    intros _ [? ?]. discriminate.
Qed.

Lemma hybridLoop_entries (fuel : nat) (input : RouterFacadeInput) (every count : Z)
  (steps : list RouterStep) :
  forall (st : HybridState) (i : Z) (st' : HybridState),
    hybridLoop localeCompare fuel input every count st i steps = Some st' ->
    exists new : list RouteDebugTrace,
      hybridTrace st' = hybridTrace st ++ new /\
      map stepIndex new = seqZ i (Z.of_nat (length steps)) /\
      Forall2 (fun s e =>
        trace_mode e = Hybrid /\
        label e = step_label s /\
        accepted e = default false (step_accepted s) /\
        (exists d, routeDraft localeCompare fuel (step_draft s) = Some d /\
                   draftCost e = cost d) /\
        (step_elk s = None -> elkCost e = None) /\
        selectedCost e = default (draftCost e) (elkCost e) /\
        selectedScore e = scoreCost (selectedCost e) (score input)) steps new.
Proof.
  induction steps as [| s steps IH]; intros st i st'; cbn [hybridLoop].
  - intros [= <-]. exists []. rewrite app_nil_r. repeat split. constructor.
  - destruct (hybridStep localeCompare fuel input every count st i s)
      as [st1 |] eqn:E; cbn [mbind option_bind]; [| discriminate].
    intros H. destruct (IH _ _ _ H) as (new & Htr & Hidx & Hall).
    apply hybridStep_entry in E as (d & elk & Hd & Helk & _ & _ & Htr1).
    eexists (_ :: new). rewrite Htr, Htr1, <- app_assoc.
    split; [reflexivity |]. split.
    + cbn [map stepIndex length]. rewrite Hidx, Nat2Z.inj_succ, (seqZ_cons i) by lia.
      f_equal. f_equal; lia.
    + constructor; [| exact Hall].
      cbn [trace_mode label accepted draftCost elkCost selectedCost selectedScore].
      repeat split; eauto.
      * intros Hnone. destruct elk as [r |]; [| reflexivity].
        destruct (Helk r eq_refl) as (e & He & _). congruence.
      * now destruct elk.
Qed.

Lemma hybridLoop_selected (fuel : nat) (input : RouterFacadeInput) (every count : Z)
  (steps : list RouterStep) :
  forall (st st' : HybridState) (i : Z) (s : RouterStep),
    i + Z.of_nat (length steps) = count ->
    hybridLoop localeCompare fuel input every count st i steps = Some st' ->
    last steps = Some s ->
    match step_elk s with
    | Some e =>
        exists r, hybridSelected st' = SelectedElk r /\
          ElkRouter.routeElk localeCompare fuel (withDraftInput e (step_draft s))
          = Some r
    | None =>
        exists d, hybridSelected st' = SelectedDraft d /\
          routeDraft localeCompare fuel (step_draft s) = Some d
    end.
Proof.
  induction steps as [| s0 steps IH]; intros st st' i s Hcount; cbn [hybridLoop];
    [discriminate 2 |].
  destruct (hybridStep localeCompare fuel input every count st i s0)
    as [st1 |] eqn:E; cbn [mbind option_bind]; [| discriminate].
  intros H Hlast. cbn [length] in Hcount. destruct steps as [| s1 steps].
  - cbn [hybridLoop] in H. injection H as <-. cbn in Hlast. injection Hlast as <-.
    apply hybridStep_entry in E as (d & elk & Hd & Helk & Hend & Hsel & _).
    destruct (step_elk s0) as [e |] eqn:Ee.
    + destruct Hend as [r Hr]; [cbn [length] in Hcount; lia | eauto |].
      subst elk. destruct (Helk r eq_refl) as (e' & [= <-] & Hr).
      exists r. split; [exact Hsel | exact Hr].
    + destruct elk as [r |].
      * destruct (Helk r eq_refl) as (e' & He' & _). discriminate.
      * exists d. split; [exact Hsel | exact Hd].
  - rewrite last_cons_cons in Hlast.
    apply (IH st1 st' (i + 1) s); [lia | exact H | exact Hlast].
Qed.

(** X24. The trace of a hybrid run has one entry per step, in order and
    numbered from 0: each carries the step's label and acceptance flag and
    the mode [hybrid], its draft cost is the cost of the draft routing of
    that step, it has no precise cost when the step has no precise router,
    its selected cost is the precise cost when there is one and the draft
    cost otherwise, and its score is the score of the selected cost. *)
Theorem runHybrid_trace (fuel : nat) (input : RouterFacadeInput)
  (res : RouterFacadeResult) :
  runHybrid localeCompare fuel input = Some res ->
  let steps := default [step input] (stepsForHybrid input) in
  map stepIndex (trace res) = seqZ 0 (Z.of_nat (length steps)) /\
  Forall2 (fun s e =>
    trace_mode e = Hybrid /\
    label e = step_label s /\
    accepted e = default false (step_accepted s) /\
    (exists d, routeDraft localeCompare fuel (step_draft s) = Some d /\
               draftCost e = cost d) /\
    (step_elk s = None -> elkCost e = None) /\
    selectedCost e = default (draftCost e) (elkCost e) /\
    selectedScore e = scoreCost (selectedCost e) (score input)) steps (trace res).
Proof.
  intros H steps. unfold runHybrid in H. fold steps in H.
  destruct (head steps) as [first |]; cbn [mbind option_bind] in H; [| discriminate].
  destruct (routeDraft localeCompare fuel (step_draft first)) as [sel |];
    cbn [mbind option_bind] in H; [| discriminate].
  destruct (hybridLoop localeCompare fuel input _ _ _ 0 steps) as [final |] eqn:E;
    cbn [mbind option_bind] in H; [| discriminate].
  injection H as <-. cbn [trace].
  apply hybridLoop_entries in E as (new & Htr & Hidx & Hall).
  cbn [hybridTrace app] in Htr. rewrite Htr. split; [exact Hidx | exact Hall].
Qed.

(** X25. What a hybrid run selects is the routing of its last step: the
    precise routing when the last step carries a precise router, which the
    last step always consults, and the draft routing of the last step
    otherwise.  There is a last step: a run on an empty list of steps
    returns nothing. *)
Theorem runHybrid_selects_last (fuel : nat) (input : RouterFacadeInput)
  (res : RouterFacadeResult) :
  runHybrid localeCompare fuel input = Some res ->
  exists s,
    last (default [step input] (stepsForHybrid input)) = Some s /\
    match step_elk s with
    | Some e =>
        exists r, selected res = SelectedElk r /\
          ElkRouter.routeElk localeCompare fuel (withDraftInput e (step_draft s))
          = Some r
    | None =>
        exists d, selected res = SelectedDraft d /\
          routeDraft localeCompare fuel (step_draft s) = Some d
    end.
Proof.
  intros H. unfold runHybrid in H.
  set (steps := default [step input] (stepsForHybrid input)) in *.
  destruct (head steps) as [first |] eqn:Eh; cbn [mbind option_bind] in H;
    [| discriminate].
  destruct (routeDraft localeCompare fuel (step_draft first)) as [sel |];
    cbn [mbind option_bind] in H; [| discriminate].
  destruct (hybridLoop localeCompare fuel input _ _ _ 0 steps) as [final |] eqn:E;
    cbn [mbind option_bind] in H; [| discriminate].
  injection H as <-. cbn [selected].
  destruct (last steps) as [s |] eqn:El.
  - exists s. split; [reflexivity |].
    eapply hybridLoop_selected; [| exact E | exact El]. lia.
  - apply last_None in El. rewrite El in Eh. discriminate.
Qed.

(** X26. On a single step (no [stepsForHybrid]) hybrid mode agrees with
    the two plain modes: it returns what draft mode returns when the step
    has no precise router and what elk mode returns when it has one, the
    mode tag of the trace entry apart. *)
Theorem hybrid_single_step (fuel : nat) (input : RouterFacadeInput) :
  stepsForHybrid input = None ->
  routeWithFacade localeCompare fuel (withMode Hybrid input)
  = option_map (retagResult Hybrid)
      (routeWithFacade localeCompare fuel
         (withMode (match step_elk (step input) with
                    | Some _ => Elk
                    | None => Draft
                    end) input)).
Proof.
  intros Hnone. unfold routeWithFacade, withMode. cbn [mode step score].
  unfold runHybrid. cbn [stepsForHybrid hybridRescoreEveryAccepted step score].
  rewrite Hnone. cbn [default head mbind option_bind length hybridLoop].
  unfold hybridStep. cbn [score acceptedSinceElk hybridTrace].
  destruct (step_elk (step input)) as [e |] eqn:Ee; cbn [mode default].
  - rewrite bool_decide_eq_true_2 by eauto.
    rewrite Z.eqb_refl, orb_true_r. cbn [andb].
    destruct (routeDraft localeCompare fuel (step_draft (step input))) as [d |];
      cbn [mbind option_bind option_map].
    + destruct (ElkRouter.routeElk localeCompare fuel _) as [r |];
        cbn [mbind option_bind option_map]; reflexivity.
    + destruct (ElkRouter.routeElk localeCompare fuel _) as [r |];
        cbn [mbind option_bind option_map]; reflexivity.
  - rewrite bool_decide_eq_false_2 by (intros [? ?]; discriminate).
    cbn [andb].
    destruct (routeDraft localeCompare fuel (step_draft (step input))) as [d |];
      cbn [mbind option_bind option_map]; reflexivity.
Qed.

End FacadeExtra.

Section FacadeExtraExamples.

Import Router ElkRouter Facade.

Lemma routeElk_routes_witness :
  match routeElk codeUnitCompare 50 sampleElkInput with
  | Some result =>
      fallbackUsed result = false /\
      cost result = evaluateRouteCost (routes result) /\
      map routeId (routes result) = ["e"; "x"; "f"]
  | None => False
  end.
Proof.
  destruct (routeElk codeUnitCompare 50 sampleElkInput) as [result |] eqn:E;
    [| vm_compute in E; discriminate E].
  destruct (routeElk_routes codeUnitCompare 50 sampleElkInput result E)
    as (draft & _ & Hf & Hc & _).
  split; [exact Hf |]. split; [exact Hc |].
  vm_compute in E. injection E as <-. reflexivity.
Defined.

Lemma runHybrid_trace_witness :
  match runHybrid codeUnitCompare 50 twelveSteps with
  | Some res => map stepIndex (trace res) = seqZ 0 12
  | None => False
  end.
Proof.
  destruct (runHybrid codeUnitCompare 50 twelveSteps) as [res |] eqn:E;
    [| vm_compute in E; discriminate E].
  exact (proj1 (runHybrid_trace codeUnitCompare 50 twelveSteps res E)).
Defined.

Lemma runHybrid_selects_last_witness :
  match runHybrid codeUnitCompare 50 twelveSteps with
  | Some res => exists r, selected res = SelectedElk r
  | None => False
  end.
Proof.
  destruct (runHybrid codeUnitCompare 50 twelveSteps) as [res |] eqn:E;
    [| vm_compute in E; discriminate E].
  destruct (runHybrid_selects_last codeUnitCompare 50 twelveSteps res E)
    as (s & Hlast & Hsel).
  cbn in Hlast. injection Hlast as <-. cbn [step_elk hybridStepOf] in Hsel.
  destruct Hsel as (r & Hr & _). exists r. exact Hr.
Defined.

Lemma hybrid_single_step_witness :
  routeWithFacade codeUnitCompare 50 (withMode Hybrid singleStep)
  = option_map (retagResult Hybrid)
      (routeWithFacade codeUnitCompare 50 (withMode Elk singleStep)).
Proof. exact (hybrid_single_step codeUnitCompare 50 singleStep eq_refl). Defined.

End FacadeExtraExamples.

(** *** The cost model, continued *)

Section CostExtra.

Import Cost.

Local Open Scope float_scope.

Lemma finiteOrZero_idempotent (value : option float) :
  finiteOrZero (Some (finiteOrZero value)) = finiteOrZero value.
Proof.
  destruct value as [v |]; [| reflexivity].
  cbn [finiteOrZero]. destruct (isFinite v) eqn:E; [now rewrite E | reflexivity].
Qed.

(** X27. What [computeCost] does with what is missing or unusable.  A
    scalar measurement that is absent, NaN or infinite counts as 0: the
    cost is that of the inputs with these measurements written out.  Spans
    of the layout shadow the spans of the routing, also when the layout's
    list is empty.  Without a [weights] object every weight is 1. *)
Theorem computeCost_defaults (layout : LayoutCostInput) (routing : RoutingCostInput)
  (config : CostConfig) :
  computeCost layout routing config
  = computeCost (sanitizedLayout layout) (sanitizedRouting routing) config /\
  (forall (s : list float) (other : option (list float)),
     layoutSpans layout = Some s ->
     computeCost layout routing config
     = computeCost layout (withRoutingSpans routing other) config) /\
  (weights config = None ->
   computeCost layout routing config
   = computeCost layout routing (mkCostConfig (Some unitWeights))).
Proof.
  split; [| split].
  - unfold computeCost, sanitizedLayout, sanitizedRouting.
    cbn [positions layoutSpans waste crossings bends flowOutViolations
         flowDownViolations routingSpans].
    now rewrite !finiteOrZero_idempotent.
  - intros s other Hs. unfold computeCost, withRoutingSpans.
    cbn [crossings bends flowOutViolations flowDownViolations routingSpans].
    now rewrite Hs.
  - intros Hw. unfold computeCost. cbn [weights]. rewrite Hw. reflexivity.
Qed.

End CostExtra.

(** *** Plate keys *)

Section PlateFacts.

Import IR.

Variable localeCompare : string -> string -> Z.

Lemma newSet_fold (values out : list string) :
  NoDup out ->
  NoDup (foldl (fun out v => if bool_decide (v ∈ out) then out else out ++ [v])
           out values) /\
  forall d,
    d ∈ foldl (fun out v => if bool_decide (v ∈ out) then out else out ++ [v])
          out values
    <-> d ∈ out \/ d ∈ values.
Proof.
  revert out. induction values as [| v values IH]; intros out Hout; cbn [foldl].
  - split; [exact Hout |]. intros d. split; [now left |].
    intros [H | H]; [exact H | inversion H].
  - destruct (bool_decide (v ∈ out)) eqn:E.
    + apply bool_decide_eq_true in E. destruct (IH out Hout) as (Hnd & Hin).
      split; [exact Hnd |]. intros d. rewrite Hin, elem_of_cons.
      split; [intros [H | H]; auto |].
      intros [H | [-> | H]]; auto.
    + apply bool_decide_eq_false in E.
      assert (Hout' : NoDup (out ++ [v])).
      { apply NoDup_app. split; [exact Hout |]. split; [| apply NoDup_singleton].
        intros d Hd Hv. apply list_elem_of_singleton in Hv. now subst. }
      destruct (IH _ Hout') as (Hnd & Hin).
      split; [exact Hnd |]. intros d.
      rewrite Hin, elem_of_app, list_elem_of_singleton, elem_of_cons. tauto.
Qed.

Lemma newSet_NoDup (values : list string) : NoDup (newSet values).
Proof. apply (newSet_fold values []). constructor. Qed.

Lemma newSet_elem (values : list string) (d : string) :
  d ∈ newSet values <-> d ∈ values.
Proof.
  unfold newSet. rewrite (proj2 (newSet_fold values [] (NoDup_nil_2)) d).
  split; [intros [H | H]; [inversion H | exact H] | now right].
Qed.

Lemma newSet_fixed_from (values out : list string) :
  NoDup (out ++ values) ->
  foldl (fun out v => if bool_decide (v ∈ out) then out else out ++ [v]) out values
  = out ++ values.
Proof.
  revert out. induction values as [| v values IH]; intros out Hnd; cbn [foldl].
  - now rewrite app_nil_r.
  - assert (Hv : v ∉ out).
    { apply NoDup_app in Hnd as (_ & Hd & _). intros Hin.
      apply (Hd v Hin). constructor. }
    rewrite bool_decide_eq_false_2 by exact Hv.
    rewrite IH by (now rewrite <- app_assoc). now rewrite <- app_assoc.
Qed.

Lemma newSet_fixed (values : list string) : NoDup values -> newSet values = values.
Proof. intros H. apply (newSet_fixed_from values []). exact H. Qed.

Section Sorting.

Context {A : Type}.
Variable cmp : A -> A -> Z.

Lemma jsSort_fixed (l : list A) :
  StronglySorted (notAfter cmp) l -> jsSort cmp l = l.
Proof.
  induction 1 as [| x l Hs IH Hx]; [reflexivity |].
  unfold jsSort in *. cbn [foldr]. rewrite IH.
  destruct l as [| y l]; [reflexivity |]. cbn [jsSortInsert].
  apply Forall_cons in Hx as (Hxy & _). unfold notAfter in Hxy.
  now rewrite (proj2 (Z.ltb_ge 0 (cmp x y))) by exact Hxy.
Qed.

End Sorting.

Hypothesis cmp_total :
  forall a b : string, notAfter localeCompare a b \/ notAfter localeCompare b a.
Hypothesis cmp_trans :
  forall a b c : string,
    notAfter localeCompare a b -> notAfter localeCompare b c ->
    notAfter localeCompare a c.

Lemma normalizeDims_sorted (ds : list string) :
  StronglySorted (notAfter localeCompare) (normalizeDims localeCompare ds).
Proof. apply jsSort_sorted; assumption. Qed.

Lemma normalizeDims_NoDup (ds : list string) : NoDup (normalizeDims localeCompare ds).
Proof. unfold normalizeDims. rewrite jsSort_perm. apply newSet_NoDup. Qed.

Lemma normalizeDims_elem (ds : list string) (d : string) :
  d ∈ normalizeDims localeCompare ds <-> d ∈ ds.
Proof. unfold normalizeDims. rewrite jsSort_perm. apply newSet_elem. Qed.

Lemma normalizeDims_same (ds ds' : list string) :
  (forall a b : string,
     notAfter localeCompare a b -> notAfter localeCompare b a -> a = b) ->
  (forall d, d ∈ ds <-> d ∈ ds') ->
  normalizeDims localeCompare ds = normalizeDims localeCompare ds'.
Proof.
  intros Hanti Hsame. unfold normalizeDims.
  apply jsSort_permutation; [exact cmp_total | exact cmp_trans | |].
  - intros a b _ _. apply Hanti.
  - apply NoDup_Permutation; [apply newSet_NoDup | apply newSet_NoDup |].
    intros d. now rewrite !newSet_elem.
Qed.

(** X28. [normalizeDims] gives the canonical form of a set of dimension
    ids when [localeCompare] is a total preorder: the result holds exactly
    the ids of the input, each once, in ascending order, and normalising
    again changes nothing.  When no two different ids compare as equal, two
    lists with the same ids, in whatever order and with whatever
    repetitions, normalise to the same list and so get the same plate key. *)
Theorem normalizeDims_canonical (ds : list string) :
  StronglySorted (notAfter localeCompare) (normalizeDims localeCompare ds) /\
  NoDup (normalizeDims localeCompare ds) /\
  (forall d, d ∈ normalizeDims localeCompare ds <-> d ∈ ds) /\
  normalizeDims localeCompare (normalizeDims localeCompare ds)
  = normalizeDims localeCompare ds /\
  ((forall a b : string,
      notAfter localeCompare a b -> notAfter localeCompare b a -> a = b) ->
   forall ds' : list string,
     (forall d, d ∈ ds <-> d ∈ ds') ->
     normalizeDims localeCompare ds = normalizeDims localeCompare ds' /\
     plateKeyForDims localeCompare ds = plateKeyForDims localeCompare ds').
Proof.
  split; [apply normalizeDims_sorted |]. split; [apply normalizeDims_NoDup |].
  split; [apply normalizeDims_elem |]. split.
  - unfold normalizeDims at 1.
    rewrite newSet_fixed by apply normalizeDims_NoDup.
    apply jsSort_fixed, normalizeDims_sorted.
  - intros Hanti ds' Hsame. unfold plateKeyForDims.
    now rewrite (normalizeDims_same ds ds' Hanti Hsame).
Qed.

Lemma byKey_fold (templates : list NodeTemplate) :
  forall byKey : list (string * list string),
    NoDup (map fst byKey) ->
    let result :=
      foldl (fun (byKey : list (string * list string)) template =>
        let dims := normalizeDims localeCompare (dims template) in
        let key := join "|" dims in
        if bool_decide (key ∈ map fst byKey) then byKey
        else byKey ++ [(key, dims)]) byKey templates in
    NoDup (map fst result) /\
    (forall e, e ∈ result ->
       e ∈ byKey \/
       exists t, t ∈ templates /\
         e = (plateKeyForDims localeCompare (dims t),
              normalizeDims localeCompare (dims t))) /\
    (forall e, e ∈ byKey -> e ∈ result) /\
    (forall t, t ∈ templates ->
       plateKeyForDims localeCompare (dims t) ∈ map fst result).
Proof.
  induction templates as [| t templates IH]; intros byKey Hnd; cbn [foldl].
  - cbv zeta. split; [exact Hnd |]. split; [now left |]. split; [auto |].
    intros t Ht. inversion Ht.
  - cbv zeta. fold (plateKeyForDims localeCompare (dims t)).
    set (k := plateKeyForDims localeCompare (dims t)).
    destruct (bool_decide (k ∈ map fst byKey)) eqn:E.
    + apply bool_decide_eq_true in E.
      destruct (IH byKey Hnd) as (H1 & H2 & H3 & H4). cbv zeta in H1, H2, H3, H4.
      split; [exact H1 |]. split; [| split; [exact H3 |]].
      * intros e He. destruct (H2 e He) as [Hin | (t' & Ht' & ->)]; [now left |].
        right. exists t'. split; [now constructor | reflexivity].
      * intros t' Ht'. apply elem_of_cons in Ht' as [-> | Ht']; [| now apply H4].
        apply list_elem_of_In, in_map_iff in E as (e & Ee & Hin).
        apply list_elem_of_In, in_map_iff. exists e. split; [exact Ee |].
        apply list_elem_of_In, H3, list_elem_of_In. exact Hin.
    + apply bool_decide_eq_false in E.
      assert (Hnd' : NoDup (map fst (byKey ++ [(k, normalizeDims localeCompare (dims t))]))).
      { rewrite map_app. cbn [map fst]. apply NoDup_app.
        split; [exact Hnd |]. split; [| apply NoDup_singleton].
        intros d Hd Hk. apply list_elem_of_singleton in Hk. now subst. }
      destruct (IH _ Hnd') as (H1 & H2 & H3 & H4). cbv zeta in H1, H2, H3, H4.
      split; [exact H1 |]. split; [| split].
      * intros e He. destruct (H2 e He) as [Hin | (t' & Ht' & ->)].
        -- apply elem_of_app in Hin as [Hin | Hin]; [now left |].
           apply list_elem_of_singleton in Hin. right. exists t.
           split; [constructor | exact Hin].
        -- right. exists t'. split; [now constructor | reflexivity].
      * intros e He. apply H3, elem_of_app. now left.
      * intros t' Ht'. apply elem_of_cons in Ht' as [-> | Ht']; [| now apply H4].
        apply list_elem_of_In, in_map_iff.
        exists (k, normalizeDims localeCompare (dims t)). split; [reflexivity |].
        apply list_elem_of_In, H3, elem_of_app. right. constructor.
Qed.

(** X29. The plate hierarchies of a list of templates, for a total
    preorder [localeCompare]: they come in ascending order of their keys
    and no key occurs twice; every hierarchy stems from a template, whose
    normalised dimensions are its [dims] and its [path] and whose plate key
    is its [key]; and every template finds a hierarchy under its plate
    key. *)
Theorem inferPlateHierarchies_keys (templates : list NodeTemplate) :
  let hs := inferPlateHierarchies localeCompare templates in
  StronglySorted (fun a b => notAfter localeCompare (key a) (key b)) hs /\
  NoDup (map key hs) /\
  (forall h, h ∈ hs ->
     path h = plate_dims h /\
     exists t, t ∈ templates /\
       key h = plateKeyForDims localeCompare (dims t) /\
       plate_dims h = normalizeDims localeCompare (dims t)) /\
  (forall t, t ∈ templates ->
     exists h, h ∈ hs /\ key h = plateKeyForDims localeCompare (dims t)).
Proof.
  cbv zeta. unfold inferPlateHierarchies.
  set (byKey := foldl _ [] templates).
  destruct (byKey_fold templates [] (NoDup_nil_2)) as (Hnd & Hfrom & _ & Hall).
  cbv zeta in Hnd, Hfrom, Hall. fold byKey in Hnd, Hfrom, Hall.
  set (cmp := fun a b : string * list string => localeCompare (fst a) (fst b)).
  pose proof (jsSort_perm cmp byKey) as Hperm.
  assert (Hsorted : StronglySorted (notAfter cmp) (jsSort cmp byKey)).
  { apply jsSort_sorted.
    - intros a b. apply cmp_total.
    - intros a b c. apply cmp_trans. }
  split; [| split; [| split]].
  - clear Hperm. induction Hsorted as [| e l _ IH He]; cbn [map];
      [constructor | constructor; [exact IH |]].
    apply Forall_forall. intros h Hh.
    apply list_elem_of_In, in_map_iff in Hh as (e' & <- & Hin).
    cbn [key]. rewrite Forall_forall in He. apply He. now apply list_elem_of_In.
  - rewrite map_map. cbn [key]. change (map (fun x => fst x)) with (map (@fst string (list string))).
    rewrite Hperm. exact Hnd.
  - intros h Hh. apply list_elem_of_In, in_map_iff in Hh as (e & <- & Hin).
    cbn [path plate_dims key]. split; [reflexivity |].
    apply list_elem_of_In in Hin. rewrite Hperm in Hin.
    destruct (Hfrom e Hin) as [Hnil | (t & Ht & ->)]; [inversion Hnil |].
    exists t. cbn [fst snd]. auto.
  - intros t Ht. specialize (Hall t Ht).
    apply list_elem_of_In, in_map_iff in Hall as (e & Ee & Hin).
    exists (mkPlateHierarchy (fst e) (snd e) (snd e)). cbn [key].
    split; [| exact Ee].
    apply list_elem_of_In, in_map_iff. exists e. split; [reflexivity |].
    apply list_elem_of_In. rewrite Hperm. now apply list_elem_of_In.
Qed.

End PlateFacts.

(** *** Acceptance history *)

Section HistoryFacts.

Import History.

Lemma accepted_fold (window : list HistoryPoint) (acc : Z) :
  foldl (fun acc p => acc + (if accepted p then 1 else 0)) acc window
  = acc + acceptedIn window.
Proof.
  unfold acceptedIn. revert acc. induction window as [| p window IH]; intros acc;
    cbn [foldl]; [cbn; lia |].
  rewrite IH, filter_cons. destruct (accepted p) eqn:E.
  - rewrite decide_True by reflexivity. cbn [length]. lia.
  - rewrite decide_False by discriminate. lia.
Qed.

Lemma acceptedIn_range (window : list HistoryPoint) :
  0 <= acceptedIn window <= Z.of_nat (length window).
Proof.
  unfold acceptedIn. pose proof (length_filter (fun p => accepted p = true) window).
  lia.
Qed.

Lemma slice_window (history : list HistoryPoint) (i : nat) (w : Z) :
  (i < length history)%nat -> 1 <= w ->
  let n := Z.to_nat (Z.min (Z.of_nat i + 1) w) in
  slice history (Z.max 0 (Z.of_nat i - w + 1)) (Z.of_nat i + 1) = windowAt history i n /\
  Z.of_nat (length (windowAt history i n)) = Z.min (Z.of_nat i + 1) w.
Proof.
  intros Hi Hw n. unfold slice, windowAt.
  replace (Z.to_nat (Z.of_nat i + 1 - Z.max 0 (Z.of_nat i - w + 1))) with n by lia.
  replace (Z.to_nat (Z.max 0 (Z.of_nat i - w + 1))) with (i + 1 - n)%nat by lia.
  split; [reflexivity |].
  rewrite length_take, length_drop. lia.
Qed.

(** X30. [rollingAcceptanceRatio] returns one point per history point,
    with that point's iteration number.  Its window holds the point and the
    points before it, as many as there are up to the window size, which is
    [max 1 (floor windowSize)] and 50 by default; the ratio is the number of
    accepted points of the window divided by its size, so it lies between 0
    and 1, and the window is never empty. *)
Theorem rollingAcceptanceRatio_windows (history : list HistoryPoint)
  (size : option Q) :
  let w := Z.max 1 (Qfloor (default (50 # 1) size)) in
  let out := rollingAcceptanceRatio history size in
  length out = length history /\
  forall (i : nat) (p : HistoryPoint),
    history !! i = Some p ->
    exists q : AcceptancePoint,
      out !! i = Some q /\
      ap_iter q = iter p /\
      windowSize q = Z.min (Z.of_nat i + 1) w /\
      (acceptanceRatio q
       == inject_Z (acceptedIn (windowAt history i (Z.to_nat (windowSize q))))
          / inject_Z (windowSize q))%Q /\
      (0 <= acceptanceRatio q <= 1)%Q.
Proof.
  intros w out. unfold out, rollingAcceptanceRatio. fold w.
  split; [apply length_imap |].
  intros i p Hp. rewrite list_lookup_imap, Hp. cbn [fmap option_fmap option_map].
  eexists. split; [reflexivity |].
  cbn [ap_iter windowSize acceptanceRatio].
  assert (Hi : (i < length history)%nat) by (now apply lookup_lt_Some in Hp).
  destruct (slice_window history i w Hi ltac:(lia)) as (Hs & Hl). cbv zeta in Hs, Hl.
  rewrite Hs, Hl, accepted_fold, Z.add_0_l.
  set (n := Z.min (Z.of_nat i + 1) w) in *.
  assert (Hn : 1 <= n) by lia.
  rewrite (proj2 (Z.eqb_neq n 0)) by lia.
  pose proof (acceptedIn_range (windowAt history i (Z.to_nat n))) as Hr.
  rewrite Hl in Hr.
  set (k := acceptedIn _) in *.
  split; [reflexivity |]. split; [reflexivity |]. split; [reflexivity |].
  assert (Hpos : (0 < inject_Z n)%Q)
    by (change 0%Q with (inject_Z 0); rewrite <- Zlt_Qlt; lia).
  split.
  - apply Qle_shift_div_l; [exact Hpos |]. rewrite Qmult_0_l.
    change 0%Q with (inject_Z 0). rewrite <- Zle_Qle. lia.
  - apply Qle_shift_div_r; [exact Hpos |]. rewrite Qmult_1_l.
    rewrite <- Zle_Qle. lia.
Qed.

End HistoryFacts.

Section PlateExamples.

Import IR.

Lemma normalizeDims_canonical_witness :
  normalizeDims codeUnitCompare (normalizeDims codeUnitCompare ["k"; "n"; "k"])
  = normalizeDims codeUnitCompare ["k"; "n"; "k"] /\
  plateKeyForDims codeUnitCompare ["k"; "n"; "k"]
  = plateKeyForDims codeUnitCompare ["n"; "k"].
Proof.
  destruct (normalizeDims_canonical codeUnitCompare codeUnitCompare_total
              codeUnitCompare_trans ["k"; "n"; "k"]) as (_ & _ & _ & Hidem & Hsame).
  split; [exact Hidem |].
  apply (Hsame codeUnitCompare_antisym ["n"; "k"]).
  intros d. split; intros H;
    repeat (apply elem_of_cons in H as [-> | H]); try (now inversion H);
    repeat constructor.
Defined.

Lemma inferPlateHierarchies_keys_witness :
  NoDup (map key (inferPlateHierarchies codeUnitCompare sampleTemplates)) /\
  map key (inferPlateHierarchies codeUnitCompare sampleTemplates) = [EmptyString; "k|n"].
Proof.
  split; [| reflexivity].
  apply (inferPlateHierarchies_keys codeUnitCompare codeUnitCompare_total
           codeUnitCompare_trans sampleTemplates).
Defined.

End PlateExamples.
